(** * gemini-rsvp: the response-normalization pipeline of [app.py]

    A shallow embedding of the two request handlers of [app.py]
    ([generate_rsvp] and [generate_quiz]), of the helpers they call
    ([call_gemini], [safe_json_loads]), of the declared request and
    response schemas, and of the library functions they rely on
    (the [str] methods, [json.loads], schema validation), followed by the
    properties of the pipeline.

    Python strings are sequences of Unicode code points: a character is a
    code point in [N], a string a list of them. *)

From Stdlib Require Import String Ascii List NArith ZArith Bool Lia.
Import ListNotations.

Local Open Scope N_scope.

(** * Python [str] *)

Module PyStr.

Definition char := N.
Definition str := list char.

(** ASCII literals, for readable constants and examples. *)
Definition lit (s : string) : str :=
  List.map N_of_ascii (list_ascii_of_string s).

(** The same, with every apostrophe read as a double quote, to write JSON
    texts. *)
Definition jlit (s : string) : str :=
  List.map (fun c => if c =? 39 then 34 else c) (lit s).

Definition SPACE : char := 32.
Definition BACKTICK : char := 96.
Definition LBRACE : char := 123.
Definition RBRACE : char := 125.

(** [str.isspace] on one code point: the characters whose bidirectional
    class is WS, B or S, or whose general category is Zs. *)
Definition isspace (c : char) : bool :=
  ((9 <=? c) && (c <=? 13)) || ((28 <=? c) && (c <=? 32))
  || (c =? 133) || (c =? 160) || (c =? 5760)
  || ((8192 <=? c) && (c <=? 8202))
  || (c =? 8232) || (c =? 8233) || (c =? 8239) || (c =? 8287)
  || (c =? 12288).

Fixpoint dropwhile (p : char -> bool) (s : str) : str :=
  match s with
  | [] => []
  | c :: t => if p c then dropwhile p t else s
  end.

Definition lstrip_by (p : char -> bool) (s : str) : str := dropwhile p s.
Definition rstrip_by (p : char -> bool) (s : str) : str :=
  rev (dropwhile p (rev s)).
Definition strip_by (p : char -> bool) (s : str) : str :=
  rstrip_by p (lstrip_by p s).

(** [s.strip()] *)
Definition strip (s : str) : str := strip_by isspace s.

(** [s.strip(chars)] *)
Definition strip_chars (chars : str) (s : str) : str :=
  strip_by (fun c => existsb (N.eqb c) chars) s.

(** [s.startswith(prefix)] *)
Fixpoint startswith (prefix s : str) : bool :=
  match prefix, s with
  | [], _ => true
  | _ :: _, [] => false
  | a :: p, b :: t => (a =? b) && startswith p t
  end.

(** [s.find(c)] for a one-character needle; [None] stands for Python's -1. *)
Fixpoint find (c : char) (s : str) : option nat :=
  match s with
  | [] => None
  | d :: t => if d =? c then Some O
              else match find c t with
                   | Some i => Some (S i)
                   | None => None
                   end
  end.

(** [s.rfind(c)]: the index of the last occurrence. *)
Definition rfind (c : char) (s : str) : option nat :=
  match find c (rev s) with
  | Some i => Some (length s - 1 - i)%nat
  | None => None
  end.

(** [s[lo:hi]] for indices [0 <= lo], [0 <= hi]; empty when [hi <= lo]. *)
Definition slice (lo hi : nat) (s : str) : str :=
  firstn (hi - lo) (skipn lo s).

(** [s.split()]: split on runs of whitespace, no empty words.  [cur] is the
    word being read, most recent character first. *)
Fixpoint split_aux (cur : str) (s : str) : list str :=
  match s with
  | [] => match cur with [] => [] | _ => [rev cur] end
  | c :: t =>
      if isspace c
      then match cur with
           | [] => split_aux [] t
           | _ => rev cur :: split_aux [] t
           end
      else split_aux (c :: cur) t
  end.

Definition split (s : str) : list str := split_aux [] s.

(** [sep.join(words)] *)
Fixpoint join (sep : str) (words : list str) : str :=
  match words with
  | [] => []
  | [w] => w
  | w :: ws => w ++ sep ++ join sep ws
  end.

End PyStr.

(** * [json.loads] *)

Module Json.
Import PyStr.

Set Warnings "-register-all".

(** The values [json.loads] builds.  An object keeps its members in source
    order, duplicates included; [dict_get] reads it the way the resulting
    [dict] is read.  A float is kept as the literal it was read from
    (floating-point arithmetic is not modelled). *)
Inductive JSON : Type :=
  | JNull
  | JBool (b : bool)
  | JInt (z : Z)
  | JFloat (literal : str)
  | JString (s : str)
  | JArray (items : list JSON)
  | JObject (members : list (str * JSON)).

Fixpoint str_eqb (a b : str) : bool :=
  match a, b with
  | [], [] => true
  | x :: a', y :: b' => (x =? y) && str_eqb a' b'
  | _, _ => false
  end.

(** [d.get(key)] on the dict built from the member list: the last binding
    of a repeated key wins. *)
Fixpoint dict_get (key : str) (members : list (str * JSON)) : option JSON :=
  match members with
  | [] => None
  | (k, v) :: rest =>
      match dict_get key rest with
      | Some v' => Some v'
      | None => if str_eqb k key then Some v else None
      end
  end.

(** What makes [json.loads] raise: the message of a [JSONDecodeError]
    (its character offset is not modelled) and the [ValueError] of an
    integer literal above the interpreter's digit limit.  [RecursionError]
    stands for the exhausted budget of the model, which [loads] never
    reaches; the interpreter's own recursion limit is not modelled, nesting
    is unbounded. *)
Inductive DecodeError : Type :=
  | UnexpectedBOM
  | ExpectingValue
  | ExtraData
  | UnterminatedString
  | InvalidControlCharacter
  | InvalidEscape
  | InvalidUnicodeEscape
  | ExpectingPropertyName
  | ExpectingColon
  | ExpectingComma
  | IntegerTooLong
  | RecursionError.

(** Result of a scanning function: a value and the unread text, an error,
    or [OutOfFuel] when the recursion budget of the model is exhausted. *)
Inductive scan (A : Type) : Type :=
  | Ok (a : A)
  | Err (e : DecodeError)
  | OutOfFuel.
Arguments Ok {A} a.
Arguments Err {A} e.
Arguments OutOfFuel {A}.

Definition QUOTE : char := 34.
Definition BACKSLASH : char := 92.
Definition SLASH : char := 47.
Definition COMMA : char := 44.
Definition COLON : char := 58.
Definition LBRACKET : char := 91.
Definition RBRACKET : char := 93.
Definition MINUS : char := 45.
Definition PLUS : char := 43.
Definition DOT : char := 46.
Definition ZERO : char := 48.

(** JSON whitespace: space, tab, line feed, carriage return. *)
Definition is_ws (c : char) : bool :=
  (c =? 32) || (c =? 9) || (c =? 10) || (c =? 13).

Definition skip_ws (s : str) : str := dropwhile is_ws s.

Definition is_digit (c : char) : bool := (48 <=? c) && (c <=? 57).

Definition hex_digit (c : char) : option N :=
  if (48 <=? c) && (c <=? 57) then Some (c - 48)
  else if (97 <=? c) && (c <=? 102) then Some (c - 87)
  else if (65 <=? c) && (c <=? 70) then Some (c - 55)
  else None.

Definition hex4 (a b c d : char) : option N :=
  match hex_digit a, hex_digit b, hex_digit c, hex_digit d with
  | Some x, Some y, Some z, Some w => Some (((x * 16 + y) * 16 + z) * 16 + w)
  | _, _, _, _ => None
  end.

Definition is_high_surrogate (c : N) : bool := (55296 <=? c) && (c <=? 56319).
Definition is_low_surrogate (c : N) : bool := (56320 <=? c) && (c <=? 57343).
Definition join_surrogates (hi lo : N) : N :=
  65536 + (hi - 55296) * 1024 + (lo - 56320).

(** The one-character escapes after a backslash. *)
Definition simple_escape (c : char) : option char :=
  if c =? QUOTE then Some QUOTE
  else if c =? BACKSLASH then Some BACKSLASH
  else if c =? SLASH then Some SLASH
  else if c =? 98 then Some 8
  else if c =? 102 then Some 12
  else if c =? 110 then Some 10
  else if c =? 114 then Some 13
  else if c =? 116 then Some 9
  else None.

(** [scanstring], strict mode, entered after the opening quote.  [acc] holds
    the decoded characters, most recent first.  A \u escape needs its four
    hex digits and one more character after them; a high surrogate followed
    by an escaped low surrogate is joined with it. *)
Fixpoint scanstring (acc : str) (s : str) : DecodeError + (str * str) :=
  match s with
  | [] => inl UnterminatedString
  | c :: t =>
      if c =? QUOTE then inr (rev acc, t)
      else if c =? BACKSLASH then
        match t with
        | [] => inl UnterminatedString
        | e :: t1 =>
            if e =? 117 then
              match t1 with
              | h1 :: h2 :: h3 :: h4 :: ((_ :: _) as t2) =>
                  match hex4 h1 h2 h3 h4 with
                  | None => inl InvalidUnicodeEscape
                  | Some u =>
                      if is_high_surrogate u then
                        match t2 with
                        | b :: u' :: g1 :: g2 :: g3 :: g4 :: ((_ :: _) as t3) =>
                            if (b =? BACKSLASH) && (u' =? 117) then
                              match hex4 g1 g2 g3 g4 with
                              | None => inl InvalidUnicodeEscape
                              | Some l =>
                                  if is_low_surrogate l
                                  then scanstring (join_surrogates u l :: acc) t3
                                  else scanstring (u :: acc) t2
                              end
                            else scanstring (u :: acc) t2
                        | _ => scanstring (u :: acc) t2
                        end
                      else scanstring (u :: acc) t2
                  end
              | _ => inl InvalidUnicodeEscape
              end
            else
              match simple_escape e with
              | Some x => scanstring (x :: acc) t1
              | None => inl InvalidEscape
              end
        end
      else if c <=? 31 then inl InvalidControlCharacter
      else scanstring (c :: acc) t
  end.

Fixpoint span_digits (s : str) : str * str :=
  match s with
  | [] => ([], [])
  | c :: t =>
      if is_digit c
      then let (ds, r) := span_digits t in (c :: ds, r)
      else ([], s)
  end.

(** [int(digits)] for a run of decimal digits. *)
Definition int_of_digits (ds : str) : Z :=
  fold_left (fun acc c => (acc * 10 + Z.of_N (c - 48))%Z) ds 0%Z.

(** The interpreter's default limit on the length of an integer literal
    ([sys.int_info.default_max_str_digits]). *)
Definition max_str_digits : nat := 4300.

(** The parts of a number literal.  Each function splits the text into the
    part it reads and the rest. *)
Definition scan_sign (s : str) : str * str :=
  match s with
  | c :: t => if c =? MINUS then ([c], t) else ([], s)
  | [] => ([], s)
  end.

(** 0, or a run of digits that does not start with 0. *)
Definition scan_int (s : str) : option (str * str) :=
  match s with
  | c :: t =>
      if c =? ZERO then Some ([c], t)
      else if is_digit c
      then let (ds, r) := span_digits t in Some (c :: ds, r)
      else None
  | [] => None
  end.

(** A dot followed by at least one digit. *)
Definition scan_frac (s : str) : str * str :=
  match s with
  | p :: d :: t =>
      if (p =? DOT) && is_digit d
      then let (ds, r) := span_digits t in (p :: d :: ds, r)
      else ([], s)
  | _ => ([], s)
  end.

(** e or E, an optional sign, and at least one digit; given up when no
    digit follows. *)
Definition scan_exp (s : str) : str * str :=
  match s with
  | e :: t =>
      if (e =? 101) || (e =? 69) then
        let (sg, t') :=
          match t with
          | x :: y => if (x =? MINUS) || (x =? PLUS) then ([x], y) else ([], t)
          | [] => ([], t)
          end in
        match span_digits t' with
        | ([], _) => ([], s)
        | (ds, r) => (e :: sg ++ ds, r)
        end
      else ([], s)
  | [] => ([], s)
  end.

(** The number matcher of the scanner: an optional minus sign, the integer
    part, an optional fraction, an optional exponent.  Without fraction and
    exponent the literal is an [int], otherwise a [float]. *)
Definition match_number (s : str) : DecodeError + (JSON * str) :=
  let (sign, s1) := scan_sign s in
  match scan_int s1 with
  | None => inl ExpectingValue
  | Some (int_part, r1) =>
      let (frac, r2) := scan_frac r1 in
      let (exp, r3) := scan_exp r2 in
      match frac, exp with
      | [], [] =>
          if (max_str_digits <? length int_part)%nat
          then inl IntegerTooLong
          else inr (JInt (match sign with
                          | [] => int_of_digits int_part
                          | _ => - int_of_digits int_part
                          end)%Z, r3)
      | _, _ => inr (JFloat (sign ++ int_part ++ frac ++ exp), r3)
      end
  end.

(** The named constants and numbers of [scan_once]: the cases that are
    neither a string, an object nor an array. *)
Definition scan_scalar (s : str) : DecodeError + (JSON * str) :=
  if startswith (lit "null") s then inr (JNull, skipn 4 s)
  else if startswith (lit "true") s then inr (JBool true, skipn 4 s)
  else if startswith (lit "false") s then inr (JBool false, skipn 5 s)
  else if startswith (lit "NaN") s then inr (JFloat (lit "NaN"), skipn 3 s)
  else if startswith (lit "Infinity") s
       then inr (JFloat (lit "Infinity"), skipn 8 s)
  else if startswith (lit "-Infinity") s
       then inr (JFloat (lit "-Infinity"), skipn 9 s)
  else match_number s.

Definition lift {A} (r : DecodeError + A) : scan A :=
  match r with
  | inl e => Err e
  | inr a => Ok a
  end.

(** [scan_once] with the two loops it recurses through: the members of an
    object (entered at a key) and the items of an array (entered at a
    value).  [fuel] bounds the number of nested calls; [loads] below gives
    more than any text can use. *)
Fixpoint scan_once (fuel : nat) (s : str) {struct fuel} : scan (JSON * str) :=
  match fuel with
  | O => OutOfFuel
  | S n =>
      match s with
      | [] => Err ExpectingValue
      | c :: t =>
          if c =? QUOTE then
            match scanstring [] t with
            | inl e => Err e
            | inr (v, r) => Ok (JString v, r)
            end
          else if c =? LBRACE then
            match skip_ws t with
            | d :: r =>
                if d =? RBRACE then Ok (JObject [], r)
                else parse_members n (d :: r) []
            | [] => parse_members n [] []
            end
          else if c =? LBRACKET then
            match skip_ws t with
            | d :: r =>
                if d =? RBRACKET then Ok (JArray [], r)
                else parse_items n (d :: r) []
            | [] => parse_items n [] []
            end
          else lift (scan_scalar s)
      end
  end

with parse_members (fuel : nat) (s : str) (acc : list (str * JSON))
       {struct fuel} : scan (JSON * str) :=
  match fuel with
  | O => OutOfFuel
  | S n =>
      match s with
      | [] => Err ExpectingPropertyName
      | c :: t =>
          if c =? QUOTE then
            match scanstring [] t with
            | inl e => Err e
            | inr (key, r1) =>
                match skip_ws r1 with
                | [] => Err ExpectingColon
                | c2 :: r2 =>
                    if c2 =? COLON then
                      match scan_once n (skip_ws r2) with
                      | Ok (v, r3) =>
                          match skip_ws r3 with
                          | [] => Err ExpectingComma
                          | c3 :: r4 =>
                              if c3 =? RBRACE
                              then Ok (JObject (rev ((key, v) :: acc)), r4)
                              else if c3 =? COMMA
                              then parse_members n (skip_ws r4)
                                     ((key, v) :: acc)
                              else Err ExpectingComma
                          end
                      | Err e => Err e
                      | OutOfFuel => OutOfFuel
                      end
                    else Err ExpectingColon
                end
            end
          else Err ExpectingPropertyName
      end
  end

with parse_items (fuel : nat) (s : str) (acc : list JSON)
       {struct fuel} : scan (JSON * str) :=
  match fuel with
  | O => OutOfFuel
  | S n =>
      match scan_once n s with
      | Ok (v, r1) =>
          match skip_ws r1 with
          | [] => Err ExpectingComma
          | c :: r2 =>
              if c =? RBRACKET then Ok (JArray (rev (v :: acc)), r2)
              else if c =? COMMA then parse_items n (skip_ws r2) (v :: acc)
              else Err ExpectingComma
          end
      | Err e => Err e
      | OutOfFuel => OutOfFuel
      end
  end.

Definition BOM : char := 65279.

(** [json.loads(s)] for a [str]: refuse a byte-order mark, skip whitespace,
    scan one value, skip whitespace, and require the end of the text.
    The interpreter also bounds how deep arrays and objects may nest, by its
    recursion limit and the stack in use, and raises [RecursionError]
    beyond; that bound is the interpreter's and is not part of these
    definitions, which read a text of any depth. *)
Definition loads (s : str) : DecodeError + JSON :=
  if startswith [BOM] s then inl UnexpectedBOM
  else
    match scan_once (S (2 * length s)) (skip_ws s) with
    | Ok (v, r) =>
        match skip_ws r with
        | [] => inr v
        | _ :: _ => inl ExtraData
        end
    | Err e => inl e
    | OutOfFuel => inl RecursionError
    end.

End Json.

(** * Schema validation

    The schema classes of [app.py] are validated field by field.  A value of
    exactly the declared type is accepted unchanged.  What the validation
    library does in its lax mode with a value of another type (a numeric
    string or an integral float for an [int] field, say) differs between
    its releases and needs floating-point arithmetic: it is a parameter. *)

Module Pydantic.
Import PyStr Json.

Record Coercion : Type := {
  lax_str : JSON -> option str;
  lax_int : JSON -> option Z
}.

(** The coercion that converts nothing. *)
Definition strict : Coercion :=
  {| lax_str := fun _ => None; lax_int := fun _ => None |}.

Definition validate_str (lax : Coercion) (v : JSON) : option str :=
  match v with
  | JString s => Some s
  | _ => lax_str lax v
  end.

Definition validate_int (lax : Coercion) (v : JSON) : option Z :=
  match v with
  | JInt z => Some z
  | _ => lax_int lax v
  end.

Fixpoint validate_each {A} (f : JSON -> option A) (l : list JSON)
  : option (list A) :=
  match l with
  | [] => Some []
  | v :: rest =>
      match f v, validate_each f rest with
      | Some a, Some r => Some (a :: r)
      | _, _ => None
      end
  end.

(** A field declared [List[T]]. *)
Definition validate_list {A} (f : JSON -> option A) (v : JSON)
  : option (list A) :=
  match v with
  | JArray l => validate_each f l
  | _ => None
  end.

(** A required field: absent is an error. *)
Definition required {A} (f : JSON -> option A) (key : str)
  (m : list (str * JSON)) : option A :=
  match dict_get key m with
  | Some v => f v
  | None => None
  end.

(** A field with a default: the default is taken when the key is absent
    and is not validated. *)
Definition with_default {A} (f : JSON -> option A) (default : A) (key : str)
  (m : list (str * JSON)) : option A :=
  match dict_get key m with
  | Some v => f v
  | None => Some default
  end.

(** [Field(ge=lo, le=hi)] on an [int]. *)
Definition bounded_int (lax : Coercion) (lo hi : Z) (v : JSON) : option Z :=
  match validate_int lax v with
  | Some z => if ((lo <=? z) && (z <=? hi))%Z then Some z else None
  | None => None
  end.

End Pydantic.

(** * The schemas of [app.py] *)

Module QuizItem.
Import PyStr Json Pydantic.

Record t : Type := {
  pregunta : str;
  opciones : list str;
  respuesta : Z;
  explanation : str
}.

Definition validate_fields (lax : Coercion) (m : list (str * JSON))
  : option t :=
  match required (validate_str lax) (lit "pregunta") m,
        required (validate_list (validate_str lax)) (lit "opciones") m,
        required (validate_int lax) (lit "respuesta") m,
        required (validate_str lax) (lit "explanation") m with
  | Some p, Some o, Some r, Some e =>
      Some {| pregunta := p; opciones := o; respuesta := r; explanation := e |}
  | _, _, _, _ => None
  end.

(** A [QuizItem] nested in another model: the value must be a dict. *)
Definition validate (lax : Coercion) (v : JSON) : option t :=
  match v with
  | JObject m => validate_fields lax m
  | _ => None
  end.

End QuizItem.

Module QuizPayload.
Import PyStr Json Pydantic.

Record t : Type := {
  texto : str;
  preguntas : list QuizItem.t
}.

Definition validate_fields (lax : Coercion) (m : list (str * JSON))
  : option t :=
  match required (validate_str lax) (lit "texto") m,
        required (validate_list (QuizItem.validate lax)) (lit "preguntas") m
  with
  | Some x, Some q => Some {| texto := x; preguntas := q |}
  | _, _ => None
  end.

End QuizPayload.

Module RSVPIn.
Import PyStr Json Pydantic.

Record t : Type := {
  topic : str;
  palabras_objetivo : Z;
  num_preguntas : Z
}.

Definition validate (lax : Coercion) (body : JSON) : option t :=
  match body with
  | JObject m =>
      match required (validate_str lax) (lit "topic") m,
            with_default (bounded_int lax 80 800) 250%Z
              (lit "palabras_objetivo") m,
            with_default (bounded_int lax 3 12) 5%Z (lit "num_preguntas") m
      with
      | Some x, Some p, Some n =>
          Some {| topic := x; palabras_objetivo := p; num_preguntas := n |}
      | _, _, _ => None
      end
  | _ => None
  end.

End RSVPIn.

Module RSVPOut.
Import PyStr.

Record t : Type := {
  id : str;
  texto : str;
  palabras : list str
}.

End RSVPOut.

Module QuizIn.
Import PyStr Json Pydantic.

Record t : Type := {
  texto : str;
  num_preguntas : Z
}.

Definition validate (lax : Coercion) (body : JSON) : option t :=
  match body with
  | JObject m =>
      match required (validate_str lax) (lit "texto") m,
            with_default (bounded_int lax 3 12) 5%Z (lit "num_preguntas") m
      with
      | Some x, Some n => Some {| texto := x; num_preguntas := n |}
      | _, _ => None
      end
  | _ => None
  end.

End QuizIn.

Module QuizOut.
Import PyStr.

Record t : Type := {
  rsvp_session_id : str;
  preguntas : list QuizItem.t
}.

End QuizOut.

(** * The service *)

Module App.
Import PyStr Json Pydantic.

(** A prompt is a template of [app.py] with the arguments of its
    [.format(...)] call; the text of the templates is not needed. *)
Inductive Prompt : Type :=
  | PROMPT_TEXTO (topic : str) (palabras_objetivo : Z)
  | PROMPT_QUIZ (texto_base : str) (num_preguntas : Z).

(** An exception of the model's client.  It is no [HTTPException] and
    [app.py] has no handler for it. *)
Inductive Exception : Type :=
  | ValueError     (* raised by [resp.text] for a reply without readable text *)
  | ClientError.   (* anything else the client raises *)

(** What [generate_content] hands back, as far as [call_gemini] reads it:
    the candidates, and the accessor [resp.text], which returns the text of
    the reply or raises when the reply has none to give (a candidate
    without parts). *)
Record Response : Type := {
  candidates : list str;
  text : Exception + str
}.

(** The outside world of a handler: what the [n]-th call of
    [generate_content] does, which is to raise or to return a response
    ([None] for a falsy one), and the [n]-th identifier [uuid.uuid4()]
    draws. *)
Record World : Type := {
  generate_content : nat -> Prompt -> Exception + option Response;
  uuid4 : nat -> str
}.

(** What a run has done to the world: the prompts sent upstream, oldest
    first, and the number of identifiers drawn. *)
Record Trace : Type := {
  calls : list Prompt;
  minted : nat
}.

Inductive StructureError : Type :=
  | NotAMapping        (* the TypeError of unpacking a non-mapping *)
  | ValidationError.

(** The [detail] of an [HTTPException]: its fixed message and the exception
    formatted into it. *)
Inductive Detail : Type :=
  | NoContent                                (* Gemini no devolvio contenido *)
  | InvalidJSON (e : DecodeError)            (* ... no es JSON valido: {e} *)
  | InvalidStructure (e : StructureError)    (* Estructura de quiz invalida: {e} *)
  | RequestValidation                        (* the framework's own 422 *)
  | InternalServerError (e : Exception).     (* the framework's own 500 *)

Record HTTPException : Type := {
  status_code : Z;
  detail : Detail
}.

(** Handlers run in a state-and-exception monad over the trace. *)
Definition M (A : Type) : Type := Trace -> (HTTPException + A) * Trace.

Definition ret {A} (a : A) : M A := fun tr => (inr a, tr).

Definition bind {A B} (m : M A) (k : A -> M B) : M B :=
  fun tr =>
    match m tr with
    | (inr a, tr') => k a tr'
    | (inl e, tr') => (inl e, tr')
    end.

Definition raise {A} (e : HTTPException) : M A := fun tr => (inl e, tr).

(** An exception that nothing catches leaves the handler, and the framework
    answers the request with 500. *)
Definition uncaught (e : Exception) : HTTPException :=
  {| status_code := 500; detail := InternalServerError e |}.

Notation "x <- m ;; k" := (bind m (fun x => k))
  (at level 61, m at next level, right associativity).

Section Service.

Variable lax : Coercion.
Variable world : World.

(** [model.generate_content(prompt)]: the call is made, and what it raises
    is not caught. *)
Definition send (prompt : Prompt) : M (option Response) :=
  fun tr =>
    (match generate_content world (length (calls tr)) prompt with
     | inl e => inl (uncaught e)
     | inr resp => inr resp
     end,
     {| calls := calls tr ++ [prompt]; minted := minted tr |}).

(** [str(uuid.uuid4())] *)
Definition new_uuid : M str :=
  fun tr =>
    (inr (uuid4 world (minted tr)),
     {| calls := calls tr; minted := S (minted tr) |}).

Definition call_gemini (prompt : Prompt) : M str :=
  resp <- send prompt ;;
  match resp with
  | None => raise {| status_code := 502; detail := NoContent |}
  | Some r =>
      match candidates r with
      | [] => raise {| status_code := 502; detail := NoContent |}
      | _ :: _ =>
          match text r with
          | inl e => raise (uncaught e)
          | inr t => ret (strip t)
          end
      end
  end.

Definition safe_json_loads (payload : str) : DecodeError + JSON :=
  let txt := strip payload in
  let txt :=
    if startswith (lit "```") txt then
      let txt := strip_chars (lit "`") txt in
      let first_brace := find LBRACE txt in
      let last_brace := rfind RBRACE txt in
      match first_brace, last_brace with
      | Some i, Some j => slice i (j + 1) txt
      | _, _ => txt
      end
    else txt in
  loads txt.

Definition generate_rsvp (payload : RSVPIn.t) : M RSVPOut.t :=
  let prompt := PROMPT_TEXTO (RSVPIn.topic payload)
                  (RSVPIn.palabras_objetivo payload) in
  texto <- call_gemini prompt ;;
  let palabras := split texto in
  id <- new_uuid ;;
  ret {| RSVPOut.id := id; RSVPOut.texto := texto;
         RSVPOut.palabras := palabras |}.

(** [QuizPayload] built from the unpacked [data]: unpacking needs a
    mapping, then the fields are validated. *)
Definition QuizPayload_new (data : JSON) : StructureError + QuizPayload.t :=
  match data with
  | JObject m =>
      match QuizPayload.validate_fields lax m with
      | Some q => inr q
      | None => inl ValidationError
      end
  | _ => inl NotAMapping
  end.

Definition generate_quiz (payload : QuizIn.t) : M QuizOut.t :=
  let prompt := PROMPT_QUIZ (QuizIn.texto payload)
                  (QuizIn.num_preguntas payload) in
  raw <- call_gemini prompt ;;
  match safe_json_loads raw with
  | inl e => raise {| status_code := 502; detail := InvalidJSON e |}
  | inr data =>
      match QuizPayload_new data with
      | inl e => raise {| status_code := 422; detail := InvalidStructure e |}
      | inr quiz =>
          id <- new_uuid ;;
          ret {| QuizOut.rsvp_session_id := id;
                 QuizOut.preguntas := QuizPayload.preguntas quiz |}
      end
  end.

(** A route with a body parameter: the framework validates the body against
    the parameter's schema and answers 422 itself, without entering the
    handler, when validation fails.  A route ends with what the handler
    returns or raises; the encoding of a returned model as the body of the
    response comes after it. *)
Definition route {A B} (validate : JSON -> option A) (handler : A -> M B)
  (body : JSON) : M B :=
  match validate body with
  | Some payload => handler payload
  | None => raise {| status_code := 422; detail := RequestValidation |}
  end.

(** [POST /api/rsvp] and [POST /api/quiz] *)
Definition post_api_rsvp : JSON -> M RSVPOut.t :=
  route (RSVPIn.validate lax) generate_rsvp.

Definition post_api_quiz : JSON -> M QuizOut.t :=
  route (QuizIn.validate lax) generate_quiz.

End Service.

(** The empty trace a request starts from. *)
Definition start : Trace := {| calls := []; minted := O |}.

(** A world whose model answers every call with one candidate of the given
    text. *)
Definition replying (reply : str) (ids : nat -> str) : World :=
  {| generate_content := fun _ _ =>
       inr (Some {| candidates := [reply]; text := inr reply |});
     uuid4 := ids |}.

(** A world whose model returns no content. *)
Definition silent (ids : nat -> str) : World :=
  {| generate_content := fun _ _ => inr None; uuid4 := ids |}.

(** A world whose model answers with one candidate that has no parts, as
    for a reply stopped before any text: [resp.text] raises. *)
Definition blocked (ids : nat -> str) : World :=
  {| generate_content := fun _ _ =>
       inr (Some {| candidates := [[]]; text := inl ValueError |});
     uuid4 := ids |}.

(** A world whose client fails on every call. *)
Definition failing (ids : nat -> str) : World :=
  {| generate_content := fun _ _ => inl ClientError; uuid4 := ids |}.

End App.

(** * Specification-side definitions *)

Module Spec.
Import PyStr.

Definition all_space (s : str) : bool := forallb isspace s.
Definition no_space (s : str) : bool := forallb (fun c => negb (isspace c)) s.

(** The text after a word: nothing, or something that starts with a
    whitespace character. *)
Definition word_end (rest : str) : Prop :=
  match rest with
  | [] => True
  | c :: _ => isspace c = true
  end.

(** The whitespace tokenization of a text, as the words of the
    specification have it: leading and trailing whitespace is ignored, any
    run of whitespace is one separator, and a word is a maximal run of
    characters that are not whitespace. *)
Inductive Tokenization : str -> list str -> Prop :=
  | tok_done : forall ws,
      all_space ws = true -> Tokenization ws []
  | tok_word : forall ws w rest words,
      all_space ws = true ->
      w <> [] -> no_space w = true -> word_end rest ->
      Tokenization rest words ->
      Tokenization (ws ++ w ++ rest) (w :: words).

(** The text does not start with whitespace. *)
Definition starts_in_word (s : str) : Prop :=
  match s with
  | [] => True
  | c :: _ => isspace c = false
  end.

(** Every whitespace character of the text is a U+0020 that is followed by
    a character that is not whitespace. *)
Fixpoint single_spaced (s : str) : bool :=
  match s with
  | [] => true
  | c :: t =>
      (if isspace c
       then (c =? SPACE) &&
            match t with
            | [] => false
            | d :: _ => negb (isspace d)
            end
       else true) && single_spaced t
  end.

(** The text holds no two adjacent U+0020. *)
Fixpoint no_double_space (s : str) : bool :=
  match s with
  | [] => true
  | c :: t =>
      negb ((c =? SPACE) &&
            match t with
            | [] => false
            | d :: _ => d =? SPACE
            end) && no_double_space t
  end.

(** The unread text [r] is what is left of [s]. *)
Definition Suffix (r s : str) : Prop := exists pre, s = pre ++ r.

(** The text read from [s] down to [r] ends with a closing brace. *)
Definition Closes (r s : str) : Prop := exists body, s = body ++ RBRACE :: r.

(** A value that is neither an object nor an array. *)
Definition scalar (v : Json.JSON) : Prop :=
  match v with
  | Json.JObject _ | Json.JArray _ => False
  | _ => True
  end.

(** The shape of what the scanner reads: the unread text is a proper
    suffix of the input, an object is read from an opening brace to its
    closing brace, and the item loop builds an array. *)
Definition scan_once_shape (fuel : nat) : Prop :=
  forall s v r, Json.scan_once fuel s = Json.Ok (v, r) ->
    Suffix r s /\ (length r < length s)%nat /\
    (forall o, v = Json.JObject o -> exists body, s = LBRACE :: body ++ RBRACE :: r).

Definition parse_members_shape (fuel : nat) : Prop :=
  forall s acc v r, Json.parse_members fuel s acc = Json.Ok (v, r) -> Closes r s.

Definition parse_items_shape (fuel : nat) : Prop :=
  forall s acc v r, Json.parse_items fuel s acc = Json.Ok (v, r) ->
    Suffix r s /\ (length r < length s)%nat /\ exists l, v = Json.JArray l.

(** A text without an opening brace. *)
Definition braceless (s : str) : Prop := Forall (fun c => c <> LBRACE) s.

(** The upstream text [J] inside a fenced block: three backticks and a
    label in front, a tail and three backticks behind. *)
Definition fenced (label J tail : str) : str :=
  lit "```" ++ label ++ J ++ tail ++ lit "```".

(** A numeric field of the body converts to an integer outside
    [lo, hi]. *)
Definition out_of_range (lax : Pydantic.Coercion) (key : str) (lo hi : Z)
  (m : list (str * Json.JSON)) : Prop :=
  exists v z, Json.dict_get key m = Some v
              /\ Pydantic.validate_int lax v = Some z
              /\ (z < lo \/ hi < z)%Z.

(** A JSON value that is a question object with fields of exactly the
    declared types, and the item it stands for. *)
Definition Encodes (v : Json.JSON) (q : QuizItem.t) : Prop :=
  exists m, v = Json.JObject m
    /\ Json.dict_get (lit "pregunta") m
       = Some (Json.JString (QuizItem.pregunta q))
    /\ Json.dict_get (lit "opciones") m
       = Some (Json.JArray (List.map Json.JString (QuizItem.opciones q)))
    /\ Json.dict_get (lit "respuesta") m
       = Some (Json.JInt (QuizItem.respuesta q))
    /\ Json.dict_get (lit "explanation") m
       = Some (Json.JString (QuizItem.explanation q)).

(** The value of a field is not a list: the key is absent, or bound to
    something else than an array. *)
Definition not_a_list (key : str) (m : list (str * Json.JSON)) : Prop :=
  forall l, Json.dict_get key m <> Some (Json.JArray l).

(** A character that opens a commentary: not whitespace, and not one a
    JSON string, object, array or a code fence starts with. *)
Definition opens_prose (c : char) : bool :=
  negb (isspace c) && negb (c =? Json.QUOTE) && negb (c =? LBRACE)
  && negb (c =? Json.LBRACKET) && negb (c =? BACKTICK).

(** The text holds no two adjacent whitespace characters. *)
Fixpoint no_whitespace_runs (s : str) : bool :=
  match s with
  | [] => true
  | c :: t =>
      negb (isspace c &&
            match t with
            | [] => false
            | d :: _ => isspace d
            end) && no_whitespace_runs t
  end.

(** The trace after one upstream call. *)
Definition called (prompt : App.Prompt) (tr : App.Trace) : App.Trace :=
  {| App.calls := App.calls tr ++ [prompt]; App.minted := App.minted tr |}.

(** The trace after one identifier was drawn. *)
Definition drawn (tr : App.Trace) : App.Trace :=
  {| App.calls := App.calls tr; App.minted := S (App.minted tr) |}.

Definition quiz_prompt (payload : QuizIn.t) : App.Prompt :=
  App.PROMPT_QUIZ (QuizIn.texto payload) (QuizIn.num_preguntas payload).

Definition rsvp_prompt (payload : RSVPIn.t) : App.Prompt :=
  App.PROMPT_TEXTO (RSVPIn.topic payload) (RSVPIn.palabras_objetivo payload).

(** The upstream reply has content: a response with at least one
    candidate, whose text reads [txt]. *)
Definition has_content (reply : App.Exception + option App.Response)
  (txt : str) : Prop :=
  exists r, reply = inr (Some r) /\ App.candidates r <> []
            /\ App.text r = inr txt.

Definition no_content (reply : App.Exception + option App.Response) : Prop :=
  reply = inr None
  \/ exists r, reply = inr (Some r) /\ App.candidates r = [].

(** The response has a candidate, and reading its text raises [e]. *)
Definition unreadable (reply : App.Exception + option App.Response)
  (e : App.Exception) : Prop :=
  exists r, reply = inr (Some r) /\ App.candidates r <> []
            /\ App.text r = inl e.

(** The call of [generate_content] itself raises [e]. *)
Definition client_raises (reply : App.Exception + option App.Response)
  (e : App.Exception) : Prop :=
  reply = inl e.

Definition error (status : Z) (d : App.Detail) : App.HTTPException :=
  {| App.status_code := status; App.detail := d |}.

End Spec.

(** * Example requests and replies *)

Module Examples.
Import PyStr Json Pydantic App.

Definition ids (n : nat) : str := lit "uuid-" ++ [48 + N.of_nat n].

Definition quiz_body : JSON :=
  JObject [(lit "texto", JString (lit "el mar"));
           (lit "num_preguntas", JInt 3)].

Definition quiz_payload : QuizIn.t :=
  {| QuizIn.texto := lit "el mar"; QuizIn.num_preguntas := 3 |}.

Definition rsvp_payload : RSVPIn.t :=
  {| RSVPIn.topic := lit "el mar"; RSVPIn.palabras_objetivo := 250;
     RSVPIn.num_preguntas := 5 |}.

(** A reply with three well-formed questions. *)
Definition three_questions : str := jlit
"{'texto': 'resumen',
  'preguntas': [
    {'pregunta': 'uno', 'opciones': ['A', 'B', 'C', 'D'], 'respuesta': 0,
     'explanation': 'porque si'},
    {'pregunta': 'dos', 'opciones': ['A', 'B', 'C', 'D'], 'respuesta': 3,
     'explanation': 'porque no'},
    {'pregunta': 'tres', 'opciones': ['A', 'B'], 'respuesta': 1,
     'explanation': 'tal vez'}]}".

Definition item (p : string) (o : list string) (r : Z) (e : string)
  : QuizItem.t :=
  {| QuizItem.pregunta := lit p; QuizItem.opciones := List.map lit o;
     QuizItem.respuesta := r; QuizItem.explanation := lit e |}.

Definition three_items : list QuizItem.t :=
  [item "uno" ["A"; "B"; "C"; "D"]%string 0 "porque si";
   item "dos" ["A"; "B"; "C"; "D"]%string 3 "porque no";
   item "tres" ["A"; "B"]%string 1 "tal vez"].



(** A reply whose only question has an empty list of options. *)
Definition empty_options : str := jlit
"{'texto': 'resumen',
  'preguntas': [{'pregunta': 'uno', 'opciones': [], 'respuesta': 0,
                 'explanation': 'porque si'}]}".

(** A reply whose only question has a string where the options should
    be. *)
Definition string_options : str := jlit
"{'texto': 'resumen',
  'preguntas': [{'pregunta': 'uno', 'opciones': 'A', 'respuesta': 0,
                 'explanation': 'porque si'}]}".

(** A passage request for 50 words, and one with an empty topic. *)
Definition fifty_words : list (str * JSON) :=
  [(lit "topic", JString (lit "el mar"));
   (lit "palabras_objetivo", JInt 50)].

Definition empty_topic : JSON := JObject [(lit "topic", JString [])].

Definition empty_texto : JSON := JObject [(lit "texto", JString [])].

Definition no_topic : JSON := JObject [(lit "palabras_objetivo", JInt 100)].

(** A small object text and the object it stands for. *)
Definition small_text : str := jlit "{'texto': 'x', 'preguntas': []}".

Definition small_object : list (str * JSON) :=
  [(lit "texto", JString (lit "x")); (lit "preguntas", JArray [])].

Definition string_options_object : list (str * JSON) :=
  Eval vm_compute in
    match loads string_options with
    | inr (JObject m) => m
    | _ => []
    end.

Definition string_options_item : list (str * JSON) :=
  [(lit "pregunta", JString (lit "uno")); (lit "opciones", JString (lit "A"));
   (lit "respuesta", JInt 0); (lit "explanation", JString (lit "porque si"))].

(** The small object with commentary in front of it. *)
Definition with_prose : str := lit "Aqui esta: " ++ small_text.

(** A passage of two lines. *)
Definition two_lines : str := lit "a" ++ [10] ++ lit "b".

End Examples.

(** * Further specification-side definitions *)

Module MoreSpec.
Import PyStr Json Pydantic App Spec.

(** The characters of a text that are not whitespace, in order. *)
Definition without_space (s : str) : str :=
  filter (fun c => negb (isspace c)) s.

(** The text does not end with whitespace. *)
Definition ends_in_word (s : str) : Prop := starts_in_word (rev s).

(** The trace of a handler that made its one upstream call: the call is
    logged, and an identifier is drawn exactly when there is a result. *)
Definition one_call {A} (prompt : Prompt) (tr : Trace)
  (res : (HTTPException + A) * Trace) : Prop :=
  calls (snd res) = calls tr ++ [prompt]
  /\ minted (snd res)
     = match fst res with
       | inr _ => S (minted tr)
       | inl _ => minted tr
       end.

(** A character no JSON value starts with, that is neither whitespace nor
    a byte-order mark nor a backtick. *)
Definition opens_no_value (c : char) : bool :=
  negb (isspace c) && negb (c =? BACKTICK) && negb (c =? BOM)
  && negb (c =? QUOTE) && negb (c =? LBRACE) && negb (c =? LBRACKET)
  && negb (c =? MINUS) && negb (is_digit c)
  && negb (c =? 110) && negb (c =? 116) && negb (c =? 102)
  && negb (c =? 78) && negb (c =? 73).

(** The keys the two reply schemas read. *)
Definition payload_key (k : str) : bool :=
  str_eqb k (lit "texto") || str_eqb k (lit "preguntas").

Definition item_key (k : str) : bool :=
  str_eqb k (lit "pregunta") || str_eqb k (lit "opciones")
  || str_eqb k (lit "respuesta") || str_eqb k (lit "explanation").

(** The characters a number or a named constant is written with. *)
Definition value_char (c : char) : bool :=
  is_digit c || existsb (N.eqb c) (lit "-+.eEnultrfasNIiy").

Definition all_value_chars (s : str) : Prop :=
  Forall (fun c => value_char c = true) s.

(** The text read from [s] down to [r] ends with the character [c]. *)
Definition EndsWith (c : char) (r s : str) : Prop :=
  exists body, s = body ++ c :: r.

(** The scanner reads no further than it says: run on a text that ends
    with [r] and leaving at least [r] unread, it reads the same from the
    text without [r]. *)
Definition scan_once_prefix (fuel : nat) : Prop :=
  forall a b r v,
    scan_once fuel (a ++ r) = Ok (v, b ++ r) -> scan_once fuel a = Ok (v, b).

Definition parse_members_prefix (fuel : nat) : Prop :=
  forall a b r acc v,
    parse_members fuel (a ++ r) acc = Ok (v, b ++ r) ->
    parse_members fuel a acc = Ok (v, b).

Definition parse_items_prefix (fuel : nat) : Prop :=
  forall a b r acc v,
    parse_items fuel (a ++ r) acc = Ok (v, b ++ r) ->
    parse_items fuel a acc = Ok (v, b).

(** Example replies: an object without questions, a fenced array, and
    a question with a difficulty the schema does not know. *)
Definition only_summary : str := jlit "{'texto': 'x'}".

Definition only_summary_object : list (str * JSON) :=
  [(lit "texto", JString (lit "x"))].

Definition only_topic : list (str * JSON) :=
  [(lit "topic", JString (lit "el mar"))].

Definition fenced_array : str :=
  lit "```json" ++ [10] ++ lit "[1, 2]" ++ [10] ++ lit "```".

Definition one_bad_question : str := jlit
"{'texto': 'x', 'preguntas': [
   {'pregunta': 'uno', 'opciones': ['A', 'B'], 'respuesta': 0,
    'explanation': 'si'},
   {'pregunta': 'dos', 'opciones': ['A', 'B'], 'respuesta': 1}]}".

Definition good_question : list (str * JSON) :=
  [(lit "pregunta", JString (lit "uno"));
   (lit "opciones", JArray [JString (lit "A"); JString (lit "B")]);
   (lit "respuesta", JInt 0); (lit "explanation", JString (lit "si"))].

Definition bad_question : list (str * JSON) :=
  [(lit "pregunta", JString (lit "dos"));
   (lit "opciones", JArray [JString (lit "A"); JString (lit "B")]);
   (lit "respuesta", JInt 1)].

Definition one_bad_question_object : list (str * JSON) :=
  [(lit "texto", JString (lit "x"));
   (lit "preguntas", JArray [JObject good_question; JObject bad_question])].

Definition difficulty : str * JSON := (lit "dificultad", JInt 3).

End MoreSpec.

(** * Properties of the string functions *)

Module PyStrFacts.
Import PyStr Spec.

Lemma dropwhile_app_stop (p : char -> bool) (X B : str) (c : char) :
  p c = false -> dropwhile p (X ++ c :: B) = dropwhile p X ++ c :: B.
Proof.
  intros Hc. induction X as [|x X IH]; simpl.
  - now rewrite Hc.
  - destruct (p x); [exact IH | reflexivity].
Qed.

Lemma dropwhile_all (p : char -> bool) (X : str) :
  forallb p X = true -> dropwhile p X = [].
Proof.
  induction X as [|x X IH]; simpl; [reflexivity|].
  intros H. apply andb_true_iff in H as [Hx HX].
  rewrite Hx. auto.
Qed.

Lemma dropwhile_idem (p : char -> bool) (X : str) :
  dropwhile p (dropwhile p X) = dropwhile p X.
Proof.
  induction X as [|x X IH]; simpl; [reflexivity|].
  destruct (p x) eqn:E; [exact IH | simpl; now rewrite E].
Qed.

Lemma dropwhile_In (p : char -> bool) (X : str) (c : char) :
  In c (dropwhile p X) -> In c X.
Proof.
  induction X as [|x X IH]; simpl; [tauto|].
  destruct (p x); simpl; auto.
Qed.

Lemma dropwhile_head (p : char -> bool) (X : str) (c : char) (t : str) :
  dropwhile p X = c :: t -> p c = false.
Proof.
  induction X as [|x X IH]; simpl; [discriminate|].
  destruct (p x) eqn:E; [exact IH|]. intros H; injection H as -> _. exact E.
Qed.

Lemma rstrip_by_app_stop (p : char -> bool) (A Y : str) (c : char) :
  p c = false -> rstrip_by p (A ++ c :: Y) = A ++ c :: rstrip_by p Y.
Proof.
  intros Hc. unfold rstrip_by.
  rewrite rev_app_distr. simpl. rewrite <- app_assoc. simpl.
  rewrite dropwhile_app_stop by exact Hc.
  rewrite rev_app_distr. simpl. rewrite rev_involutive.
  rewrite <- app_assoc. reflexivity.
Qed.

Lemma rstrip_by_all (p : char -> bool) (Y : str) :
  forallb p Y = true -> rstrip_by p Y = [].
Proof.
  intros H. unfold rstrip_by. rewrite dropwhile_all; [reflexivity|].
  apply forallb_forall. intros x Hx. apply in_rev in Hx.
  rewrite forallb_forall in H. auto.
Qed.

Lemma rstrip_by_In (p : char -> bool) (Y : str) (c : char) :
  In c (rstrip_by p Y) -> In c Y.
Proof.
  unfold rstrip_by. intros H. apply in_rev in H.
  apply dropwhile_In in H. now apply in_rev.
Qed.

Lemma rstrip_by_idem (p : char -> bool) (Y : str) :
  rstrip_by p (rstrip_by p Y) = rstrip_by p Y.
Proof.
  unfold rstrip_by. rewrite rev_involutive. now rewrite dropwhile_idem.
Qed.

(** Stripping stops at the first and at the last character that is kept. *)
Lemma strip_by_core (p : char -> bool) (X M Y : str) (a b : char) :
  p a = false -> p b = false ->
  strip_by p (X ++ a :: M ++ b :: Y)
  = dropwhile p X ++ a :: M ++ b :: rstrip_by p Y.
Proof.
  intros Ha Hb. unfold strip_by, lstrip_by.
  rewrite dropwhile_app_stop by exact Ha.
  change (dropwhile p X ++ a :: M ++ b :: Y)
    with (dropwhile p X ++ (a :: M) ++ b :: Y).
  rewrite app_assoc. rewrite rstrip_by_app_stop by exact Hb.
  rewrite <- app_assoc. reflexivity.
Qed.

Lemma strip_by_idem (p : char -> bool) (s : str) :
  strip_by p (strip_by p s) = strip_by p s.
Proof.
  unfold strip_by, lstrip_by.
  destruct (dropwhile p s) as [|a t] eqn:E; [reflexivity|].
  pose proof (dropwhile_head _ _ _ _ E) as Ha.
  change (a :: t) with ([] ++ a :: t).
  rewrite rstrip_by_app_stop by exact Ha. simpl. rewrite Ha.
  change (a :: rstrip_by p t) with ([] ++ a :: rstrip_by p t).
  rewrite rstrip_by_app_stop by exact Ha. now rewrite rstrip_by_idem.
Qed.

Lemma strip_idem (s : str) : strip (strip s) = strip s.
Proof. apply strip_by_idem. Qed.

Lemma dropwhile_split (p : char -> bool) (s : str) :
  exists pre, s = pre ++ dropwhile p s /\ forallb p pre = true.
Proof.
  induction s as [|c s (pre & E & Hp)]; simpl.
  - now exists [].
  - destruct (p c) eqn:Hc.
    + exists (c :: pre). simpl. rewrite Hc. split; [now f_equal | exact Hp].
    + now exists [].
Qed.

Lemma dropwhile_nil (p : char -> bool) (s : str) :
  dropwhile p s = [] -> forallb p s = true.
Proof.
  induction s as [|c s IH]; simpl; [reflexivity|].
  destruct (p c); [exact IH | discriminate].
Qed.

Lemma dropwhile_keeps (p : char -> bool) (s : str) (c : char) :
  In c s -> p c = false -> In c (dropwhile p s).
Proof.
  induction s as [|x s IH]; simpl; [tauto|].
  intros [->|H] Hc.
  - rewrite Hc. now left.
  - destruct (p x); [auto | now right].
Qed.

Lemma strip_by_In (p : char -> bool) (s : str) (c : char) :
  In c (strip_by p s) -> In c s.
Proof.
  unfold strip_by, lstrip_by. intros H.
  now apply rstrip_by_In, dropwhile_In in H.
Qed.

Lemma strip_by_head (p : char -> bool) (s t : str) (c : char) :
  strip_by p s = c :: t -> p c = false.
Proof.
  unfold strip_by, lstrip_by.
  destruct (dropwhile p s) as [|a u] eqn:E; [discriminate|].
  pose proof (dropwhile_head _ _ _ _ E) as Ha.
  change (a :: u) with ([] ++ a :: u).
  rewrite rstrip_by_app_stop by exact Ha. simpl.
  intros H. injection H as <- _. exact Ha.
Qed.

Lemma find_app_first (c : char) (X B : str) :
  ~ In c X -> find c (X ++ c :: B) = Some (length X).
Proof.
  induction X as [|x X IH]; simpl; intros H.
  - now rewrite N.eqb_refl.
  - destruct (N.eqb_spec x c) as [->|_]; [tauto|].
    rewrite IH by tauto. reflexivity.
Qed.

Lemma find_none (c : char) (X : str) : ~ In c X -> find c X = None.
Proof.
  induction X as [|x X IH]; simpl; intros H; [reflexivity|].
  destruct (N.eqb_spec x c) as [->|_]; [tauto|].
  rewrite IH by tauto. reflexivity.
Qed.

Lemma rfind_app_last (c : char) (A Y : str) :
  ~ In c Y -> rfind c (A ++ c :: Y) = Some (length A).
Proof.
  intros H. unfold rfind.
  rewrite rev_app_distr. simpl. rewrite <- app_assoc. simpl.
  rewrite find_app_first by (rewrite <- in_rev; exact H).
  f_equal. rewrite length_rev, length_app. simpl. lia.
Qed.

Lemma slice_middle (X M Y : str) :
  slice (length X) (length X + length M) (X ++ M ++ Y) = M.
Proof.
  unfold slice.
  replace (length X + length M - length X)%nat with (length M) by lia.
  rewrite skipn_app, Nat.sub_diag, skipn_all. simpl.
  rewrite firstn_app, Nat.sub_diag, firstn_all. simpl.
  now rewrite app_nil_r.
Qed.

End PyStrFacts.

(** * Properties of [split] and [join] *)

Module SplitFacts.
Import PyStr Spec.

Lemma split_aux_spaces (ws s : str) :
  all_space ws = true -> split_aux [] (ws ++ s) = split_aux [] s.
Proof.
  induction ws as [|c ws IH]; simpl; [reflexivity|].
  intros H. apply andb_true_iff in H as [Hc Hws].
  rewrite Hc. auto.
Qed.

Lemma split_aux_all_space (ws : str) :
  all_space ws = true -> split_aux [] ws = [].
Proof.
  intros H. rewrite <- (app_nil_r ws). now rewrite split_aux_spaces.
Qed.

(** Reading a word: the characters are pushed on [cur] until the word
    ends. *)
Lemma split_aux_word (w : str) : forall (cur rest : str),
  no_space w = true -> word_end rest -> rev cur ++ w <> [] ->
  split_aux cur (w ++ rest) = (rev cur ++ w) :: split_aux [] rest.
Proof.
  induction w as [|c w IH]; intros cur rest Hw Hrest Hne.
  - rewrite app_nil_r in *. simpl.
    destruct cur as [|x cur]; [now elim Hne|].
    destruct rest as [|d rest]; simpl; [reflexivity|].
    simpl in Hrest. now rewrite Hrest.
  - simpl in Hw. apply andb_true_iff in Hw as [Hc Hw].
    apply negb_true_iff in Hc. simpl. rewrite Hc.
    rewrite IH; auto.
    + simpl. now rewrite <- app_assoc.
    + simpl. rewrite <- app_assoc. simpl. now destruct (rev cur).
Qed.

(** The tokenization of a text is unique, and [split] computes it. *)
Lemma Tokenization_split (s : str) (words : list str) :
  Tokenization s words -> split s = words.
Proof.
  unfold split. induction 1 as [ws Hws | ws w rest words Hws Hne Hw Hend _ IH].
  - now apply split_aux_all_space.
  - rewrite split_aux_spaces by exact Hws.
    rewrite (split_aux_word w [] rest) by auto.
    simpl. now rewrite IH.
Qed.

Lemma Tokenization_space (c : char) (s : str) (words : list str) :
  isspace c = true -> Tokenization s words -> Tokenization (c :: s) words.
Proof.
  intros Hc H. destruct H as [ws Hws | ws w rest words Hws Hne Hw Hend Hrest].
  - apply tok_done. simpl. now rewrite Hc.
  - change (c :: ws ++ w ++ rest) with ((c :: ws) ++ w ++ rest).
    apply tok_word; auto. simpl. now rewrite Hc.
Qed.

Lemma no_space_rev (w : str) : no_space w = true -> no_space (rev w) = true.
Proof.
  unfold no_space. rewrite !forallb_forall.
  intros H x Hx. apply H. now apply in_rev.
Qed.

Lemma rev_cons_nonempty (x : char) (cur : str) : rev (x :: cur) <> [].
Proof.
  intros E. apply (f_equal (@length _)) in E.
  rewrite length_rev in E. discriminate.
Qed.

Lemma Tokenization_last_word (w : str) :
  w <> [] -> no_space w = true -> Tokenization w [w].
Proof.
  intros Hne Hw.
  pose proof (tok_word [] w [] [] eq_refl Hne Hw I (tok_done [] eq_refl)) as H.
  simpl in H. now rewrite app_nil_r in H.
Qed.

Lemma split_aux_Tokenization (s : str) : forall cur : str,
  no_space cur = true ->
  Tokenization (rev cur ++ s) (split_aux cur s).
Proof.
  induction s as [|c s IH]; intros cur Hcur.
  - rewrite app_nil_r. simpl. destruct cur as [|x cur].
    + now apply tok_done.
    + apply Tokenization_last_word.
      * apply rev_cons_nonempty.
      * now apply (no_space_rev (x :: cur)).
  - simpl. destruct (isspace c) eqn:Hc.
    + destruct cur as [|x cur].
      * simpl. apply Tokenization_space; auto. apply (IH []). reflexivity.
      * apply (tok_word [] (rev (x :: cur)) (c :: s)); simpl; auto.
        -- apply (rev_cons_nonempty x cur).
        -- now apply (no_space_rev (x :: cur)).
        -- apply Tokenization_space; auto. apply (IH []). reflexivity.
    + replace (rev cur ++ c :: s) with (rev (c :: cur) ++ s)
        by (simpl; now rewrite <- app_assoc).
      apply IH. simpl. now rewrite Hc.
Qed.

Lemma split_Tokenization (s : str) : Tokenization s (split s).
Proof. apply (split_aux_Tokenization s []). reflexivity. Qed.

Lemma Tokenization_words (s : str) (words : list str) :
  Tokenization s words ->
  Forall (fun w => w <> [] /\ no_space w = true) words.
Proof. induction 1; constructor; auto. Qed.

(** ** Joining the words back *)

Lemma split_aux_nonempty (c : char) (t cur : str) :
  isspace c = false -> split_aux cur (c :: t) <> [].
Proof.
  intros Hc. simpl. rewrite Hc. revert c cur Hc.
  induction t as [|d t IH]; intros c cur Hc; simpl.
  - discriminate.
  - destruct (isspace d) eqn:Hd; [discriminate|]. now apply IH.
Qed.

Lemma join_cons (sep w : str) (ws : list str) :
  ws <> [] -> join sep (w :: ws) = w ++ sep ++ join sep ws.
Proof. destruct ws; [now intros H; elim H | reflexivity]. Qed.

Lemma join_split_aux (s : str) : forall cur : str,
  single_spaced s = true ->
  (cur = [] -> starts_in_word s) ->
  join [SPACE] (split_aux cur s) = rev cur ++ s.
Proof.
  induction s as [|c s IH]; intros cur Hs Hcur.
  - simpl. rewrite app_nil_r. now destruct cur.
  - simpl in Hs. apply andb_true_iff in Hs as [Hc Hs]. simpl.
    destruct (isspace c) eqn:Ec.
    + apply andb_true_iff in Hc as [Hc32 Hnext].
      apply N.eqb_eq in Hc32. subst c.
      destruct s as [|d s]; [discriminate|].
      apply negb_true_iff in Hnext.
      destruct cur as [|x cur].
      * specialize (Hcur eq_refl). simpl in Hcur. congruence.
      * rewrite join_cons by (now apply split_aux_nonempty).
        rewrite (IH []); auto.
    + rewrite (IH (c :: cur)); auto.
      * simpl. now rewrite <- app_assoc.
      * discriminate.
Qed.

Lemma join_split (s : str) :
  single_spaced s = true -> starts_in_word s ->
  join [SPACE] (split s) = s.
Proof.
  intros Hs H0. unfold split. now rewrite join_split_aux.
Qed.

Lemma single_spaced_word (w r : str) :
  no_space w = true -> single_spaced (w ++ r) = single_spaced r.
Proof.
  induction w as [|c w IH]; [reflexivity|]. simpl.
  intros H. apply andb_true_iff in H as [Hc Hw].
  apply negb_true_iff in Hc. rewrite Hc. simpl. auto.
Qed.

Lemma join_head (sep : str) (c : char) (w : str) (ws : list str) :
  exists t, join sep ((c :: w) :: ws) = c :: t.
Proof. destruct ws; simpl; eauto. Qed.

(** Words joined with single spaces are single-spaced. *)
Lemma single_spaced_join (words : list str) :
  Forall (fun w => w <> [] /\ no_space w = true) words ->
  single_spaced (join [SPACE] words) = true.
Proof.
  induction 1 as [|w ws [Hne Hw] Hws IH]; [reflexivity|].
  destruct ws as [|w2 ws].
  - simpl. rewrite <- (app_nil_r w). now rewrite single_spaced_word.
  - rewrite join_cons by discriminate.
    rewrite single_spaced_word by exact Hw.
    inversion Hws as [|? ? [Hne2 Hw2] _]; subst.
    destruct w2 as [|d w2]; [now elim Hne2|].
    destruct (join_head [SPACE] d w2 ws) as [t E].
    rewrite E in IH |- *.
    simpl in Hw2. apply andb_true_iff in Hw2 as [Hd _].
    change (single_spaced ([SPACE] ++ d :: t))
      with ((if isspace SPACE then (SPACE =? SPACE) && negb (isspace d)
             else true) && single_spaced (d :: t)).
    rewrite Hd. exact IH.
Qed.

(** The words of a text joined with single spaces give the text back
    exactly when the text is single-spaced and starts in a word. *)
Lemma join_split_iff (s : str) :
  starts_in_word s ->
  (join [SPACE] (split s) = s <-> single_spaced s = true).
Proof.
  intros H0. split.
  - intros E. rewrite <- E. apply single_spaced_join.
    apply (Tokenization_words s), split_Tokenization.
  - intros Hs. now apply join_split.
Qed.

End SplitFacts.

(** * Properties of the JSON scanner *)

Module JsonFacts.
Import PyStr Json Spec PyStrFacts.

Lemma suffix_refl (s : str) : Suffix s s.
Proof. now exists []. Qed.

Lemma suffix_cons (c : char) (r s : str) : Suffix r s -> Suffix r (c :: s).
Proof. intros [pre ->]. now exists (c :: pre). Qed.

Lemma suffix_trans (r t s : str) : Suffix r t -> Suffix t s -> Suffix r s.
Proof.
  intros [p1 ->] [p2 ->]. exists (p2 ++ p1). now rewrite app_assoc.
Qed.

Lemma suffix_length (r s : str) : Suffix r s -> (length r <= length s)%nat.
Proof. intros [pre ->]. rewrite length_app. lia. Qed.

Lemma suffix_dropwhile (p : char -> bool) (s : str) : Suffix (dropwhile p s) s.
Proof.
  induction s as [|c s IH]; simpl; [apply suffix_refl|].
  destruct (p c); [now apply suffix_cons | apply suffix_refl].
Qed.

Lemma suffix_skip_ws (s : str) : Suffix (skip_ws s) s.
Proof. apply suffix_dropwhile. Qed.

Lemma suffix_skipn (n : nat) (s : str) : Suffix (skipn n s) s.
Proof. exists (firstn n s). symmetry. apply firstn_skipn. Qed.

Lemma closes_here (r : str) : Closes r (RBRACE :: r).
Proof. now exists []. Qed.

Lemma closes_suffix (r t s : str) : Closes r t -> Suffix t s -> Closes r s.
Proof.
  intros [body ->] [pre ->]. exists (pre ++ body). now rewrite <- app_assoc.
Qed.

Lemma closes_is_suffix (r s : str) : Closes r s -> Suffix r s.
Proof.
  intros [body ->]. exists (body ++ [RBRACE]). now rewrite <- app_assoc.
Qed.

Lemma closes_length (r s : str) : Closes r s -> (length r < length s)%nat.
Proof. intros [body ->]. rewrite length_app. simpl. lia. Qed.

Create HintDb suffix.
#[local] Hint Resolve suffix_refl suffix_cons suffix_skip_ws : suffix.

Ltac suffix_steps := solve [repeat (apply suffix_refl || apply suffix_cons)].

Ltac break_match_in H :=
  match type of H with
  | context [match ?x with _ => _ end] => destruct x eqn:?
  end.

(** [scanstring] returns what follows the closing quote. *)
Lemma scanstring_suffix (n : nat) : forall (s acc v r : str),
  (length s <= n)%nat ->
  scanstring acc s = inr (v, r) -> Suffix r s.
Proof.
  induction n as [|n IH]; intros s acc v r Hlen H.
  - destruct s; [discriminate | simpl in Hlen; lia].
  - destruct s as [|c t]; [discriminate|].
    simpl in H, Hlen.
    repeat (break_match_in H; try discriminate);
      try (injection H as <- <-; auto with suffix);
      subst;
      (eapply suffix_trans;
       [ eapply IH; [|eassumption]; simpl in *; lia
       | solve [repeat (apply suffix_refl || apply suffix_cons)] ]).
Qed.

(** ** Numbers and named constants read no brace *)

Lemma digit_not_brace (c : char) : is_digit c = true -> c <> LBRACE.
Proof. intros H ->. discriminate. Qed.

Lemma eqb_not_brace (c d : char) :
  (c =? d) = true -> d <> LBRACE -> c <> LBRACE.
Proof. intros H. apply N.eqb_eq in H. now subst. Qed.

Lemma span_digits_spec (s : str) : forall ds r,
  span_digits s = (ds, r) -> s = ds ++ r /\ braceless ds.
Proof.
  induction s as [|c s IH]; simpl; intros ds r H.
  - injection H as <- <-. split; [reflexivity | constructor].
  - destruct (is_digit c) eqn:Hc.
    + destruct (span_digits s) as [ds' r'].
      injection H as <- <-. destruct (IH ds' r' eq_refl) as [-> Hb].
      split; [reflexivity|]. constructor; [now apply digit_not_brace | exact Hb].
    + injection H as <- <-. split; [reflexivity | constructor].
Qed.

Lemma scan_sign_spec (s sg r : str) :
  scan_sign s = (sg, r) -> s = sg ++ r /\ braceless sg.
Proof.
  unfold scan_sign. destruct s as [|c t].
  - intros H. injection H as <- <-. split; [reflexivity | constructor].
  - destruct (c =? MINUS) eqn:Hc; intros H; injection H as <- <-.
    + split; [reflexivity|]. constructor; [|constructor].
      apply (eqb_not_brace _ _ Hc). discriminate.
    + split; [reflexivity | constructor].
Qed.

Lemma scan_int_spec (s ip r : str) :
  scan_int s = Some (ip, r) -> s = ip ++ r /\ braceless ip /\ ip <> [].
Proof.
  unfold scan_int. destruct s as [|c t]; [discriminate|].
  destruct (c =? ZERO) eqn:Hz.
  - intros H. injection H as <- <-. repeat split; [|discriminate].
    constructor; [|constructor]. apply (eqb_not_brace _ _ Hz). discriminate.
  - destruct (is_digit c) eqn:Hd; [|discriminate].
    destruct (span_digits t) as [ds r'] eqn:Hs. intros H. injection H as <- <-.
    apply span_digits_spec in Hs as [-> Hb].
    repeat split; [|discriminate].
    constructor; [now apply digit_not_brace | exact Hb].
Qed.

Lemma scan_frac_spec (s fr r : str) :
  scan_frac s = (fr, r) -> s = fr ++ r /\ braceless fr.
Proof.
  unfold scan_frac.
  destruct s as [|p [|d t]];
    try (intros H; injection H as <- <-; split; [reflexivity | constructor]).
  destruct ((p =? DOT) && is_digit d) eqn:Hc.
  - apply andb_true_iff in Hc as [Hp Hd].
    destruct (span_digits t) as [ds r'] eqn:Hs. intros H. injection H as <- <-.
    apply span_digits_spec in Hs as [-> Hb]. split; [reflexivity|].
    constructor; [apply (eqb_not_brace _ _ Hp); discriminate|].
    constructor; [now apply digit_not_brace | exact Hb].
  - intros H; injection H as <- <-; split; [reflexivity | constructor].
Qed.

Lemma scan_exp_spec (s ex r : str) :
  scan_exp s = (ex, r) -> s = ex ++ r /\ braceless ex.
Proof.
  unfold scan_exp.
  destruct s as [|e t];
    try (intros H; injection H as <- <-; split; [reflexivity | constructor]).
  destruct ((e =? 101) || (e =? 69)) eqn:He;
    [| intros H; injection H as <- <-; split; [reflexivity | constructor] ].
  assert (Hebr : e <> LBRACE).
  { apply orb_true_iff in He as [He|He];
      apply (eqb_not_brace _ _ He); discriminate. }
  assert (Hsg : forall sg t', 
            match t with
            | x :: y => if (x =? MINUS) || (x =? PLUS) then ([x], y) else ([], t)
            | [] => ([], t)
            end = (sg, t') -> t = sg ++ t' /\ braceless sg).
  { intros sg t'. destruct t as [|x y].
    - intros H; injection H as <- <-; split; [reflexivity | constructor].
    - destruct ((x =? MINUS) || (x =? PLUS)) eqn:Hx;
        intros H; injection H as <- <-; (split; [reflexivity|]);
        [|constructor].
      constructor; [|constructor].
      apply orb_true_iff in Hx as [Hx|Hx];
        apply (eqb_not_brace _ _ Hx); discriminate. }
  destruct (match t with
            | x :: y => if (x =? MINUS) || (x =? PLUS) then ([x], y) else ([], t)
            | [] => ([], t)
            end) as [sg t'].
  destruct (Hsg sg t' eq_refl) as [-> Hb].
  destruct (span_digits t') as [ds r'] eqn:Hs.
  apply span_digits_spec in Hs as [-> Hd].
  destruct ds as [|d ds]; intros H; injection H as <- <-.
  - split; [reflexivity | constructor].
  - split; [simpl; now rewrite <- app_assoc|].
    constructor; [exact Hebr|]. apply Forall_app. now split.
Qed.

Lemma match_number_spec (s r : str) (v : JSON) :
  match_number s = inr (v, r) ->
  exists pre, s = pre ++ r /\ pre <> [] /\ braceless pre /\ scalar v.
Proof.
  unfold match_number.
  destruct (scan_sign s) as [sg s1] eqn:H1.
  apply scan_sign_spec in H1 as [-> Bsg].
  destruct (scan_int s1) as [[ip r1]|] eqn:H2; [|discriminate].
  apply scan_int_spec in H2 as (-> & Bip & Nip).
  destruct (scan_frac r1) as [fr r2] eqn:H3.
  apply scan_frac_spec in H3 as [-> Bfr].
  destruct (scan_exp r2) as [ex r3] eqn:H4.
  apply scan_exp_spec in H4 as [-> Bex].
  intros H. exists (sg ++ ip ++ fr ++ ex).
  assert (r = r3 /\ scalar v) as [-> Hv].
  { destruct fr, ex; try (injection H as <- <-; now split).
    destruct (max_str_digits <? length ip)%nat; [discriminate|].
    injection H as <- <-. now split. }
  repeat split; auto.
  - now rewrite <- !app_assoc.
  - intros E. apply app_eq_nil in E as [_ E]. apply app_eq_nil in E as [E _].
    now apply Nip.
  - repeat (apply Forall_app; split); auto.
Qed.

Lemma startswith_split (p s : str) :
  startswith p s = true -> s = p ++ skipn (length p) s.
Proof.
  revert s. induction p as [|a p IH]; intros s H; [reflexivity|].
  destruct s as [|b t]; [discriminate|]. simpl in H.
  apply andb_true_iff in H as [Hab H]. apply N.eqb_eq in Hab. subst b.
  simpl. now rewrite <- IH.
Qed.

Lemma scan_scalar_spec (s r : str) (v : JSON) :
  scan_scalar s = inr (v, r) ->
  exists pre, s = pre ++ r /\ pre <> [] /\ braceless pre /\ scalar v.
Proof.
  unfold scan_scalar.
  repeat match goal with
  | |- context [if startswith ?p s then _ else _] =>
      destruct (startswith p s) eqn:?;
      [ intros H; injection H as <- <-; exists p;
        repeat split;
        [ now apply startswith_split | discriminate
        | repeat constructor; discriminate ] |]
  end.
  apply match_number_spec.
Qed.

(** ** The recursive scanner *)

Lemma skip_ws_cons_suffix (c : char) (t s : str) :
  skip_ws s = c :: t -> Suffix t s.
Proof.
  intros H. apply suffix_trans with (c :: t).
  - apply suffix_cons, suffix_refl.
  - rewrite <- H. apply suffix_skip_ws.
Qed.

Lemma lift_ok {A} (x : DecodeError + A) (a : A) : lift x = Ok a -> x = inr a.
Proof. destruct x; simpl; congruence. Qed.

Lemma scan_once_step (n : nat) :
  parse_members_shape n -> parse_items_shape n -> scan_once_shape (S n).
Proof.
  intros IHm IHi s v r H. destruct s as [|c t]; [discriminate|].
  simpl in H.
  destruct (c =? QUOTE) eqn:Eq.
  { destruct (scanstring [] t) as [e|[x r']] eqn:Hs; [discriminate|].
    injection H as <- <-.
    apply (scanstring_suffix _ _ _ _ _ (le_n _)) in Hs.
    repeat split; [now apply suffix_cons | | discriminate].
    apply suffix_length in Hs. simpl. lia. }
  destruct (c =? LBRACE) eqn:Eb.
  { apply N.eqb_eq in Eb. subst c.
    assert (Hc : Closes r t).
    { apply closes_suffix with (skip_ws t); [|apply suffix_skip_ws].
      destruct (skip_ws t) as [|d r0] eqn:Hw.
      - exact (IHm _ _ _ _ H).
      - destruct (d =? RBRACE) eqn:Ed.
        + apply N.eqb_eq in Ed. subst d. injection H as <- <-.
          apply closes_here.
        + exact (IHm _ _ _ _ H). }
    repeat split.
    - now apply suffix_cons, closes_is_suffix.
    - apply closes_length in Hc. simpl. lia.
    - intros _ _. destruct Hc as [body ->]. now exists body. }
  destruct (c =? LBRACKET) eqn:Ek.
  { assert (Hi : Suffix r t /\ exists l, v = JArray l).
    { destruct (skip_ws t) as [|d r0] eqn:Hw.
      - destruct (IHi _ _ _ _ H) as (Hs & _ & Hv). split; [|exact Hv].
        eapply suffix_trans; [exact Hs|]. rewrite <- Hw. apply suffix_skip_ws.
      - destruct (d =? RBRACKET) eqn:Ed.
        + injection H as <- <-. split; [|now exists []].
          now apply skip_ws_cons_suffix with d.
        + destruct (IHi _ _ _ _ H) as (Hs & _ & Hv). split; [|exact Hv].
          eapply suffix_trans; [exact Hs|]. rewrite <- Hw.
          apply suffix_skip_ws. }
    destruct Hi as [Hs [l ->]]. repeat split.
    - now apply suffix_cons.
    - apply suffix_length in Hs. simpl. lia.
    - discriminate. }
  apply lift_ok in H. apply scan_scalar_spec in H.
  destruct H as (pre & E & Hne & _ & Hv). repeat split.
  - now exists pre.
  - rewrite E, length_app. destruct pre; [now elim Hne | simpl; lia].
  - intros o ->. elim Hv.
Qed.

Lemma parse_members_step (n : nat) :
  scan_once_shape n -> parse_members_shape n -> parse_members_shape (S n).
Proof.
  intros IHo IHm s acc v r H. destruct s as [|c t]; [discriminate|].
  simpl in H.
  destruct (c =? QUOTE); [|discriminate].
  destruct (scanstring [] t) as [e|[key r1]] eqn:Hs; [discriminate|].
  apply (scanstring_suffix _ _ _ _ _ (le_n _)) in Hs.
  destruct (skip_ws r1) as [|c2 r2] eqn:H1; [discriminate|].
  apply skip_ws_cons_suffix in H1.
  destruct (c2 =? COLON); [|discriminate].
  destruct (scan_once n (skip_ws r2)) as [[v' r3]|e|] eqn:Hv;
    try discriminate.
  apply IHo in Hv. destruct Hv as (Hv & _ & _).
  assert (Hr3 : Suffix r3 (c :: t)).
  { apply suffix_cons.
    repeat (eapply suffix_trans; [eassumption|]); auto with suffix.
    eapply suffix_trans; [apply suffix_skip_ws|].
    eapply suffix_trans; eassumption. }
  clear Hs H1 Hv.
  destruct (skip_ws r3) as [|c3 r4] eqn:H3; [discriminate|].
  assert (Hr4 : Suffix (c3 :: r4) (c :: t)).
  { rewrite <- H3. eapply suffix_trans; [apply suffix_skip_ws | exact Hr3]. }
  destruct (c3 =? RBRACE) eqn:E3.
  - apply N.eqb_eq in E3. subst c3. injection H as <- <-.
    eapply closes_suffix; [apply closes_here | exact Hr4].
  - destruct (c3 =? COMMA); [|discriminate].
    apply IHm in H. eapply closes_suffix; [exact H|].
    eapply suffix_trans; [apply suffix_skip_ws|].
    eapply suffix_trans; [|exact Hr4]. apply suffix_cons, suffix_refl.
Qed.

Lemma parse_items_step (n : nat) :
  scan_once_shape n -> parse_items_shape n -> parse_items_shape (S n).
Proof.
  intros IHo IHi s acc v r H. simpl in H.
  destruct (scan_once n s) as [[v' r1]|e|] eqn:Hv; try discriminate.
  apply IHo in Hv. destruct Hv as (Hs1 & Hl1 & _).
  destruct (skip_ws r1) as [|c r2] eqn:H1; [discriminate|].
  apply skip_ws_cons_suffix in H1.
  assert (Hr2 : Suffix r2 s) by (eapply suffix_trans; eassumption).
  assert (Hl2 : (length r2 < length s)%nat)
    by (apply suffix_length in H1; lia).
  destruct (c =? RBRACKET).
  - injection H as <- <-. repeat split; auto. now eexists.
  - destruct (c =? COMMA); [|discriminate].
    apply IHi in H. destruct H as (Hs & Hl & Hv). repeat split; auto.
    + eapply suffix_trans; [exact Hs|].
      eapply suffix_trans; [apply suffix_skip_ws | exact Hr2].
    + pose proof (suffix_length _ _ (suffix_skip_ws r2)). lia.
Qed.

Lemma scanner_shape (fuel : nat) :
  scan_once_shape fuel /\ parse_members_shape fuel /\ parse_items_shape fuel.
Proof.
  induction fuel as [|n (IHo & IHm & IHi)].
  - split; [|split]; repeat intro; discriminate.
  - split; [|split].
    + now apply scan_once_step.
    + now apply parse_members_step.
    + now apply parse_items_step.
Qed.

(** ** The fuel [loads] gives is never used up *)

Lemma skip_ws_length (s : str) : (length (skip_ws s) <= length s)%nat.
Proof. apply suffix_length, suffix_skip_ws. Qed.

Lemma fuel_enough (n : nat) :
  (forall s, (2 * length s < n)%nat -> scan_once n s <> OutOfFuel) /\
  (forall s acc, (2 * length s < n)%nat ->
     parse_members n s acc <> OutOfFuel) /\
  (forall s acc, (2 * length s + 1 < n)%nat ->
     parse_items n s acc <> OutOfFuel).
Proof.
  induction n as [|n (IHo & IHm & IHi)].
  - split; [|split]; intros; lia.
  - destruct (scanner_shape n) as (So & Sm & Si).
    split; [|split].
    + intros s Hn. destruct s as [|c t]; [discriminate|].
      simpl in Hn. pose proof (skip_ws_length t) as Hw. simpl.
      destruct (c =? QUOTE).
      { destruct (scanstring [] t) as [e|[x r']]; discriminate. }
      destruct (c =? LBRACE).
      { destruct (skip_ws t) as [|d r0] eqn:E.
        - apply IHm. simpl. lia.
        - destruct (d =? RBRACE); [discriminate|]. apply IHm. lia. }
      destruct (c =? LBRACKET).
      { destruct (skip_ws t) as [|d r0] eqn:E.
        - apply IHi. simpl. lia.
        - destruct (d =? RBRACKET); [discriminate|]. apply IHi. lia. }
      destruct (scan_scalar (c :: t)); discriminate.
    + intros s acc Hn. destruct s as [|c t]; [discriminate|].
      simpl in Hn. simpl.
      destruct (c =? QUOTE); [|discriminate].
      destruct (scanstring [] t) as [e|[key r1]] eqn:Hs; [discriminate|].
      apply (scanstring_suffix _ _ _ _ _ (le_n _)), suffix_length in Hs.
      destruct (skip_ws r1) as [|c2 r2] eqn:H1; [discriminate|].
      apply skip_ws_cons_suffix, suffix_length in H1.
      destruct (c2 =? COLON); [|discriminate].
      pose proof (skip_ws_length r2) as Hw2.
      destruct (scan_once n (skip_ws r2)) as [[v' r3]|e|] eqn:Hv;
        try discriminate.
      * apply So in Hv. destruct Hv as (_ & Hl3 & _).
        destruct (skip_ws r3) as [|c3 r4] eqn:H3; [discriminate|].
        apply skip_ws_cons_suffix, suffix_length in H3.
        destruct (c3 =? RBRACE); [discriminate|].
        destruct (c3 =? COMMA); [|discriminate].
        apply IHm. pose proof (skip_ws_length r4). lia.
      * exfalso. revert Hv. apply IHo. lia.
    + intros s acc Hn. simpl.
      destruct (scan_once n s) as [[v' r1]|e|] eqn:Hv; try discriminate.
      * apply So in Hv. destruct Hv as (_ & Hl1 & _).
        destruct (skip_ws r1) as [|c r2] eqn:H1; [discriminate|].
        apply (f_equal (@length _)) in H1. pose proof (skip_ws_length r1).
        simpl in H1.
        destruct (c =? RBRACKET); [discriminate|].
        destruct (c =? COMMA); [|discriminate].
        apply IHi. pose proof (skip_ws_length r2). lia.
      * exfalso. revert Hv. apply IHo. lia.
Qed.

Lemma loads_fuel (s : str) :
  scan_once (S (2 * length s)) (skip_ws s) <> OutOfFuel.
Proof.
  apply (fuel_enough (S (2 * length s))).
  pose proof (skip_ws_length s). lia.
Qed.

Lemma scanstring_error (n : nat) : forall (s acc : str) (e : DecodeError),
  (length s <= n)%nat ->
  scanstring acc s = inl e -> e <> RecursionError.
Proof.
  induction n as [|n IH]; intros s acc e Hlen H.
  - destruct s; [simpl in H; congruence | simpl in Hlen; lia].
  - destruct s as [|c t]; [simpl in H; congruence|].
    simpl in H, Hlen.
    repeat (break_match_in H; try discriminate);
      try (injection H as <-; discriminate);
      subst; (eapply IH; [|eassumption]; simpl in *; lia).
Qed.

Lemma match_number_error (s : str) (e : DecodeError) :
  match_number s = inl e -> e <> RecursionError.
Proof.
  unfold match_number. intros H.
  repeat (break_match_in H; try discriminate);
    injection H as <-; discriminate.
Qed.

Lemma scan_scalar_error (s : str) (e : DecodeError) :
  scan_scalar s = inl e -> e <> RecursionError.
Proof.
  unfold scan_scalar. intros H.
  repeat (break_match_in H; try discriminate).
  now apply match_number_error in H.
Qed.

Lemma scanner_error (n : nat) :
  (forall s e, scan_once n s = Err e -> e <> RecursionError) /\
  (forall s acc e, parse_members n s acc = Err e -> e <> RecursionError) /\
  (forall s acc e, parse_items n s acc = Err e -> e <> RecursionError).
Proof.
  induction n as [|n (IHo & IHm & IHi)].
  - split; [|split]; intros; discriminate.
  - split; [|split]; intros; simpl in H;
      repeat (break_match_in H; try discriminate);
      try (injection H as <-; try discriminate);
      eauto using scanstring_error, scan_scalar_error.
    unfold lift in H. break_match_in H; [|discriminate].
    injection H as <-. eauto using scan_scalar_error.
Qed.

(** [loads] is total and never reports the recursion budget of the model:
    whatever it returns comes from the scanner. *)
Lemma loads_total (s : str) : loads s <> inl RecursionError.
Proof.
  unfold loads. destruct (startswith [BOM] s); [discriminate|].
  pose proof (loads_fuel s) as Hf.
  destruct (scan_once (S (2 * length s)) (skip_ws s)) as [[v r]|e|] eqn:E.
  - destruct (skip_ws r); discriminate.
  - apply scanner_error in E. congruence.
  - now elim Hf.
Qed.

(** ** What [loads] accepts *)

Lemma is_ws_isspace (c : char) : is_ws c = true -> isspace c = true.
Proof.
  unfold is_ws. intros H.
  repeat (apply orb_true_iff in H as [H|H]);
    apply N.eqb_eq in H; subst c; reflexivity.
Qed.

Lemma all_ws_all_space (ws : str) :
  forallb is_ws ws = true -> all_space ws = true.
Proof.
  unfold all_space. rewrite !forallb_forall.
  intros H c Hc. now apply is_ws_isspace, H.
Qed.

Lemma all_ws_braceless (ws : str) :
  forallb is_ws ws = true -> ~ In LBRACE ws /\ ~ In RBRACE ws.
Proof.
  rewrite forallb_forall. intros H.
  split; intros Hin; apply H in Hin; discriminate.
Qed.

Lemma loads_ok (s : str) (v : JSON) :
  loads s = inr v ->
  exists r, scan_once (S (2 * length s)) (skip_ws s) = Ok (v, r)
            /\ skip_ws r = [].
Proof.
  unfold loads. destruct (startswith [BOM] s); [discriminate|].
  destruct (scan_once (S (2 * length s)) (skip_ws s)) as [[v' r]|e|];
    try discriminate.
  destruct (skip_ws r) eqn:E; [|discriminate].
  intros H. injection H as <-. now exists r.
Qed.

(** A text that [loads] reads as an object is an opening brace, a body and
    a closing brace, between JSON whitespace. *)
Lemma loads_object_shape (s : str) (o : list (str * JSON)) :
  loads s = inr (JObject o) ->
  exists ws1 body ws2,
    s = ws1 ++ LBRACE :: body ++ RBRACE :: ws2
    /\ forallb is_ws ws1 = true /\ forallb is_ws ws2 = true.
Proof.
  intros H. apply loads_ok in H as (r & H & Hr).
  destruct (scanner_shape (S (2 * length s))) as (So & _ & _).
  apply So in H. destruct H as (_ & _ & Ho).
  destruct (Ho o eq_refl) as [body Hb].
  destruct (dropwhile_split is_ws s) as (ws1 & E & H1).
  exists ws1, body, r. split; [|split]; auto.
  - rewrite E at 1. f_equal. exact Hb.
  - now apply dropwhile_nil.
Qed.

(** A text without an opening brace is never read as an object. *)
Lemma loads_braceless (s : str) (v : JSON) :
  ~ In LBRACE s -> loads s = inr v ->
  match v with JObject _ => False | _ => True end.
Proof.
  intros Hs H. destruct v; auto.
  apply loads_object_shape in H as (ws1 & body & ws2 & -> & _).
  apply Hs, in_or_app. right. now left.
Qed.

(** A text that starts with a character no string, object or array starts
    with, and that holds an opening brace further on, does not parse: a
    constant or a number reads no brace, and the brace is then left over. *)
Lemma loads_leading_prose (c : char) (t : str) :
  isspace c = false ->
  (c =? QUOTE) = false -> (c =? LBRACE) = false -> (c =? LBRACKET) = false ->
  In LBRACE t ->
  exists e, loads (c :: t) = inl e.
Proof.
  intros Hsp Hq Hb Hk Hin. unfold loads.
  destruct (startswith [BOM] (c :: t)); [now eexists|].
  assert (Hw : is_ws c = false).
  { destruct (is_ws c) eqn:E; [|reflexivity].
    apply is_ws_isspace in E. congruence. }
  unfold skip_ws. simpl dropwhile. rewrite Hw.
  simpl scan_once. rewrite Hq, Hb, Hk.
  destruct (scan_scalar (c :: t)) as [e|[v r]] eqn:E; simpl; [now eexists|].
  apply scan_scalar_spec in E as (pre & E & _ & Hpre & _).
  assert (Hr : In LBRACE r).
  { assert (H : In LBRACE (pre ++ r)) by (rewrite <- E; now right).
    apply in_app_or in H as [H|H]; [|exact H].
    unfold braceless in Hpre. rewrite Forall_forall in Hpre.
    now elim (Hpre _ H). }
  apply (dropwhile_keeps is_ws) in Hr; [|reflexivity].
  unfold skip_ws. destruct (dropwhile is_ws r); [destruct Hr | now eexists].
Qed.

End JsonFacts.

(** * Properties of the handlers *)

Module AppFacts.
Import PyStr Json Pydantic App Spec PyStrFacts JsonFacts.

(** What a run of [call_gemini] amounts to. *)
Lemma call_gemini_run (world : World) (prompt : Prompt) (tr : Trace) :
  call_gemini world prompt tr =
  (match generate_content world (length (calls tr)) prompt with
   | inl e => inl (uncaught e)
   | inr None => inl (error 502 NoContent)
   | inr (Some r) =>
       match candidates r with
       | [] => inl (error 502 NoContent)
       | _ :: _ =>
           match text r with
           | inl e => inl (uncaught e)
           | inr t => inr (strip t)
           end
       end
   end, called prompt tr).
Proof.
  unfold call_gemini, bind, send. simpl.
  destruct (generate_content world (length (calls tr)) prompt) as [e|[r|]];
    try reflexivity.
  destruct (candidates r); [reflexivity|].
  destruct (text r); reflexivity.
Qed.

Lemma call_gemini_content (world : World) (prompt : Prompt) (tr : Trace)
  (txt : str) :
  has_content (generate_content world (length (calls tr)) prompt) txt ->
  call_gemini world prompt tr = (inr (strip txt), called prompt tr).
Proof.
  intros (r & E & Hc & Ht). rewrite call_gemini_run, E, Ht.
  destruct (candidates r); [now elim Hc | reflexivity].
Qed.

Lemma call_gemini_no_content (world : World) (prompt : Prompt) (tr : Trace) :
  no_content (generate_content world (length (calls tr)) prompt) ->
  call_gemini world prompt tr = (inl (error 502 NoContent), called prompt tr).
Proof.
  intros [E|(r & E & Hc)]; rewrite call_gemini_run, E; [reflexivity|].
  now rewrite Hc.
Qed.

Lemma call_gemini_unreadable (world : World) (prompt : Prompt) (tr : Trace)
  (e : Exception) :
  unreadable (generate_content world (length (calls tr)) prompt) e ->
  call_gemini world prompt tr = (inl (uncaught e), called prompt tr).
Proof.
  intros (r & E & Hc & Ht). rewrite call_gemini_run, E, Ht.
  destruct (candidates r); [now elim Hc | reflexivity].
Qed.

Lemma call_gemini_client_raises (world : World) (prompt : Prompt)
  (tr : Trace) (e : Exception) :
  client_raises (generate_content world (length (calls tr)) prompt) e ->
  call_gemini world prompt tr = (inl (uncaught e), called prompt tr).
Proof. intros E. now rewrite call_gemini_run, E. Qed.

(** What a run of [generate_quiz] amounts to once the model has replied. *)
Lemma generate_quiz_content (lax : Coercion) (world : World)
  (payload : QuizIn.t) (tr : Trace) (txt : str) :
  has_content
    (generate_content world (length (calls tr)) (quiz_prompt payload)) txt ->
  generate_quiz lax world payload tr =
  match safe_json_loads (strip txt) with
  | inl e => (inl (error 502 (InvalidJSON e)), called (quiz_prompt payload) tr)
  | inr data =>
      match QuizPayload_new lax data with
      | inl e => (inl (error 422 (InvalidStructure e)),
                  called (quiz_prompt payload) tr)
      | inr quiz =>
          (inr {| QuizOut.rsvp_session_id := uuid4 world (minted tr);
                  QuizOut.preguntas := QuizPayload.preguntas quiz |},
           drawn (called (quiz_prompt payload) tr))
      end
  end.
Proof.
  intros H. unfold generate_quiz, bind.
  fold (quiz_prompt payload).
  rewrite (call_gemini_content _ _ _ _ H).
  destruct (safe_json_loads (strip txt)) as [e|data]; [reflexivity|].
  destruct (QuizPayload_new lax data); reflexivity.
Qed.

Lemma generate_quiz_no_content (lax : Coercion) (world : World)
  (payload : QuizIn.t) (tr : Trace) :
  no_content
    (generate_content world (length (calls tr)) (quiz_prompt payload)) ->
  generate_quiz lax world payload tr =
  (inl (error 502 NoContent), called (quiz_prompt payload) tr).
Proof.
  intros H. unfold generate_quiz, bind. fold (quiz_prompt payload).
  now rewrite (call_gemini_no_content _ _ _ H).
Qed.

Lemma generate_quiz_unreadable (lax : Coercion) (world : World)
  (payload : QuizIn.t) (tr : Trace) (e : Exception) :
  unreadable
    (generate_content world (length (calls tr)) (quiz_prompt payload)) e ->
  generate_quiz lax world payload tr =
  (inl (uncaught e), called (quiz_prompt payload) tr).
Proof.
  intros H. unfold generate_quiz, bind. fold (quiz_prompt payload).
  now rewrite (call_gemini_unreadable _ _ _ _ H).
Qed.

Lemma generate_quiz_client_raises (lax : Coercion) (world : World)
  (payload : QuizIn.t) (tr : Trace) (e : Exception) :
  client_raises
    (generate_content world (length (calls tr)) (quiz_prompt payload)) e ->
  generate_quiz lax world payload tr =
  (inl (uncaught e), called (quiz_prompt payload) tr).
Proof.
  intros H. unfold generate_quiz, bind. fold (quiz_prompt payload).
  now rewrite (call_gemini_client_raises _ _ _ _ H).
Qed.

Lemma generate_rsvp_content (world : World) (payload : RSVPIn.t) (tr : Trace)
  (txt : str) :
  has_content
    (generate_content world (length (calls tr)) (rsvp_prompt payload)) txt ->
  generate_rsvp world payload tr =
  (inr {| RSVPOut.id := uuid4 world (minted tr);
          RSVPOut.texto := strip txt;
          RSVPOut.palabras := split (strip txt) |},
   drawn (called (rsvp_prompt payload) tr)).
Proof.
  intros H. unfold generate_rsvp, bind. fold (rsvp_prompt payload).
  now rewrite (call_gemini_content _ _ _ _ H).
Qed.

(** A model that answers with a text has content, with that text. *)
Lemma replying_content (txt : str) (ids : nat -> str) (n : nat)
  (prompt : Prompt) :
  has_content (generate_content (replying txt ids) n prompt) txt.
Proof.
  exists {| candidates := [txt]; text := inr txt |}.
  split; [reflexivity|]. split; [discriminate | reflexivity].
Qed.

(** The upstream call ends in one of four ways. *)
Lemma reply_cases (reply : Exception + option Response) :
  no_content reply
  \/ (exists txt, has_content reply txt)
  \/ (exists e, unreadable reply e)
  \/ (exists e, client_raises reply e).
Proof.
  destruct reply as [e|[r|]].
  - right. right. right. now exists e.
  - destruct (candidates r) eqn:E.
    + left. right. now exists r.
    + assert (Hc : candidates r <> []) by (rewrite E; discriminate).
      destruct (text r) as [e|t] eqn:Ht.
      * right. right. left. exists e, r. auto.
      * right. left. exists t, r. auto.
  - now left; left.
Qed.

(** A successful run of [generate_rsvp] had a reply with content. *)
Lemma generate_rsvp_ok (world : World) (payload : RSVPIn.t) (tr tr' : Trace)
  (out : RSVPOut.t) :
  generate_rsvp world payload tr = (inr out, tr') ->
  exists txt,
    has_content
      (generate_content world (length (calls tr)) (rsvp_prompt payload)) txt
    /\ RSVPOut.texto out = strip txt
    /\ RSVPOut.palabras out = split (strip txt).
Proof.
  intros H.
  destruct (reply_cases
              (generate_content world (length (calls tr))
                 (rsvp_prompt payload)))
    as [Hn|[(txt & Hc)|[(e & Hu)|(e & Hr)]]].
  - unfold generate_rsvp, bind in H. fold (rsvp_prompt payload) in H.
    now rewrite (call_gemini_no_content _ _ _ Hn) in H.
  - rewrite (generate_rsvp_content _ _ _ _ Hc) in H.
    injection H as <- _. exists txt. auto.
  - unfold generate_rsvp, bind in H. fold (rsvp_prompt payload) in H.
    now rewrite (call_gemini_unreadable _ _ _ _ Hu) in H.
  - unfold generate_rsvp, bind in H. fold (rsvp_prompt payload) in H.
    now rewrite (call_gemini_client_raises _ _ _ _ Hr) in H.
Qed.

(** [safe_json_loads] strips its argument first, so stripping it beforehand
    changes nothing. *)
Lemma safe_json_loads_strip (s : str) :
  safe_json_loads (strip s) = safe_json_loads s.
Proof. unfold safe_json_loads. now rewrite strip_idem. Qed.

Lemma QuizIn_bounds (lax : Coercion) (body : JSON) (payload : QuizIn.t) :
  QuizIn.validate lax body = Some payload ->
  (3 <= QuizIn.num_preguntas payload <= 12)%Z.
Proof.
  intros Hv. unfold QuizIn.validate in Hv. destruct body; try discriminate.
  destruct (required _ _ _); [|discriminate].
  unfold with_default, bounded_int in Hv.
  destruct (dict_get (lit "num_preguntas") members) as [v|].
  - destruct (validate_int lax v) as [z|]; [|discriminate].
    destruct ((3 <=? z)%Z && (z <=? 12)%Z) eqn:Hb; [|discriminate].
    injection Hv as <-. simpl. lia.
  - injection Hv as <-. simpl. lia.
Qed.

(** C1: for every quiz request that passes validation (so with an in-bounds
    question count), [generate_quiz] ends as the claim says when the model
    gives no response or no candidate (502), a text that does not parse as
    JSON after fence-stripping (502 with the parse failure in the message),
    a text that parses but is no valid quiz (422), or a valid quiz (a
    [QuizOut] with the identifier drawn for this request).  It does not when
    the response has a candidate without readable text: [call_gemini] reads
    [resp.text] outside any [try], the exception leaves the handler and the
    request is answered 500, not 502.  The same holds for an exception of
    the client itself.  These cases are all there are. *)
Theorem C1_quiz_outcomes (lax : Coercion) (world : World) (body : JSON)
  (payload : QuizIn.t) (tr : Trace) :
  QuizIn.validate lax body = Some payload ->
  let reply :=
    generate_content world (length (calls tr)) (quiz_prompt payload) in
  let sent := called (quiz_prompt payload) tr in
  let outcome := generate_quiz lax world payload tr in
  (3 <= QuizIn.num_preguntas payload <= 12)%Z
  /\ (no_content reply
      \/ (exists txt, has_content reply txt)
      \/ (exists e, unreadable reply e)
      \/ (exists e, client_raises reply e))
  /\ (no_content reply -> outcome = (inl (error 502 NoContent), sent))
  /\ (forall e,
        unreadable reply e ->
        outcome = (inl (error 500 (InternalServerError e)), sent)
        /\ outcome <> (inl (error 502 NoContent), sent))
  /\ (forall e,
        client_raises reply e ->
        outcome = (inl (error 500 (InternalServerError e)), sent))
  /\ (forall txt e,
        has_content reply txt ->
        safe_json_loads txt = inl e ->
        outcome = (inl (error 502 (InvalidJSON e)), sent))
  /\ (forall txt data e,
        has_content reply txt ->
        safe_json_loads txt = inr data ->
        QuizPayload_new lax data = inl e ->
        outcome = (inl (error 422 (InvalidStructure e)), sent))
  /\ (forall txt data quiz,
        has_content reply txt ->
        safe_json_loads txt = inr data ->
        QuizPayload_new lax data = inr quiz ->
        outcome =
        (inr {| QuizOut.rsvp_session_id := uuid4 world (minted tr);
                QuizOut.preguntas := QuizPayload.preguntas quiz |},
         drawn sent)).
Proof.
  intros Hv reply sent outcome.
  split; [now apply (QuizIn_bounds lax body)|].
  split; [apply reply_cases|].
  unfold outcome. split; [|split; [|split; [|split; [|split]]]].
  - intros H. now apply generate_quiz_no_content.
  - intros e H. rewrite (generate_quiz_unreadable _ _ _ _ _ H).
    split; [reflexivity | discriminate].
  - intros e H. now apply generate_quiz_client_raises.
  - intros txt e H Hj. rewrite (generate_quiz_content _ _ _ _ _ H).
    now rewrite safe_json_loads_strip, Hj.
  - intros txt data e H Hj Hq. rewrite (generate_quiz_content _ _ _ _ _ H).
    now rewrite safe_json_loads_strip, Hj, Hq.
  - intros txt data quiz H Hj Hq. rewrite (generate_quiz_content _ _ _ _ _ H).
    now rewrite safe_json_loads_strip, Hj, Hq.
Qed.

Lemma C1_quiz_outcomes_witness :
  QuizIn.validate strict Examples.quiz_body = Some Examples.quiz_payload
  /\ generate_quiz strict (blocked Examples.ids) Examples.quiz_payload start
     = (inl (error 500 (InternalServerError ValueError)),
        called (quiz_prompt Examples.quiz_payload) start)
  /\ generate_quiz strict (blocked Examples.ids) Examples.quiz_payload start
     <> (inl (error 502 NoContent),
         called (quiz_prompt Examples.quiz_payload) start).
Proof.
  split; [reflexivity|].
  destruct (C1_quiz_outcomes strict (blocked Examples.ids)
              Examples.quiz_body Examples.quiz_payload start eq_refl)
    as (_ & _ & _ & H & _).
  apply (H ValueError).
  exists {| candidates := [[]]; text := inl ValueError |}.
  split; [reflexivity|]. split; [discriminate | reflexivity].
Defined.

Example no_content_502 :
  post_api_quiz strict (silent Examples.ids) Examples.quiz_body start
  = (inl (error 502 NoContent),
     called (quiz_prompt Examples.quiz_payload) start).
Proof. reflexivity. Qed.

Example not_json_502 :
  post_api_quiz strict
    (replying (lit "No puedo ayudar con eso.") Examples.ids)
    Examples.quiz_body start
  = (inl (error 502 (InvalidJSON ExpectingValue)),
     called (quiz_prompt Examples.quiz_payload) start).
Proof. reflexivity. Qed.

Example client_failure_500 :
  post_api_quiz strict (failing Examples.ids) Examples.quiz_body start
  = (inl (error 500 (InternalServerError ClientError)),
     called (quiz_prompt Examples.quiz_payload) start).
Proof. reflexivity. Qed.

(** ** Fences *)

Lemma backtick_strip_keeps (c : char) :
  c <> BACKTICK -> existsb (N.eqb c) (lit "`") = false.
Proof.
  intros H. simpl. rewrite orb_false_r. now apply N.eqb_neq.
Qed.

(** The body of an object text, between its braces, whatever surrounds it
    stripped away. *)
Lemma safe_json_loads_object_text (ws1 body ws2 : str) :
  forallb is_ws ws1 = true -> forallb is_ws ws2 = true ->
  safe_json_loads (ws1 ++ LBRACE :: body ++ RBRACE :: ws2)
  = loads (LBRACE :: body ++ [RBRACE]).
Proof.
  intros H1 H2. unfold safe_json_loads, strip.
  rewrite strip_by_core by reflexivity.
  rewrite dropwhile_all by (now apply all_ws_all_space).
  rewrite rstrip_by_all by (now apply all_ws_all_space).
  reflexivity.
Qed.

Lemma safe_json_loads_fenced (X body Y : str) :
  ~ In LBRACE X -> ~ In RBRACE Y ->
  safe_json_loads
    (lit "```" ++ X ++ LBRACE :: body ++ RBRACE :: Y ++ lit "```")
  = loads (LBRACE :: body ++ [RBRACE]).
Proof.
  intros HX HY. unfold safe_json_loads, strip.
  pose (X1 := lit "```" ++ X). pose (Y1 := Y ++ lit "```").
  assert (E0 : lit "```" ++ X ++ LBRACE :: body ++ RBRACE :: Y ++ lit "```"
               = X1 ++ LBRACE :: body ++ RBRACE :: Y1)
    by (unfold X1, Y1; now rewrite <- app_assoc).
  rewrite E0. clear E0.
  assert (HX1 : ~ In LBRACE X1).
  { unfold X1. intros H. apply in_app_or in H as [H|H]; [|auto].
    simpl in H. intuition discriminate. }
  assert (HY1 : ~ In RBRACE Y1).
  { unfold Y1. intros H. apply in_app_or in H as [H|H]; [auto|].
    simpl in H. intuition discriminate. }
  rewrite strip_by_core by reflexivity.
  assert (E1 : dropwhile isspace X1 = X1) by reflexivity.
  assert (E2 : rstrip_by isspace Y1 = Y1).
  { unfold Y1. change (lit "```") with ([BACKTICK; BACKTICK] ++ [BACKTICK]).
    rewrite app_assoc.
    rewrite (rstrip_by_app_stop isspace _ [] BACKTICK) by reflexivity.
    reflexivity. }
  rewrite E1, E2.
  assert (Hsw : startswith (lit "```") (X1 ++ LBRACE :: body ++ RBRACE :: Y1)
                = true) by reflexivity.
  rewrite Hsw. unfold strip_chars.
  rewrite strip_by_core by reflexivity.
  set (p := fun c : char => existsb (N.eqb c) (lit "`")).
  assert (HX2 : ~ In LBRACE (dropwhile p X1))
    by (intros H; now apply dropwhile_In in H).
  assert (HY2 : ~ In RBRACE (rstrip_by p Y1))
    by (intros H; now apply rstrip_by_In in H).
  rewrite find_app_first by exact HX2.
  change (dropwhile p X1 ++ LBRACE :: body ++ RBRACE :: rstrip_by p Y1)
    with (dropwhile p X1 ++ (LBRACE :: body) ++ RBRACE :: rstrip_by p Y1).
  rewrite app_assoc. rewrite rfind_app_last by exact HY2.
  f_equal.
  rewrite <- app_assoc.
  replace (dropwhile p X1 ++ (LBRACE :: body) ++ RBRACE :: rstrip_by p Y1)
    with (dropwhile p X1 ++ (LBRACE :: body ++ [RBRACE]) ++ rstrip_by p Y1)
    by (simpl; now rewrite <- app_assoc).
  replace (length (dropwhile p X1 ++ LBRACE :: body) + 1)%nat
    with (length (dropwhile p X1) + length (LBRACE :: body ++ [RBRACE]))%nat
    by (simpl; rewrite !length_app; simpl; lia).
  apply slice_middle.
Qed.

Lemma safe_json_loads_same_strip (a b : str) :
  strip a = strip b -> safe_json_loads a = safe_json_loads b.
Proof. intros E. unfold safe_json_loads. now rewrite E. Qed.

(** Whitespace around a fenced block is trimmed away. *)
Lemma strip_around_fenced (lead label J tail trail : str) :
  all_space lead = true -> all_space trail = true ->
  strip (lead ++ fenced label J tail ++ trail) = strip (fenced label J tail).
Proof.
  intros H1 H2.
  assert (EF : fenced label J tail
               = BACKTICK
                 :: (BACKTICK :: BACKTICK :: label ++ J ++ tail
                     ++ [BACKTICK; BACKTICK])
                 ++ [BACKTICK]).
  { unfold fenced. simpl. rewrite <- !app_assoc. reflexivity. }
  rewrite EF. unfold strip.
  remember (BACKTICK :: BACKTICK :: label ++ J ++ tail
            ++ [BACKTICK; BACKTICK]) as M.
  replace (lead ++ (BACKTICK :: M ++ [BACKTICK]) ++ trail)
    with (lead ++ BACKTICK :: M ++ BACKTICK :: trail)
    by (simpl; now rewrite <- app_assoc).
  rewrite strip_by_core by reflexivity.
  rewrite dropwhile_all by exact H1. rewrite rstrip_by_all by exact H2.
  symmetry.
  apply (strip_by_core isspace [] M [] BACKTICK BACKTICK); reflexivity.
Qed.

(** C2: a text [J] that parses as a JSON object gives the same parsed
    result, and the same response of [generate_quiz], when it is sent
    inside a fenced block (three backticks and a label such as json in
    front, three backticks behind, whitespace around) as when it is sent
    bare. *)
Theorem C2_fence_stripping (lead label J tail trail : str)
  (o : list (str * JSON)) :
  loads J = inr (JObject o) ->
  ~ In LBRACE label -> ~ In RBRACE tail ->
  all_space lead = true -> all_space trail = true ->
  let wrapped := lead ++ fenced label J tail ++ trail in
  safe_json_loads wrapped = safe_json_loads J
  /\ forall lax ids payload tr,
       generate_quiz lax (replying wrapped ids) payload tr
       = generate_quiz lax (replying J ids) payload tr.
Proof.
  intros HJ Hl Ht Hlead Htrail wrapped.
  assert (E : safe_json_loads wrapped = safe_json_loads J).
  { rewrite (safe_json_loads_same_strip wrapped (fenced label J tail))
      by (now apply strip_around_fenced).
    apply loads_object_shape in HJ as (ws1 & body & ws2 & -> & H1 & H2).
    rewrite safe_json_loads_object_text by assumption.
    unfold fenced.
    replace (lit "```" ++ label
             ++ (ws1 ++ LBRACE :: body ++ RBRACE :: ws2) ++ tail ++ lit "```")
      with (lit "```" ++ (label ++ ws1)
            ++ LBRACE :: body ++ RBRACE :: (ws2 ++ tail) ++ lit "```").
    - apply safe_json_loads_fenced.
      + intros H. apply in_app_or in H as [H|H]; [auto|].
        now apply (proj1 (all_ws_braceless ws1 H1)).
      + intros H. apply in_app_or in H as [H|H]; [|auto].
        now apply (proj2 (all_ws_braceless ws2 H2)).
    - rewrite <- !app_assoc. simpl. rewrite <- !app_assoc. reflexivity. }
  split; [exact E|].
  intros lax ids payload tr.
  rewrite (generate_quiz_content lax (replying wrapped ids) payload tr
             wrapped) by apply replying_content.
  rewrite (generate_quiz_content lax (replying J ids) payload tr J)
    by apply replying_content.
  rewrite !safe_json_loads_strip, E. reflexivity.
Qed.

(** A block opened by three backticks, json and a line feed, closed by a
    line feed and three backticks and followed by a line feed. *)
Lemma C2_fence_stripping_witness :
  loads Examples.small_text = inr (JObject Examples.small_object)
  /\ safe_json_loads
       (fenced (lit "json" ++ [10]) Examples.small_text [10] ++ [10])
     = safe_json_loads Examples.small_text
  /\ safe_json_loads Examples.small_text
     = inr (JObject Examples.small_object).
Proof.
  split; [reflexivity|]. split; [|reflexivity].
  refine (proj1 (C2_fence_stripping [] (lit "json" ++ [10])
                   Examples.small_text [10] [10] Examples.small_object
                   eq_refl _ _ eq_refl eq_refl));
    simpl; intuition discriminate.
Defined.

(** ** Texts without a brace *)

(** The text handed to [loads] has no opening brace when the payload has
    none. *)
Lemma safe_json_loads_braceless (s : str) :
  ~ In LBRACE s ->
  exists txt, safe_json_loads s = loads txt /\ ~ In LBRACE txt.
Proof.
  intros Hs. unfold safe_json_loads.
  assert (H1 : ~ In LBRACE (strip s))
    by (intros H; now apply strip_by_In in H).
  destruct (startswith (lit "```") (strip s)); [|now eexists].
  assert (H2 : ~ In LBRACE (strip_chars (lit "`") (strip s)))
    by (intros H; now apply strip_by_In in H).
  rewrite (find_none _ _ H2). now eexists.
Qed.

Lemma QuizPayload_new_not_object (lax : Coercion) (v : JSON) :
  match v with JObject _ => False | _ => True end ->
  QuizPayload_new lax v = inl NotAMapping.
Proof. destruct v; simpl; tauto. Qed.

(** C3 (amended): an upstream text without any opening brace never yields a
    quiz.  It is answered with the JSON-parse error (502) when it does not
    parse as JSON, and with the structural error (422) when it does parse,
    as an array or a scalar, which is then not a mapping. *)
Theorem C3_braceless_text (lax : Coercion) (world : World)
  (payload : QuizIn.t) (tr : Trace) (txt : str) :
  has_content
    (generate_content world (length (calls tr)) (quiz_prompt payload)) txt ->
  ~ In LBRACE txt ->
  (exists e,
      safe_json_loads txt = inl e
      /\ generate_quiz lax world payload tr
         = (inl (error 502 (InvalidJSON e)),
            called (quiz_prompt payload) tr))
  \/ (exists v,
        safe_json_loads txt = inr v
        /\ match v with JObject _ => False | _ => True end
        /\ generate_quiz lax world payload tr
           = (inl (error 422 (InvalidStructure NotAMapping)),
              called (quiz_prompt payload) tr)).
Proof.
  intros Hc Hb. rewrite (generate_quiz_content _ _ _ _ _ Hc).
  rewrite safe_json_loads_strip.
  destruct (safe_json_loads_braceless _ Hb) as (cut & E & Ht).
  destruct (safe_json_loads txt) as [e|v] eqn:Hj.
  - left. now exists e.
  - right. exists v.
    assert (Hv : match v with JObject _ => False | _ => True end)
      by (apply (loads_braceless cut); congruence).
    repeat split; auto. now rewrite QuizPayload_new_not_object.
Qed.

Lemma C3_braceless_text_witness :
  ~ In LBRACE (lit "No puedo ayudar con eso.")
  /\ exists e,
       generate_quiz strict
         (replying (lit "No puedo ayudar con eso.") Examples.ids)
         Examples.quiz_payload start
       = (inl (error 502 (InvalidJSON e)),
          called (quiz_prompt Examples.quiz_payload) start).
Proof.
  assert (Hb : ~ In LBRACE (lit "No puedo ayudar con eso."))
    by (simpl; intuition discriminate).
  split; [exact Hb|].
  pose proof (replying_content (lit "No puedo ayudar con eso.")
                Examples.ids 0 (quiz_prompt Examples.quiz_payload)) as Hc.
  destruct (C3_braceless_text strict
              (replying (lit "No puedo ayudar con eso.") Examples.ids)
              Examples.quiz_payload start _ Hc Hb)
    as [(e & _ & H)|(v & Hv & _)].
  - now exists e.
  - discriminate Hv.
Defined.

(** C3 as the specification words it fails: the text [[]] has no brace,
    parses as JSON, and is answered with the structural error (422). *)
Lemma C3_counterexample :
  ~ In LBRACE (lit "[]")
  /\ generate_quiz strict (replying (lit "[]") Examples.ids)
       Examples.quiz_payload start
     = (inl (error 422 (InvalidStructure NotAMapping)),
        called (quiz_prompt Examples.quiz_payload) start).
Proof.
  split; [simpl; intuition discriminate | reflexivity].
Qed.

(** ** The passage and its words *)

Lemma strip_starts_in_word (s : str) : starts_in_word (strip s).
Proof.
  unfold starts_in_word. destruct (strip s) as [|c t] eqn:E; [exact I|].
  now apply strip_by_head in E.
Qed.

(** C4 (amended): in every [RSVPOut] the handler returns, the words joined
    with single spaces give the text back exactly when every whitespace
    character of the text is a U+0020 followed by a character that is not
    whitespace: no tab, no line break, no run of spaces. *)
Theorem C4_join_words (world : World) (payload : RSVPIn.t) (tr tr' : Trace)
  (out : RSVPOut.t) :
  generate_rsvp world payload tr = (inr out, tr') ->
  (join [SPACE] (RSVPOut.palabras out) = RSVPOut.texto out
   <-> single_spaced (RSVPOut.texto out) = true).
Proof.
  intros H. apply generate_rsvp_ok in H as (r & _ & -> & ->).
  apply SplitFacts.join_split_iff, strip_starts_in_word.
Qed.

Lemma C4_join_words_witness :
  generate_rsvp (replying (lit " hola mundo ") Examples.ids)
    Examples.rsvp_payload start
  = (inr {| RSVPOut.id := Examples.ids 0;
            RSVPOut.texto := lit "hola mundo";
            RSVPOut.palabras := [lit "hola"; lit "mundo"] |},
     drawn (called (rsvp_prompt Examples.rsvp_payload) start))
  /\ join [SPACE] [lit "hola"; lit "mundo"] = lit "hola mundo".
Proof.
  split; [reflexivity|].
  apply (C4_join_words (replying (lit " hola mundo ") Examples.ids)
           Examples.rsvp_payload start _
           {| RSVPOut.id := Examples.ids 0;
              RSVPOut.texto := lit "hola mundo";
              RSVPOut.palabras := [lit "hola"; lit "mundo"] |} eq_refl).
  reflexivity.
Defined.

(** C4 as the specification words it fails: a passage of two lines has no
    run of spaces (no two adjacent whitespace characters at all), and its
    words joined with single spaces differ from it. *)
Lemma C4_counterexample :
  generate_rsvp (replying Examples.two_lines Examples.ids)
    Examples.rsvp_payload start
  = (inr {| RSVPOut.id := Examples.ids 0;
            RSVPOut.texto := Examples.two_lines;
            RSVPOut.palabras := [lit "a"; lit "b"] |},
     drawn (called (rsvp_prompt Examples.rsvp_payload) start))
  /\ no_double_space Examples.two_lines = true
  /\ no_whitespace_runs Examples.two_lines = true
  /\ join [SPACE] [lit "a"; lit "b"] <> Examples.two_lines.
Proof.
  repeat split; discriminate.
Qed.

(** C10: in every [RSVPOut] the handler returns, each word is non-empty and
    holds no whitespace character, and the list of words is the whitespace
    tokenization of the text, the only one there is; and the handler
    returns one for any upstream text. *)
Theorem C10_words_tokenization (world : World) (payload : RSVPIn.t)
  (tr : Trace) :
  (forall txt,
     has_content
       (generate_content world (length (calls tr)) (rsvp_prompt payload))
       txt ->
     exists out tr', generate_rsvp world payload tr = (inr out, tr'))
  /\ forall out tr',
       generate_rsvp world payload tr = (inr out, tr') ->
       Forall (fun w => w <> [] /\ no_space w = true) (RSVPOut.palabras out)
       /\ Tokenization (RSVPOut.texto out) (RSVPOut.palabras out)
       /\ forall words,
            Tokenization (RSVPOut.texto out) words ->
            words = RSVPOut.palabras out.
Proof.
  split.
  - intros txt Hc. rewrite (generate_rsvp_content _ _ _ _ Hc). eauto.
  - intros out tr' H. apply generate_rsvp_ok in H as (txt & _ & Ht & Hp).
    rewrite Ht, Hp.
    pose proof (SplitFacts.split_Tokenization (strip txt)) as HT.
    split; [|split].
    + now apply (SplitFacts.Tokenization_words (strip txt)).
    + exact HT.
    + intros words Hw. symmetry. now apply SplitFacts.Tokenization_split.
Qed.

Lemma C10_words_tokenization_witness :
  generate_rsvp (replying (lit " hola  mundo ") Examples.ids)
    Examples.rsvp_payload start
  = (inr {| RSVPOut.id := Examples.ids 0;
            RSVPOut.texto := lit "hola  mundo";
            RSVPOut.palabras := [lit "hola"; lit "mundo"] |},
     drawn (called (rsvp_prompt Examples.rsvp_payload) start))
  /\ Tokenization (lit "hola  mundo") [lit "hola"; lit "mundo"].
Proof.
  split; [reflexivity|].
  destruct (C10_words_tokenization
              (replying (lit " hola  mundo ") Examples.ids)
              Examples.rsvp_payload start) as [_ H].
  destruct (H {| RSVPOut.id := Examples.ids 0;
                 RSVPOut.texto := lit "hola  mundo";
                 RSVPOut.palabras := [lit "hola"; lit "mundo"] |}
              _ eq_refl) as (_ & HT & _).
  exact HT.
Defined.

(** ** Request validation *)

Lemma bounded_out_of_range (lax : Coercion) (key : str) (lo hi default : Z)
  (m : list (str * JSON)) :
  out_of_range lax key lo hi m ->
  with_default (bounded_int lax lo hi) default key m = None.
Proof.
  intros (v & z & Hk & Hv & Hz). unfold with_default, bounded_int.
  rewrite Hk, Hv.
  destruct ((lo <=? z)%Z && (z <=? hi)%Z) eqn:E; [|reflexivity].
  apply andb_true_iff in E as [E1 E2].
  apply Z.leb_le in E1, E2. lia.
Qed.

(** C5: a request whose [palabras_objetivo] is outside [80, 800] or whose
    [num_preguntas] is outside [3, 12] is answered with HTTP 422 by the
    route itself, and the trace is untouched: no call to the model was
    made and no identifier drawn.  This holds for both routes. *)
Theorem C5_bounds_before_upstream (lax : Coercion) (world : World)
  (m : list (str * JSON)) (tr : Trace) :
  (out_of_range lax (lit "palabras_objetivo") 80 800 m
   \/ out_of_range lax (lit "num_preguntas") 3 12 m ->
   post_api_rsvp lax world (JObject m) tr
   = (inl (error 422 RequestValidation), tr))
  /\ (out_of_range lax (lit "num_preguntas") 3 12 m ->
      post_api_quiz lax world (JObject m) tr
      = (inl (error 422 RequestValidation), tr)).
Proof.
  split.
  - intros H. unfold post_api_rsvp, route, RSVPIn.validate.
    destruct (required (validate_str lax) (lit "topic") m); [|reflexivity].
    destruct H as [H|H].
    + now rewrite (bounded_out_of_range _ _ _ _ _ _ H).
    + rewrite (bounded_out_of_range _ _ _ _ 5%Z _ H).
      now destruct (with_default _ _ _ m).
  - intros H. unfold post_api_quiz, route, QuizIn.validate.
    rewrite (bounded_out_of_range _ _ _ _ _ _ H).
    now destruct (required _ _ m).
Qed.

Lemma C5_bounds_before_upstream_witness :
  out_of_range strict (lit "palabras_objetivo") 80 800 Examples.fifty_words
  /\ post_api_rsvp strict (replying (lit "hola") Examples.ids)
       (JObject Examples.fifty_words) start
     = (inl (error 422 RequestValidation), start).
Proof.
  assert (H : out_of_range strict (lit "palabras_objetivo") 80 800
                Examples.fifty_words).
  { exists (JInt 50), 50%Z. repeat split. left. reflexivity. }
  split; [exact H|].
  apply (proj1 (C5_bounds_before_upstream strict
                  (replying (lit "hola") Examples.ids)
                  Examples.fifty_words start)).
  left. exact H.
Defined.

(** Every payload a route hands to its handler is within the bounds. *)
Lemma RSVPIn_validate_bounds (lax : Coercion) (body : JSON) (p : RSVPIn.t) :
  RSVPIn.validate lax body = Some p ->
  (80 <= RSVPIn.palabras_objetivo p <= 800)%Z
  /\ (3 <= RSVPIn.num_preguntas p <= 12)%Z.
Proof.
  unfold RSVPIn.validate. destruct body; try discriminate.
  destruct (required _ _ _); [|discriminate].
  unfold with_default, bounded_int.
  destruct (dict_get (lit "palabras_objetivo") members) as [v1|];
    destruct (dict_get (lit "num_preguntas") members) as [v2|];
    repeat match goal with
    | |- context [validate_int lax ?v] =>
        destruct (validate_int lax v) as [?z|]; try discriminate
    | |- context [(?a <=? ?z)%Z && (?z <=? ?b)%Z] =>
        destruct ((a <=? z)%Z && (z <=? b)%Z) eqn:?; try discriminate
    end;
    intros H; injection H as <-; simpl;
    repeat match goal with
    | H : (_ && _) = true |- _ => apply andb_true_iff in H as [? ?]
    | H : (_ <=? _)%Z = true |- _ => apply Z.leb_le in H
    end; lia.
Qed.

(** C6 (amended): an accepted passage request has a [topic] field that is
    present and accepted as a string, an accepted quiz request a [texto]
    field likewise; a request without the field is answered with HTTP 422
    before the handler runs.  No minimum length is enforced: a body with
    just that field is accepted whatever the string, the empty one
    included. *)
Theorem C6_text_fields_required (lax : Coercion) (world : World)
  (body : JSON) (tr : Trace) :
  (forall p, RSVPIn.validate lax body = Some p ->
     exists m v, body = JObject m /\ dict_get (lit "topic") m = Some v
                 /\ validate_str lax v = Some (RSVPIn.topic p))
  /\ (forall p, QuizIn.validate lax body = Some p ->
       exists m v, body = JObject m /\ dict_get (lit "texto") m = Some v
                   /\ validate_str lax v = Some (QuizIn.texto p))
  /\ (forall m, body = JObject m -> dict_get (lit "topic") m = None ->
       post_api_rsvp lax world body tr
       = (inl (error 422 RequestValidation), tr))
  /\ (forall m, body = JObject m -> dict_get (lit "texto") m = None ->
       post_api_quiz lax world body tr
       = (inl (error 422 RequestValidation), tr))
  /\ (forall x,
       RSVPIn.validate lax (JObject [(lit "topic", JString x)])
       = Some {| RSVPIn.topic := x; RSVPIn.palabras_objetivo := 250;
                 RSVPIn.num_preguntas := 5 |}
       /\ QuizIn.validate lax (JObject [(lit "texto", JString x)])
          = Some {| QuizIn.texto := x; QuizIn.num_preguntas := 5 |}).
Proof.
  split; [|split; [|split; [|split]]].
  - intros p. unfold RSVPIn.validate. destruct body; try discriminate.
    unfold required at 1.
    destruct (dict_get (lit "topic") members) as [v|] eqn:Hk; [|discriminate].
    destruct (validate_str lax v) as [x|] eqn:Hx; [|discriminate].
    destruct (with_default _ _ _ members); [|discriminate].
    destruct (with_default _ _ _ members); [|discriminate].
    intros H. injection H as <-. exists members, v. auto.
  - intros p. unfold QuizIn.validate. destruct body; try discriminate.
    unfold required at 1.
    destruct (dict_get (lit "texto") members) as [v|] eqn:Hk; [|discriminate].
    destruct (validate_str lax v) as [x|] eqn:Hx; [|discriminate].
    destruct (with_default _ _ _ members); [|discriminate].
    intros H. injection H as <-. exists members, v. auto.
  - intros m -> H. unfold post_api_rsvp, route, RSVPIn.validate, required.
    now rewrite H.
  - intros m -> H. unfold post_api_quiz, route, QuizIn.validate, required.
    now rewrite H.
  - intros x. split; reflexivity.
Qed.

Lemma C6_text_fields_required_witness :
  dict_get (lit "topic") [(lit "palabras_objetivo", JInt 100)] = None
  /\ post_api_rsvp strict (replying (lit "hola") Examples.ids)
       Examples.no_topic start
     = (inl (error 422 RequestValidation), start).
Proof.
  split; [reflexivity|].
  destruct (C6_text_fields_required strict
              (replying (lit "hola") Examples.ids) Examples.no_topic start)
    as (_ & _ & H & _).
  exact (H _ eq_refl eq_refl).
Defined.

(** C6 as the specification words it fails: a passage request with an
    empty topic and a quiz request with an empty text are accepted and sent
    to the model. *)
Lemma C6_counterexample :
  post_api_rsvp strict (replying (lit "hola") Examples.ids)
    Examples.empty_topic start
  = (inr {| RSVPOut.id := Examples.ids 0; RSVPOut.texto := lit "hola";
            RSVPOut.palabras := [lit "hola"] |},
     {| calls := [PROMPT_TEXTO [] 250]; minted := 1 |})
  /\ post_api_quiz strict (replying Examples.small_text Examples.ids)
       Examples.empty_texto start
     = (inr {| QuizOut.rsvp_session_id := Examples.ids 0;
               QuizOut.preguntas := [] |},
        {| calls := [PROMPT_QUIZ [] 5]; minted := 1 |}).
Proof.
  split; reflexivity.
Qed.

(** ** Structural validation *)

Lemma validate_each_In {A} (f : JSON -> option A) (l : list JSON)
  (r : list A) (x : JSON) :
  validate_each f l = Some r -> In x l -> exists a, f x = Some a.
Proof.
  revert r. induction l as [|v l IH]; intros r H Hin; [destruct Hin|].
  simpl in H. destruct (f v) as [a|] eqn:Hv; [|discriminate].
  destruct (validate_each f l) as [r'|]; [|discriminate].
  destruct Hin as [->|Hin]; eauto.
Qed.

Lemma validate_each_length {A} (f : JSON -> option A) (l : list JSON)
  (r : list A) :
  validate_each f l = Some r -> length r = length l.
Proof.
  revert r. induction l as [|v l IH]; intros r H; simpl in H.
  - now injection H as <-.
  - destruct (f v); [|discriminate].
    destruct (validate_each f l) as [r'|]; [|discriminate].
    injection H as <-. simpl. now rewrite (IH r').
Qed.

(** What an accepted item tells about its options: the field is there, it
    is a list, and each element of it was accepted as a string. *)
Lemma QuizItem_validate_opciones (lax : Coercion) (v : JSON) (q : QuizItem.t) :
  QuizItem.validate lax v = Some q ->
  exists m l, v = JObject m
    /\ dict_get (lit "opciones") m = Some (JArray l)
    /\ validate_each (validate_str lax) l = Some (QuizItem.opciones q).
Proof.
  unfold QuizItem.validate. destruct v; try discriminate.
  unfold QuizItem.validate_fields.
  destruct (required (validate_str lax) (lit "pregunta") members);
    [|discriminate].
  unfold required at 1.
  destruct (dict_get (lit "opciones") members) as [o|] eqn:Hk; [|discriminate].
  destruct o; try discriminate. simpl.
  destruct (validate_each (validate_str lax) items) as [l|] eqn:Hl;
    [|discriminate].
  destruct (required (validate_int lax) _ members); [|discriminate].
  destruct (required (validate_str lax) _ members); [|discriminate].
  intros H. injection H as <-. exists members, items. auto.
Qed.

Lemma QuizItem_validate_not_a_list (lax : Coercion) (m : list (str * JSON)) :
  not_a_list (lit "opciones") m -> QuizItem.validate lax (JObject m) = None.
Proof.
  intros Hn. destruct (QuizItem.validate lax (JObject m)) as [q|] eqn:E;
    [|reflexivity].
  apply QuizItem_validate_opciones in E as (m' & l & Hm & Hk & _).
  injection Hm as <-. now elim (Hn l).
Qed.

Lemma validate_each_strings (lax : Coercion) (l : list str) :
  validate_each (validate_str lax) (List.map JString l) = Some l.
Proof.
  induction l as [|x l IH]; [reflexivity|]. simpl. now rewrite IH.
Qed.

Lemma Encodes_validate (lax : Coercion) (v : JSON) (q : QuizItem.t) :
  Encodes v q -> QuizItem.validate lax v = Some q.
Proof.
  intros (m & -> & Hp & Ho & Hr & He). destruct q as [p o r e]. simpl in *.
  unfold QuizItem.validate_fields, required. rewrite Hp, Ho, Hr, He. simpl.
  now rewrite validate_each_strings.
Qed.


(** C7 (amended): an item is accepted only if its [opciones] field is
    present and is a list whose elements are all accepted as strings; no
    minimum length is asked of it: a question object with fields of the
    declared types is accepted whatever the length of its list.  A reply
    with an item whose [opciones] is absent or is not a list is answered
    with HTTP 422. *)
Theorem C7_options_must_be_list (lax : Coercion) (world : World)
  (payload : QuizIn.t) (tr : Trace) :
  (forall v q, QuizItem.validate lax v = Some q ->
     exists m l, v = JObject m
       /\ dict_get (lit "opciones") m = Some (JArray l)
       /\ validate_each (validate_str lax) l = Some (QuizItem.opciones q)
       /\ length (QuizItem.opciones q) = length l)
  /\ (forall v q, Encodes v q -> QuizItem.validate lax v = Some q)
  /\ (forall txt m items im,
       has_content
         (generate_content world (length (calls tr)) (quiz_prompt payload))
         txt ->
       safe_json_loads txt = inr (JObject m) ->
       dict_get (lit "preguntas") m = Some (JArray items) ->
       In (JObject im) items ->
       not_a_list (lit "opciones") im ->
       generate_quiz lax world payload tr
       = (inl (error 422 (InvalidStructure ValidationError)),
          called (quiz_prompt payload) tr)).
Proof.
  split; [|split].
  - intros v q H. apply QuizItem_validate_opciones in H as (m & l & ? & ? & H).
    exists m, l. repeat split; auto. now apply validate_each_length in H.
  - apply Encodes_validate.
  - intros txt m items im Hc Hj Hk Hin Hn.
    rewrite (generate_quiz_content _ _ _ _ _ Hc).
    rewrite safe_json_loads_strip, Hj. simpl.
    unfold QuizPayload.validate_fields.
    destruct (required (validate_str lax) (lit "texto") m); [|reflexivity].
    unfold required. rewrite Hk. simpl.
    destruct (validate_each (QuizItem.validate lax) items) as [qs|] eqn:E;
      [|reflexivity].
    destruct (validate_each_In _ _ _ _ E Hin) as [q Hq].
    now rewrite QuizItem_validate_not_a_list in Hq.
Qed.

Lemma C7_options_must_be_list_witness :
  generate_quiz strict (replying Examples.string_options Examples.ids)
    Examples.quiz_payload start
  = (inl (error 422 (InvalidStructure ValidationError)),
     called (quiz_prompt Examples.quiz_payload) start).
Proof.
  apply (proj2 (proj2 (C7_options_must_be_list strict
                         (replying Examples.string_options Examples.ids)
                         Examples.quiz_payload start))
           Examples.string_options
           Examples.string_options_object
           [JObject Examples.string_options_item]
           Examples.string_options_item).
  - apply replying_content.
  - reflexivity.
  - reflexivity.
  - left. reflexivity.
  - intros l. discriminate.
Defined.

(** C7 as the specification words it fails: a reply whose question has an
    empty list of options is accepted and returned. *)
Lemma C7_counterexample :
  generate_quiz strict (replying Examples.empty_options Examples.ids)
    Examples.quiz_payload start
  = (inr {| QuizOut.rsvp_session_id := Examples.ids 0;
            QuizOut.preguntas := [Examples.item "uno" [] 0 "porque si"] |},
     drawn (called (quiz_prompt Examples.quiz_payload) start)).
Proof. reflexivity. Qed.

(** ** Well-formed replies *)



(** ** Commentary around an object *)

Lemma safe_json_loads_unfenced (payload : str) :
  startswith (lit "```") (strip payload) = false ->
  safe_json_loads payload = loads (strip payload).
Proof. intros H. unfold safe_json_loads. now rewrite H. Qed.

Lemma opens_prose_spec (c : char) :
  opens_prose c = true ->
  isspace c = false /\ (c =? QUOTE) = false /\ (c =? LBRACE) = false
  /\ (c =? LBRACKET) = false /\ (c =? BACKTICK) = false.
Proof.
  unfold opens_prose. intros H.
  repeat (apply andb_true_iff in H as [H ?]).
  repeat split; now apply negb_true_iff.
Qed.

(** C9: the braces are looked for only in a text that begins with three
    backticks once trimmed; any other text goes to the JSON parser whole,
    trimmed and otherwise unmodified.  So an object with commentary in front
    of it (and whatever behind) is answered with the JSON-parse error (502),
    although the object alone would parse. *)
Theorem C9_unfenced_commentary (ws p J post : str) (c : char)
  (o : list (str * JSON)) :
  all_space ws = true -> opens_prose c = true ->
  loads J = inr (JObject o) ->
  let payload := ws ++ c :: p ++ J ++ post in
  (forall any,
     startswith (lit "```") (strip any) = false ->
     safe_json_loads any = loads (strip any))
  /\ startswith (lit "```") (strip payload) = false
  /\ exists e,
       safe_json_loads payload = inl e
       /\ forall lax ids request tr,
            generate_quiz lax (replying payload ids) request tr
            = (inl (error 502 (InvalidJSON e)),
               called (quiz_prompt request) tr).
Proof.
  intros Hws Hc HJ payload.
  split; [exact safe_json_loads_unfenced|].
  apply opens_prose_spec in Hc as (Hsp & Hq & Hb & Hk & Ht).
  apply loads_object_shape in HJ as (ws1 & body & ws2 & EJ & _ & _).
  assert (Es : exists t, strip payload = c :: t /\ In LBRACE t).
  { unfold payload, strip. rewrite EJ.
    replace (ws ++ c :: p ++ (ws1 ++ LBRACE :: body ++ RBRACE :: ws2) ++ post)
      with (ws ++ c :: (p ++ ws1)
            ++ LBRACE :: (body ++ RBRACE :: ws2 ++ post))
      by (rewrite <- !app_assoc; simpl; now rewrite <- !app_assoc).
    rewrite strip_by_core by (exact Hsp || reflexivity).
    rewrite dropwhile_all by exact Hws. simpl. eexists. split; [reflexivity|].
    apply in_or_app. right. now left. }
  destruct Es as (t & Es & Hin).
  assert (Hf : startswith (lit "```") (strip payload) = false).
  { rewrite Es.
    change (startswith (lit "```") (c :: t))
      with ((BACKTICK =? c) && startswith (lit "``") t).
    now rewrite N.eqb_sym, Ht. }
  split; [exact Hf|].
  pose proof (safe_json_loads_unfenced payload Hf) as Eu.
  destruct (loads_leading_prose c t Hsp Hq Hb Hk Hin) as [e He].
  exists e. rewrite Eu, Es. split; [exact He|].
  intros lax ids request tr.
  rewrite (generate_quiz_content lax (replying payload ids) request tr
             payload) by apply replying_content.
  now rewrite safe_json_loads_strip, Eu, Es, He.
Qed.

Lemma C9_unfenced_commentary_witness :
  loads Examples.small_text = inr (JObject Examples.small_object)
  /\ exists e, safe_json_loads Examples.with_prose = inl e.
Proof.
  split; [reflexivity|].
  destruct (C9_unfenced_commentary [] (lit "qui esta: ") Examples.small_text
              [] 65 Examples.small_object eq_refl eq_refl eq_refl)
    as (_ & _ & e & He & _).
  rewrite app_nil_r in He. exists e. exact He.
Defined.

Example with_prose_502 :
  generate_quiz strict (replying Examples.with_prose Examples.ids)
    Examples.quiz_payload start
  = (inl (error 502 (InvalidJSON ExpectingValue)),
     called (quiz_prompt Examples.quiz_payload) start).
Proof. reflexivity. Qed.

End AppFacts.

(** * The scanner reads no further than it says *)

(** If a scanning function, run on a text that ends with [r], leaves at
    least [r] unread, then it reads the same from the text without [r]. *)

Module PrefixFacts.
Import PyStr Json Spec MoreSpec PyStrFacts JsonFacts.

Ltac len_contra H :=
  exfalso; apply (f_equal (@length _)) in H;
  repeat (progress (repeat rewrite length_app in H; simpl in H)); lia.

Lemma app_same_tail (a b r : str) : a ++ r = b ++ r -> a = b.
Proof. apply app_inv_tail. Qed.

Lemma tail_longer (a b r : str) : a = b ++ r -> (length r <= length a)%nat.
Proof. intros ->. rewrite length_app. lia. Qed.

Lemma span_digits_trunc (a : str) : forall ds b r,
  span_digits (a ++ r) = (ds, b ++ r) -> span_digits a = (ds, b).
Proof.
  induction a as [|c a IH]; intros ds b r H.
  - simpl in H. destruct (span_digits_spec _ _ _ H) as [E _].
    assert (ds = [] /\ b = []) as [-> ->].
    { destruct ds; [|len_contra E]. destruct b; [auto | len_contra E]. }
    reflexivity.
  - simpl in H |- *. destruct (is_digit c).
    + destruct (span_digits (a ++ r)) as [ds' r'] eqn:E.
      injection H as <- ->. now rewrite (IH _ _ _ E).
    + injection H as <- H. f_equal.
      symmetry. apply (app_same_tail _ _ r). now rewrite <- H.
Qed.

Lemma span_digits_none (a r z : str) :
  span_digits (a ++ r) = ([], z) -> span_digits a = ([], a).
Proof.
  destruct a as [|c a]; [reflexivity|]. simpl.
  destruct (is_digit c); [|reflexivity].
  destruct (span_digits (a ++ r)). discriminate.
Qed.

Lemma scan_sign_trunc (a sg b r : str) :
  scan_sign (a ++ r) = (sg, b ++ r) -> scan_sign a = (sg, b).
Proof.
  unfold scan_sign. destruct a as [|c a]; simpl.
  - destruct r as [|c r]; intros H.
    + injection H as <- H. destruct b; [reflexivity | discriminate].
    + destruct (c =? MINUS); injection H as <- H.
      * len_contra H.
      * destruct b; [reflexivity | len_contra H].
  - destruct (c =? MINUS); intros H; injection H as <- H.
    + now rewrite (app_same_tail _ _ _ H).
    + f_equal. symmetry. apply (app_same_tail _ _ r). now rewrite <- H.
Qed.

Lemma scan_int_trunc (a ip b r : str) :
  scan_int (a ++ r) = Some (ip, b ++ r) -> scan_int a = Some (ip, b).
Proof.
  intros H. destruct (scan_int_spec _ _ _ H) as (E & _ & Hne).
  destruct a as [|c a].
  { destruct ip; [now elim Hne | len_contra E]. }
  unfold scan_int in H |- *. simpl in H.
  destruct (c =? ZERO).
  - injection H as <- H. now rewrite (app_same_tail _ _ _ H).
  - destruct (is_digit c); [|discriminate].
    destruct (span_digits (a ++ r)) as [ds r'] eqn:Hs.
    injection H as <- ->. now rewrite (span_digits_trunc _ _ _ _ Hs).
Qed.

Lemma scan_frac_trunc (a fr b r : str) :
  scan_frac (a ++ r) = (fr, b ++ r) -> scan_frac a = (fr, b).
Proof.
  intros H. destruct (scan_frac_spec _ _ _ H) as (E & _).
  assert (Hkeep : fr = [] -> scan_frac a = ([], a) -> scan_frac a = (fr, b)).
  { intros -> Ha. rewrite Ha. f_equal. now apply (app_same_tail _ _ r). }
  unfold scan_frac in H.
  destruct a as [|p [|d a]]; simpl in H.
  - apply Hkeep; [|reflexivity].
    destruct fr; [reflexivity | len_contra E].
  - apply Hkeep; [|reflexivity].
    destruct fr as [|x [|y fr]]; [reflexivity | |len_contra E].
    exfalso. destruct r as [|d r]; [discriminate|].
    destruct ((p =? DOT) && is_digit d); [|discriminate].
    destruct (span_digits r). discriminate.
  - unfold scan_frac.
    destruct ((p =? DOT) && is_digit d).
    + destruct (span_digits (a ++ r)) as [ds r'] eqn:Hs.
      injection H as <- ->. now rewrite (span_digits_trunc _ _ _ _ Hs).
    + injection H as <- H. f_equal.
      symmetry. apply (app_same_tail _ _ r). now rewrite <- H.
Qed.

Lemma scan_exp_trunc (a ex b r : str) :
  scan_exp (a ++ r) = (ex, b ++ r) -> scan_exp a = (ex, b).
Proof.
  intros H. destruct (scan_exp_spec _ _ _ H) as (E & _).
  assert (Hkeep : ex = [] -> scan_exp a = ([], a) -> scan_exp a = (ex, b)).
  { intros -> Ha. rewrite Ha. f_equal. now apply (app_same_tail _ _ r). }
  destruct a as [|e a].
  { apply Hkeep; [|reflexivity]. destruct ex; [reflexivity | len_contra E]. }
  unfold scan_exp in H |- *. simpl app in H. cbv beta iota in H.
  destruct ((e =? 101) || (e =? 69)) eqn:He.
  2:{ injection H as <- H. f_equal.
      symmetry. apply (app_same_tail _ _ r). now rewrite <- H. }
  destruct a as [|x y].
  - (* the exponent mark is the last character: nothing follows it *)
    simpl in H |- *.
    assert (Hex : ex = []).
    { match type of H with
      | (let (_, _) := ?m in _) = _ => destruct m as [sg t']
      end.
      destruct (span_digits t') as [[|d ds] rr]; injection H as <- H;
        [reflexivity|].
      len_contra E. }
    subst ex. f_equal. simpl in E. apply (app_same_tail _ _ r).
    simpl. exact E.
  - simpl app in H. cbv beta iota in H.
    destruct ((x =? MINUS) || (x =? PLUS)) eqn:Hx.
    + destruct (span_digits (y ++ r)) as [[|d ds] rr] eqn:Hs.
      * injection H as <- H. rewrite (span_digits_none _ _ _ Hs).
        f_equal. symmetry. apply (app_same_tail _ _ r). now rewrite <- H.
      * injection H as <- ->. now rewrite (span_digits_trunc _ _ _ _ Hs).
    + change (x :: y ++ r) with ((x :: y) ++ r) in H.
      destruct (span_digits ((x :: y) ++ r)) as [[|d ds] rr] eqn:Hs.
      * injection H as <- H. rewrite (span_digits_none _ _ _ Hs).
        f_equal. symmetry. apply (app_same_tail _ _ r). now rewrite <- H.
      * injection H as <- ->. now rewrite (span_digits_trunc _ _ _ _ Hs).
Qed.

Lemma match_number_trunc (a b r : str) (v : JSON) :
  match_number (a ++ r) = inr (v, b ++ r) -> match_number a = inr (v, b).
Proof.
  unfold match_number. intros H.
  destruct (scan_sign (a ++ r)) as [sg s1] eqn:H1.
  destruct (scan_int s1) as [[ip r1]|] eqn:H2; [|discriminate].
  destruct (scan_frac r1) as [fr r2] eqn:H3.
  destruct (scan_exp r2) as [ex r3] eqn:H4.
  assert (r3 = b ++ r) as ->.
  { destruct fr, ex; try (injection H as _ <-; reflexivity).
    destruct (max_str_digits <? length ip)%nat; [discriminate|].
    injection H as _ <-. reflexivity. }
  destruct (scan_exp_spec _ _ _ H4) as [-> _].
  rewrite app_assoc in H4. apply scan_exp_trunc in H4.
  destruct (scan_frac_spec _ _ _ H3) as [-> _].
  rewrite !app_assoc in H3. apply scan_frac_trunc in H3.
  destruct (scan_int_spec _ _ _ H2) as (-> & _ & _).
  rewrite !app_assoc in H2. apply scan_int_trunc in H2.
  rewrite !app_assoc in H1. apply scan_sign_trunc in H1.
  rewrite <- !app_assoc in *.
  rewrite H1, H2, H3, H4.
  destruct fr, ex; try (injection H as <-; reflexivity).
  destruct (max_str_digits <? length ip)%nat; [discriminate|].
  injection H as <-. reflexivity.
Qed.

Lemma startswith_app (p a r : str) :
  startswith p a = true -> startswith p (a ++ r) = true.
Proof.
  revert a. induction p as [|x p IH]; intros a H; [reflexivity|].
  destruct a as [|y a]; [discriminate|]. simpl in H |- *.
  apply andb_true_iff in H as [-> H]. simpl. auto.
Qed.

Lemma startswith_false_trunc (p a r : str) :
  startswith p (a ++ r) = false -> startswith p a = false.
Proof.
  intros H. destruct (startswith p a) eqn:E; [|reflexivity].
  apply (startswith_app _ _ r) in E. congruence.
Qed.

Lemma startswith_refl_app (p b : str) : startswith p (p ++ b) = true.
Proof.
  induction p as [|x p IH]; [reflexivity|]. simpl. now rewrite N.eqb_refl.
Qed.

Lemma skipn_app_exact (p b : str) : skipn (length p) (p ++ b) = b.
Proof. induction p; simpl; auto. Qed.

(** A constant found in front of [a ++ r] that leaves [b ++ r] unread is
    found in front of [a]. *)
Lemma literal_trunc (p a b r : str) :
  startswith p (a ++ r) = true -> skipn (length p) (a ++ r) = b ++ r ->
  a = p ++ b.
Proof.
  intros H1 H2. apply startswith_split in H1. rewrite H2 in H1.
  rewrite app_assoc in H1. now apply app_same_tail in H1.
Qed.

Lemma scan_scalar_trunc (a b r : str) (v : JSON) :
  scan_scalar (a ++ r) = inr (v, b ++ r) -> scan_scalar a = inr (v, b).
Proof.
  unfold scan_scalar.
  repeat match goal with
  | |- context [if startswith ?p (a ++ r) then _ else _] =>
      let E := fresh "E" in
      destruct (startswith p (a ++ r)) eqn:E;
      [ intros H; injection H as <- H;
        apply (literal_trunc p a b r E) in H; subst a;
        rewrite startswith_refl_app;
        exact (f_equal (fun z => inr (_, z)) (skipn_app_exact p b))
      | rewrite (startswith_false_trunc _ _ _ E) ]
  end.
  apply match_number_trunc.
Qed.

(** ** Strings *)

Lemma scanstring_shorter (n : nat) : forall (s acc v r : str),
  (length s <= n)%nat ->
  scanstring acc s = inr (v, r) -> (length r < length s)%nat.
Proof.
  induction n as [|n IH]; intros s acc v r Hlen H.
  - destruct s; [discriminate | simpl in Hlen; lia].
  - destruct s as [|c t]; [discriminate|].
    simpl in H, Hlen.
    repeat (break_match_in H; try discriminate);
      try (injection H as <- <-; simpl; lia);
      subst;
      (apply IH in H; [simpl in *; lia | simpl in *; lia]).
Qed.

Lemma scanstring_rest (s acc v r : str) :
  scanstring acc s = inr (v, r) -> (length r < length s)%nat.
Proof. apply (scanstring_shorter (length s)). lia. Qed.

(** The part of [T] in front of its tail [R]. *)
Ltac prefix_of T R :=
  lazymatch T with
  | R => constr:(@nil char)
  | ?A ++ R => constr:(A)
  | ?h :: ?T0 => let p := prefix_of T0 R in constr:(h :: p)
  end.

(** One step of [scanstring]. *)
Lemma scanstring_cons (acc : str) (c : char) (t : str) :
  scanstring acc (c :: t) =
  if c =? QUOTE then inr (rev acc, t)
  else if c =? BACKSLASH then
    match t with
    | [] => inl UnterminatedString
    | e :: t1 =>
        if e =? 117 then
          match t1 with
          | h1 :: h2 :: h3 :: h4 :: ((_ :: _) as t2) =>
              match hex4 h1 h2 h3 h4 with
              | None => inl InvalidUnicodeEscape
              | Some u =>
                  if is_high_surrogate u then
                    match t2 with
                    | b :: u' :: g1 :: g2 :: g3 :: g4 :: ((_ :: _) as t3) =>
                        if (b =? BACKSLASH) && (u' =? 117) then
                          match hex4 g1 g2 g3 g4 with
                          | None => inl InvalidUnicodeEscape
                          | Some l =>
                              if is_low_surrogate l
                              then scanstring (join_surrogates u l :: acc) t3
                              else scanstring (u :: acc) t2
                          end
                        else scanstring (u :: acc) t2
                    | _ => scanstring (u :: acc) t2
                    end
                  else scanstring (u :: acc) t2
              end
          | _ => inl InvalidUnicodeEscape
          end
        else
          match simple_escape e with
          | Some x => scanstring (x :: acc) t1
          | None => inl InvalidEscape
          end
    end
  else if c <=? 31 then inl InvalidControlCharacter
  else scanstring (c :: acc) t.
Proof. reflexivity. Qed.

(** One more case of the text a scanning hypothesis looks at. *)
Ltac scan_case H :=
  lazymatch type of H with
  | (match (?x ++ _) with _ => _ end) = _ => destruct x
  | (match ?x with _ => _ end) = _ =>
      first [ is_var x; destruct x
            | let E := fresh "E" in destruct x eqn:E ]
  end;
  cbn [app] in H |- *.

Lemma scanstring_trunc (n : nat) : forall (a acc x b r : str),
  (length a <= n)%nat ->
  scanstring acc (a ++ r) = inr (x, b ++ r) -> scanstring acc a = inr (x, b).
Proof.
  induction n as [|n IH]; intros a acc x b r Hlen H.
  - destruct a; [|simpl in Hlen; lia].
    apply scanstring_rest in H. rewrite length_app in H. simpl in H. lia.
  - destruct a as [|c t].
    { apply scanstring_rest in H. rewrite length_app in H. simpl in H. lia. }
    cbn [app] in H. rewrite scanstring_cons in H |- *. simpl in Hlen.
    repeat (scan_case H; try discriminate H).
    all: lazymatch type of H with
         | inr _ = inr _ =>
             injection H as <- H; apply app_same_tail in H; now subst
         | scanstring _ ?T = inr (_, _ ++ ?R) =>
             first
               [ solve [ apply scanstring_rest in H;
                         rewrite length_app in H; simpl in H; lia ]
               | let T' := prefix_of T R in
                 change T with (T' ++ R) in H;
                 apply IH in H; [exact H | simpl in Hlen |- *; lia] ]
         end.
Qed.

Lemma scanstring_prefix (a acc x b r : str) :
  scanstring acc (a ++ r) = inr (x, b ++ r) -> scanstring acc a = inr (x, b).
Proof. apply (scanstring_trunc (length a)). lia. Qed.

(** ** Whitespace *)

Lemma skip_ws_trunc (a : str) : forall (c : char) (b r : str),
  skip_ws (a ++ r) = c :: b ++ r -> skip_ws a = c :: b.
Proof.
  induction a as [|x a IH]; intros c b r H.
  - simpl in H. pose proof (skip_ws_length r) as Hl. rewrite H in Hl.
    simpl in Hl. rewrite length_app in Hl. lia.
  - unfold skip_ws in *. simpl in H |- *. destruct (is_ws x).
    + now apply IH with r.
    + injection H as -> H. f_equal. now apply app_same_tail in H.
Qed.

Lemma lift_ws (X : str) (c : char) (b r : str) :
  skip_ws X = c :: b ++ r ->
  exists a, X = a ++ r /\ skip_ws a = c :: b.
Proof.
  intros H. destruct (dropwhile_split is_ws X) as (pre & E & _).
  fold (skip_ws X) in E. rewrite H in E.
  exists (pre ++ c :: b). split.
  - rewrite E. now rewrite <- app_assoc.
  - apply skip_ws_trunc with r. rewrite <- app_assoc. simpl.
    rewrite <- E. exact H.
Qed.

(** ** The recursive scanner *)

Lemma suffix_lift (b r X : str) :
  Suffix (b ++ r) X -> exists a, X = a ++ r.
Proof. intros [pre ->]. exists (pre ++ b). now rewrite <- app_assoc. Qed.

Lemma scan_once_nil (n : nat) (x : JSON * str) : scan_once n [] <> Ok x.
Proof. destruct n; discriminate. Qed.

Lemma parse_members_nil (n : nat) (acc : list (str * JSON))
  (x : JSON * str) : parse_members n [] acc <> Ok x.
Proof. destruct n; discriminate. Qed.

Lemma parse_items_nil (n : nat) (acc : list JSON) (x : JSON * str) :
  parse_items n [] acc <> Ok x.
Proof.
  destruct n; [discriminate|]. simpl.
  destruct n; discriminate.
Qed.

Lemma lift_once (n : nat) (X b r : str) (v : JSON) :
  scan_once_prefix n -> scan_once n X = Ok (v, b ++ r) ->
  exists y Y, X = y :: Y ++ r /\ scan_once n (y :: Y) = Ok (v, b).
Proof.
  intros Hp H. destruct (scanner_shape n) as (So & _ & _).
  destruct (So _ _ _ H) as (Hs & _ & _).
  apply suffix_lift in Hs as [a ->]. apply Hp in H.
  destruct a as [|y Y]; [now apply scan_once_nil in H|]. now exists y, Y.
Qed.

Lemma lift_members (n : nat) (X b r : str) (acc : list (str * JSON))
  (v : JSON) :
  parse_members_prefix n -> parse_members n X acc = Ok (v, b ++ r) ->
  exists y Y, X = y :: Y ++ r /\ parse_members n (y :: Y) acc = Ok (v, b).
Proof.
  intros Hp H. destruct (scanner_shape n) as (_ & Sm & _).
  pose proof (closes_is_suffix _ _ (Sm _ _ _ _ H)) as Hs.
  apply suffix_lift in Hs as [a ->]. apply Hp in H.
  destruct a as [|y Y]; [now apply parse_members_nil in H|]. now exists y, Y.
Qed.

Lemma lift_items (n : nat) (X b r : str) (acc : list JSON) (v : JSON) :
  parse_items_prefix n -> parse_items n X acc = Ok (v, b ++ r) ->
  exists y Y, X = y :: Y ++ r /\ parse_items n (y :: Y) acc = Ok (v, b).
Proof.
  intros Hp H. destruct (scanner_shape n) as (_ & _ & Si).
  destruct (Si _ _ _ _ H) as (Hs & _ & _).
  apply suffix_lift in Hs as [a ->]. apply Hp in H.
  destruct a as [|y Y]; [now apply parse_items_nil in H|]. now exists y, Y.
Qed.

Lemma scan_once_prefix_step (n : nat) :
  parse_members_prefix n -> parse_items_prefix n -> scan_once_prefix (S n).
Proof.
  intros IHm IHi a b r v H.
  destruct a as [|c t].
  { destruct (scanner_shape (S n)) as (So & _ & _).
    destruct (So _ _ _ H) as (_ & Hl & _).
    simpl in Hl. rewrite length_app in Hl. lia. }
  simpl in H |- *.
  destruct (c =? QUOTE).
  { destruct (scanstring [] (t ++ r)) as [e|[x r']] eqn:Hs; [discriminate|].
    injection H as <- ->. now rewrite (scanstring_prefix _ _ _ _ _ Hs). }
  destruct (c =? LBRACE).
  { destruct (skip_ws (t ++ r)) as [|d r0] eqn:Hw.
    { now apply parse_members_nil in H. }
    destruct (d =? RBRACE) eqn:Ed.
    - injection H as <- ->. rewrite (skip_ws_trunc _ _ _ _ Hw).
      now rewrite Ed.
    - apply (lift_members _ _ _ _ _ _ IHm) in H as (y & Y & E & H).
      injection E as <- ->. rewrite (skip_ws_trunc _ _ _ _ Hw).
      now rewrite Ed. }
  destruct (c =? LBRACKET).
  { destruct (skip_ws (t ++ r)) as [|d r0] eqn:Hw.
    { now apply parse_items_nil in H. }
    destruct (d =? RBRACKET) eqn:Ed.
    - injection H as <- ->. rewrite (skip_ws_trunc _ _ _ _ Hw).
      now rewrite Ed.
    - apply (lift_items _ _ _ _ _ _ IHi) in H as (y & Y & E & H).
      injection E as <- ->. rewrite (skip_ws_trunc _ _ _ _ Hw).
      now rewrite Ed. }
  apply lift_ok in H.
  change (c :: t ++ r) with ((c :: t) ++ r) in H.
  now rewrite (scan_scalar_trunc _ _ _ _ H).
Qed.

Lemma parse_members_prefix_step (n : nat) :
  scan_once_prefix n -> parse_members_prefix n ->
  parse_members_prefix (S n).
Proof.
  intros IHo IHm a b r acc v H.
  destruct a as [|c t].
  { destruct (scanner_shape (S n)) as (_ & Sm & _).
    pose proof (closes_length _ _ (Sm _ _ _ _ H)) as Hl.
    simpl in Hl. rewrite length_app in Hl. lia. }
  simpl in H |- *.
  destruct (c =? QUOTE); [|discriminate].
  destruct (scanstring [] (t ++ r)) as [e|[key r1]] eqn:Hs; [discriminate|].
  destruct (skip_ws r1) as [|c2 r2] eqn:H1; [discriminate|].
  destruct (c2 =? COLON) eqn:E2; [|discriminate].
  destruct (scan_once n (skip_ws r2)) as [[v' r3]|e|] eqn:Hv;
    try discriminate.
  destruct (skip_ws r3) as [|c3 r4] eqn:H3; [discriminate|].
  assert (Hr4 : exists r4', r4 = r4' ++ r
            /\ (if c3 =? RBRACE then Ok (JObject (rev ((key, v') :: acc)), r4')
                else if c3 =? COMMA
                     then parse_members n (skip_ws r4') ((key, v') :: acc)
                     else Err ExpectingComma) = Ok (v, b)).
  { destruct (c3 =? RBRACE).
    - injection H as <- ->. now exists b.
    - destruct (c3 =? COMMA); [|discriminate].
      apply (lift_members _ _ _ _ _ _ IHm) in H as (y & Y & E & H).
      apply lift_ws in E as (r4' & -> & E). exists r4'.
      rewrite E. auto. }
  destruct Hr4 as (r4' & -> & Hend). clear H.
  apply lift_ws in H3 as (r3' & -> & H3).
  apply (lift_once _ _ _ _ _ IHo) in Hv as (y & Y & E & Hv).
  apply lift_ws in E as (r2' & -> & E).
  apply lift_ws in H1 as (r1' & -> & H1).
  apply scanstring_prefix in Hs.
  now rewrite Hs, H1, E2, E, Hv, H3.
Qed.

Lemma parse_items_prefix_step (n : nat) :
  scan_once_prefix n -> parse_items_prefix n -> parse_items_prefix (S n).
Proof.
  intros IHo IHi a b r acc v H. simpl in H |- *.
  destruct (scan_once n (a ++ r)) as [[v' r1]|e|] eqn:Hv; try discriminate.
  destruct (skip_ws r1) as [|c r2] eqn:H1; [discriminate|].
  assert (Hr2 : exists r2', r2 = r2' ++ r
            /\ (if c =? RBRACKET then Ok (JArray (rev (v' :: acc)), r2')
                else if c =? COMMA
                     then parse_items n (skip_ws r2') (v' :: acc)
                     else Err ExpectingComma) = Ok (v, b)).
  { destruct (c =? RBRACKET).
    - injection H as <- ->. now exists b.
    - destruct (c =? COMMA); [|discriminate].
      apply (lift_items _ _ _ _ _ _ IHi) in H as (y & Y & E & H).
      apply lift_ws in E as (r2' & -> & E). exists r2'.
      rewrite E. auto. }
  destruct Hr2 as (r2' & -> & Hend). clear H.
  apply lift_ws in H1 as (r1' & -> & H1).
  apply IHo in Hv. now rewrite Hv, H1.
Qed.

Lemma scanner_prefix (fuel : nat) :
  scan_once_prefix fuel /\ parse_members_prefix fuel
  /\ parse_items_prefix fuel.
Proof.
  induction fuel as [|n (IHo & IHm & IHi)].
  - split; [|split]; repeat intro; discriminate.
  - split; [|split].
    + now apply scan_once_prefix_step.
    + now apply parse_members_prefix_step.
    + now apply parse_items_prefix_step.
Qed.

(** ** More fuel changes nothing *)

Lemma fuel_step (n : nat) :
  (forall s, scan_once n s <> OutOfFuel ->
     scan_once (S n) s = scan_once n s)
  /\ (forall s acc, parse_members n s acc <> OutOfFuel ->
       parse_members (S n) s acc = parse_members n s acc)
  /\ (forall s acc, parse_items n s acc <> OutOfFuel ->
       parse_items (S n) s acc = parse_items n s acc).
Proof.
  induction n as [|n (IHo & IHm & IHi)].
  - split; [|split]; intros; now exfalso.
  - split; [|split].
    + intros s H. destruct s as [|c t]; [reflexivity|].
      change (scan_once (S (S n)) (c :: t))
        with (if c =? QUOTE then
                match scanstring [] t with
                | inl e => Err e
                | inr (v, r) => Ok (JString v, r)
                end
              else if c =? LBRACE then
                match skip_ws t with
                | d :: r =>
                    if d =? RBRACE then Ok (JObject [], r)
                    else parse_members (S n) (d :: r) []
                | [] => parse_members (S n) [] []
                end
              else if c =? LBRACKET then
                match skip_ws t with
                | d :: r =>
                    if d =? RBRACKET then Ok (JArray [], r)
                    else parse_items (S n) (d :: r) []
                | [] => parse_items (S n) [] []
                end
              else lift (scan_scalar (c :: t))).
      change (scan_once (S n) (c :: t))
        with (if c =? QUOTE then
                match scanstring [] t with
                | inl e => Err e
                | inr (v, r) => Ok (JString v, r)
                end
              else if c =? LBRACE then
                match skip_ws t with
                | d :: r =>
                    if d =? RBRACE then Ok (JObject [], r)
                    else parse_members n (d :: r) []
                | [] => parse_members n [] []
                end
              else if c =? LBRACKET then
                match skip_ws t with
                | d :: r =>
                    if d =? RBRACKET then Ok (JArray [], r)
                    else parse_items n (d :: r) []
                | [] => parse_items n [] []
                end
              else lift (scan_scalar (c :: t))) in H |- *.
      destruct (c =? QUOTE); [reflexivity|].
      destruct (c =? LBRACE).
      { destruct (skip_ws t) as [|d r]; [now apply IHm|].
        destruct (d =? RBRACE); [reflexivity | now apply IHm]. }
      destruct (c =? LBRACKET); [|reflexivity].
      destruct (skip_ws t) as [|d r]; [now apply IHi|].
      destruct (d =? RBRACKET); [reflexivity | now apply IHi].
    + intros s acc H. destruct s as [|c t]; [reflexivity|].
      cbn [parse_members] in H |- *.
      destruct (c =? QUOTE); [|reflexivity].
      destruct (scanstring [] t) as [e|[key r1]]; [reflexivity|].
      destruct (skip_ws r1) as [|c2 r2]; [reflexivity|].
      destruct (c2 =? COLON); [|reflexivity].
      assert (Hv : scan_once n (skip_ws r2) <> OutOfFuel).
      { intros E. apply H. fold scan_once in *. now rewrite E. }
      fold scan_once parse_members in *.
      rewrite (IHo _ Hv).
      destruct (scan_once n (skip_ws r2)) as [[v' r3]|e|]; try reflexivity.
      destruct (skip_ws r3) as [|c3 r4]; [reflexivity|].
      destruct (c3 =? RBRACE); [reflexivity|].
      destruct (c3 =? COMMA); [|reflexivity].
      now apply IHm.
    + intros s acc H. cbn [parse_items] in H |- *.
      fold scan_once parse_items in *.
      assert (Hv : scan_once n s <> OutOfFuel).
      { intros E. apply H. now rewrite E. }
      rewrite (IHo _ Hv).
      destruct (scan_once n s) as [[v' r1]|e|]; try reflexivity.
      destruct (skip_ws r1) as [|c r2]; [reflexivity|].
      destruct (c =? RBRACKET); [reflexivity|].
      destruct (c =? COMMA); [|reflexivity].
      now apply IHi.
Qed.

Lemma fuel_more (n m : nat) (s : str) :
  (n <= m)%nat -> scan_once n s <> OutOfFuel ->
  scan_once m s = scan_once n s.
Proof.
  intros Hle H. induction Hle as [|m Hle IH]; [reflexivity|].
  rewrite <- IH. apply fuel_step. now rewrite IH.
Qed.

(** ** The last character read *)

Lemma ends_here (c : char) (r : str) : EndsWith c r (c :: r).
Proof. now exists []. Qed.

Lemma ends_suffix (c : char) (r t s : str) :
  EndsWith c r t -> Suffix t s -> EndsWith c r s.
Proof.
  intros [body ->] [pre ->]. exists (pre ++ body). now rewrite <- app_assoc.
Qed.

Lemma scanstring_ends (n : nat) : forall (s acc v r : str),
  (length s <= n)%nat ->
  scanstring acc s = inr (v, r) -> EndsWith QUOTE r s.
Proof.
  induction n as [|n IH]; intros s acc v r Hlen H.
  - destruct s; [discriminate | simpl in Hlen; lia].
  - destruct s as [|c t]; [discriminate|].
    rewrite scanstring_cons in H. simpl in Hlen.
    destruct (c =? QUOTE) eqn:Eq.
    { apply N.eqb_eq in Eq. subst c. injection H as _ <-. apply ends_here. }
    repeat (break_match_in H; try discriminate);
      subst;
      (eapply ends_suffix;
       [ eapply IH; [|eassumption]; simpl in *; lia | suffix_steps ]).
Qed.

Lemma parse_items_ends (n : nat) : forall s acc v r,
  parse_items n s acc = Ok (v, r) -> EndsWith RBRACKET r s.
Proof.
  induction n as [|n IH]; intros s acc v r H; [discriminate|].
  simpl in H.
  destruct (scan_once n s) as [[v' r1]|e|] eqn:Hv; try discriminate.
  destruct (scanner_shape n) as (So & _ & _).
  destruct (So _ _ _ Hv) as (Hs1 & _ & _).
  destruct (skip_ws r1) as [|c r2] eqn:H1; [discriminate|].
  assert (Hs2 : Suffix (c :: r2) s).
  { rewrite <- H1. eapply suffix_trans; [apply suffix_skip_ws | exact Hs1]. }
  destruct (c =? RBRACKET) eqn:Ec.
  - apply N.eqb_eq in Ec. subst c. injection H as _ <-.
    eapply ends_suffix; [apply ends_here | exact Hs2].
  - destruct (c =? COMMA); [|discriminate].
    apply IH in H. eapply ends_suffix; [exact H|].
    eapply suffix_trans; [apply suffix_skip_ws|].
    eapply suffix_trans; [|exact Hs2]. apply suffix_cons, suffix_refl.
Qed.

Lemma value_char_digit (c : char) : is_digit c = true -> value_char c = true.
Proof. intros H. unfold value_char. now rewrite H. Qed.

Lemma value_char_eqb (c d : char) :
  (c =? d) = true -> value_char d = true -> value_char c = true.
Proof. intros H. apply N.eqb_eq in H. now subst. Qed.

Lemma value_char_plain (c : char) :
  value_char c = true ->
  isspace c = false /\ (c =? BACKTICK) = false /\ (c =? BOM) = false.
Proof.
  unfold value_char. intros H. apply orb_true_iff in H as [H|H].
  - unfold is_digit in H. apply andb_true_iff in H as [H1 H2].
    apply N.leb_le in H1, H2.
    assert (Hc : c = 48 \/ c = 49 \/ c = 50 \/ c = 51 \/ c = 52 \/ c = 53
                 \/ c = 54 \/ c = 55 \/ c = 56 \/ c = 57) by lia.
    repeat (destruct Hc as [->|Hc]; [repeat split|]). now subst.
  - apply existsb_exists in H as (x & Hin & Hx).
    apply N.eqb_eq in Hx. subst x.
    simpl in Hin.
    repeat (destruct Hin as [<-|Hin]; [repeat split|]). destruct Hin.
Qed.

Lemma span_digits_chars (s : str) : forall ds r,
  span_digits s = (ds, r) -> all_value_chars ds.
Proof.
  induction s as [|c s IH]; simpl; intros ds r H.
  - injection H as <- _. constructor.
  - destruct (is_digit c) eqn:Hc.
    + destruct (span_digits s) as [ds' r'].
      injection H as <- _. constructor; [now apply value_char_digit|].
      now apply (IH ds' r').
    + injection H as <- _. constructor.
Qed.

Lemma scan_sign_chars (s sg r : str) :
  scan_sign s = (sg, r) -> all_value_chars sg.
Proof.
  unfold scan_sign. destruct s as [|c t].
  - intros H. injection H as <- _. constructor.
  - destruct (c =? MINUS) eqn:Hc; intros H; injection H as <- _;
      [|constructor].
    constructor; [|constructor]. now apply (value_char_eqb _ _ Hc).
Qed.

Lemma scan_int_chars (s ip r : str) :
  scan_int s = Some (ip, r) -> all_value_chars ip.
Proof.
  unfold scan_int. destruct s as [|c t]; [discriminate|].
  destruct (c =? ZERO) eqn:Hz.
  - intros H. injection H as <- _.
    constructor; [|constructor]. now apply (value_char_eqb _ _ Hz).
  - destruct (is_digit c) eqn:Hd; [|discriminate].
    destruct (span_digits t) as [ds r'] eqn:Hs. intros H. injection H as <- _.
    constructor; [now apply value_char_digit|].
    now apply span_digits_chars in Hs.
Qed.

Lemma scan_frac_chars (s fr r : str) :
  scan_frac s = (fr, r) -> all_value_chars fr.
Proof.
  unfold scan_frac.
  destruct s as [|p [|d t]];
    try (intros H; injection H as <- _; constructor).
  destruct ((p =? DOT) && is_digit d) eqn:Hc.
  - apply andb_true_iff in Hc as [Hp Hd].
    destruct (span_digits t) as [ds r'] eqn:Hs. intros H. injection H as <- _.
    constructor; [now apply (value_char_eqb _ _ Hp)|].
    constructor; [now apply value_char_digit|].
    now apply span_digits_chars in Hs.
  - intros H; injection H as <- _; constructor.
Qed.

Lemma scan_exp_chars (s ex r : str) :
  scan_exp s = (ex, r) -> all_value_chars ex.
Proof.
  unfold scan_exp.
  destruct s as [|e t]; [intros H; injection H as <- _; constructor|].
  destruct ((e =? 101) || (e =? 69)) eqn:He;
    [| intros H; injection H as <- _; constructor ].
  assert (Hev : value_char e = true).
  { apply orb_true_iff in He as [He|He];
      now apply (value_char_eqb _ _ He). }
  intros H.
  assert (Hsg : exists sg t' ds rr,
            all_value_chars sg /\ span_digits t' = (ds, rr)
            /\ match ds with
               | [] => ([], e :: t)
               | _ :: _ => (e :: sg ++ ds, rr)
               end = (ex, r)).
  { destruct t as [|x y].
    - exists [], []. simpl in H |- *. eexists. eexists.
      split; [constructor|]. split; [reflexivity | exact H].
    - destruct ((x =? MINUS) || (x =? PLUS)) eqn:Hx.
      + destruct (span_digits y) as [ds rr] eqn:Hs.
        exists [x], y, ds, rr. split; [|auto].
        constructor; [|constructor].
        apply orb_true_iff in Hx as [Hx|Hx];
          now apply (value_char_eqb _ _ Hx).
      + destruct (span_digits (x :: y)) as [ds rr] eqn:Hs.
        exists [], (x :: y), ds, rr. split; [constructor | auto]. }
  destruct Hsg as (sg & t' & ds & rr & Hsgv & Hs & Hres).
  apply span_digits_chars in Hs.
  destruct ds; injection Hres as <- _; [constructor|].
  constructor; [exact Hev|]. apply Forall_app. now split.
Qed.

Lemma match_number_chars (s r : str) (v : JSON) :
  match_number s = inr (v, r) ->
  exists pre, s = pre ++ r /\ pre <> [] /\ all_value_chars pre.
Proof.
  unfold match_number.
  destruct (scan_sign s) as [sg s1] eqn:H1.
  pose proof (scan_sign_chars _ _ _ H1) as V1.
  apply scan_sign_spec in H1 as [-> _].
  destruct (scan_int s1) as [[ip r1]|] eqn:H2; [|discriminate].
  pose proof (scan_int_chars _ _ _ H2) as V2.
  apply scan_int_spec in H2 as (-> & _ & Nip).
  destruct (scan_frac r1) as [fr r2] eqn:H3.
  pose proof (scan_frac_chars _ _ _ H3) as V3.
  apply scan_frac_spec in H3 as [-> _].
  destruct (scan_exp r2) as [ex r3] eqn:H4.
  pose proof (scan_exp_chars _ _ _ H4) as V4.
  apply scan_exp_spec in H4 as [-> _].
  intros H. exists (sg ++ ip ++ fr ++ ex).
  assert (r = r3) as ->.
  { destruct fr, ex; try (injection H as _ <-; reflexivity).
    destruct (max_str_digits <? length ip)%nat; [discriminate|].
    injection H as _ <-. reflexivity. }
  split; [now rewrite <- !app_assoc|]. split.
  - intros E. apply app_eq_nil in E as [_ E]. apply app_eq_nil in E as [E _].
    now apply Nip.
  - repeat (apply Forall_app; split); auto.
Qed.

Lemma scan_scalar_chars (s r : str) (v : JSON) :
  scan_scalar s = inr (v, r) ->
  exists pre, s = pre ++ r /\ pre <> [] /\ all_value_chars pre.
Proof.
  unfold scan_scalar.
  repeat match goal with
  | |- context [if startswith ?p s then _ else _] =>
      destruct (startswith p s) eqn:?;
      [ intros H; injection H as _ <-; exists p;
        repeat split;
        [ now apply startswith_split | discriminate
        | repeat constructor ] |]
  end.
  apply match_number_chars.
Qed.

(** What [scan_once] reads starts and ends with a character that is not
    whitespace, and does not start with a backtick or a byte-order mark. *)
Lemma scan_once_ends (n : nat) (s r : str) (v : JSON) :
  scan_once n s = Ok (v, r) ->
  exists pre c, s = pre ++ c :: r /\ isspace c = false.
Proof.
  intros H. destruct n as [|n]; [discriminate|].
  destruct s as [|c t]; [discriminate|]. simpl in H.
  assert (Hends : forall d, EndsWith d r t -> isspace d = false ->
            exists pre c', c :: t = pre ++ c' :: r /\ isspace c' = false).
  { intros d [body ->] Hd. now exists (c :: body), d. }
  destruct (c =? QUOTE).
  { destruct (scanstring [] t) as [e|[x r']] eqn:Hs; [discriminate|].
    injection H as _ <-.
    apply (scanstring_ends _ _ _ _ _ (le_n _)) in Hs.
    now apply (Hends QUOTE). }
  destruct (c =? LBRACE).
  { apply (Hends RBRACE); [|reflexivity].
    destruct (scanner_shape n) as (_ & Sm & _).
    apply ends_suffix with (skip_ws t); [|apply suffix_skip_ws].
    destruct (skip_ws t) as [|d r0].
    - exact (Sm _ _ _ _ H).
    - destruct (d =? RBRACE) eqn:Ed; [|exact (Sm _ _ _ _ H)].
      apply N.eqb_eq in Ed. subst d. injection H as _ <-. apply ends_here. }
  destruct (c =? LBRACKET).
  { apply (Hends RBRACKET); [|reflexivity].
    apply ends_suffix with (skip_ws t); [|apply suffix_skip_ws].
    destruct (skip_ws t) as [|d r0].
    - now apply parse_items_ends in H.
    - destruct (d =? RBRACKET) eqn:Ed; [|now apply parse_items_ends in H].
      apply N.eqb_eq in Ed. subst d. injection H as _ <-. apply ends_here. }
  apply lift_ok, scan_scalar_chars in H as (pre & E & Hne & Hv).
  destruct (exists_last Hne) as (pre' & c' & ->).
  exists pre', c'. split; [rewrite E; now rewrite <- app_assoc|].
  apply Forall_app in Hv as [_ Hv]. inversion Hv as [|? ? Hc _]; subst.
  now apply value_char_plain in Hc.
Qed.

Lemma scan_once_first (n : nat) (c : char) (t : str) (x : JSON * str) :
  scan_once n (c :: t) = Ok x ->
  isspace c = false /\ (c =? BACKTICK) = false /\ (c =? BOM) = false.
Proof.
  intros H. destruct n as [|n]; [discriminate|]. simpl in H.
  destruct (c =? QUOTE) eqn:Eq.
  { apply N.eqb_eq in Eq. now subst. }
  destruct (c =? LBRACE) eqn:Eb.
  { apply N.eqb_eq in Eb. now subst. }
  destruct (c =? LBRACKET) eqn:Ek.
  { apply N.eqb_eq in Ek. now subst. }
  destruct x as [v r].
  apply lift_ok, scan_scalar_chars in H as (pre & E & Hne & Hv).
  destruct pre as [|c' pre]; [now elim Hne|].
  injection E as <- _. inversion Hv as [|? ? Hc _]; subst.
  now apply value_char_plain.
Qed.

End PrefixFacts.

(** * Further properties of trimming and splitting *)

Module TrimFacts.
Import PyStr Spec MoreSpec PyStrFacts SplitFacts.

Lemma dropwhile_app_all (p : char -> bool) (X t : str) :
  forallb p X = true -> dropwhile p (X ++ t) = dropwhile p t.
Proof.
  induction X as [|x X IH]; simpl; [reflexivity|].
  intros H. apply andb_true_iff in H as [Hx HX]. rewrite Hx. auto.
Qed.

Lemma forallb_rev (p : char -> bool) (s : str) :
  forallb p s = true -> forallb p (rev s) = true.
Proof.
  rewrite !forallb_forall. intros H x Hx. apply H. now apply in_rev.
Qed.

Lemma rstrip_by_app_all (p : char -> bool) (t Y : str) :
  forallb p Y = true -> rstrip_by p (t ++ Y) = rstrip_by p t.
Proof.
  intros H. unfold rstrip_by. rewrite rev_app_distr.
  now rewrite dropwhile_app_all by (now apply forallb_rev).
Qed.

Lemma dropwhile_app_kept (p : char -> bool) (s Y : str) :
  dropwhile p s <> [] -> dropwhile p (s ++ Y) = dropwhile p s ++ Y.
Proof.
  induction s as [|c s IH]; simpl; [now intros H; elim H|].
  destruct (p c); [exact IH | reflexivity].
Qed.

(** What [strip] removes is whitespace at both ends, and nothing else. *)
Lemma strip_by_split (p : char -> bool) (s : str) :
  exists X Y, s = X ++ strip_by p s ++ Y
              /\ forallb p X = true /\ forallb p Y = true.
Proof.
  destruct (dropwhile_split p s) as (X & E & HX).
  destruct (dropwhile_split p (rev (dropwhile p s))) as (Y & E' & HY).
  exists X, (rev Y). split; [|split; [exact HX | now apply forallb_rev]].
  unfold strip_by, lstrip_by, rstrip_by. rewrite <- rev_app_distr, <- E'.
  now rewrite rev_involutive.
Qed.

Lemma strip_by_nil_iff (p : char -> bool) (s : str) :
  strip_by p s = [] <-> forallb p s = true.
Proof.
  split.
  - intros H. destruct (strip_by_split p s) as (X & Y & E & HX & HY).
    rewrite H in E. rewrite E. simpl. rewrite forallb_app. now rewrite HX, HY.
  - intros H. unfold strip_by, lstrip_by. now rewrite dropwhile_all.
Qed.

(** Characters that are stripped anyway can be added at both ends. *)
Lemma strip_by_around (p : char -> bool) (X s Y : str) :
  forallb p X = true -> forallb p Y = true ->
  strip_by p (X ++ s ++ Y) = strip_by p s.
Proof.
  intros HX HY. unfold strip_by, lstrip_by.
  rewrite dropwhile_app_all by exact HX.
  destruct (dropwhile p s) as [|c u] eqn:E.
  - apply dropwhile_nil in E.
    rewrite dropwhile_all; [reflexivity|].
    rewrite forallb_app. now rewrite E, HY.
  - rewrite dropwhile_app_kept by (rewrite E; discriminate).
    rewrite E. now apply rstrip_by_app_all.
Qed.

Lemma strip_ends_in_word (s : str) : ends_in_word (strip s).
Proof.
  unfold ends_in_word, starts_in_word, strip, strip_by, rstrip_by.
  rewrite rev_involutive.
  destruct (dropwhile isspace (rev (lstrip_by isspace s))) eqn:E; [exact I|].
  now apply dropwhile_head in E.
Qed.

Lemma split_aux_trailing (Y : str) : forall (s cur : str),
  all_space Y = true -> split_aux cur (s ++ Y) = split_aux cur s.
Proof.
  intros s cur HY. revert cur. induction s as [|c s IH]; intros cur.
  - simpl. revert cur. induction Y as [|y Y IHY]; intros cur; [reflexivity|].
    simpl in HY. apply andb_true_iff in HY as [Hy HY]. simpl. rewrite Hy.
    destruct cur; [now apply (IHY HY []) | now rewrite (IHY HY [])].
  - simpl. destruct (isspace c); [|apply IH].
    destruct cur; now rewrite IH.
Qed.

(** The words of a text are the words of the trimmed text. *)
Lemma split_strip (s : str) : split (strip s) = split s.
Proof.
  destruct (strip_by_split isspace s) as (X & Y & E & HX & HY).
  fold (strip s) in E. rewrite E at 2. unfold split.
  rewrite split_aux_spaces by exact HX.
  now rewrite split_aux_trailing by exact HY.
Qed.

Lemma concat_split_aux (s : str) : forall cur : str,
  concat (split_aux cur s) = rev cur ++ without_space s.
Proof.
  induction s as [|c s IH]; intros cur; simpl.
  - destruct cur; simpl; now rewrite ?app_nil_r.
  - destruct (isspace c); simpl.
    + destruct cur; simpl; now rewrite IH.
    + rewrite IH. simpl. now rewrite <- app_assoc.
Qed.

(** The words, put end to end, are the text without its whitespace. *)
Lemma concat_split (s : str) : concat (split s) = without_space s.
Proof. apply (concat_split_aux s []). Qed.

Lemma without_space_all_space (s : str) :
  all_space s = true -> without_space s = [].
Proof.
  induction s as [|c s IH]; simpl; [reflexivity|].
  intros H. apply andb_true_iff in H as [Hc Hs]. rewrite Hc. simpl. auto.
Qed.

Lemma without_space_strip (s : str) :
  without_space (strip s) = without_space s.
Proof.
  destruct (strip_by_split isspace s) as (X & Y & E & HX & HY).
  fold (strip s) in E. rewrite E at 2. unfold without_space.
  rewrite !filter_app.
  fold (without_space X). fold (without_space Y).
  rewrite (without_space_all_space X HX), (without_space_all_space Y HY).
  simpl. now rewrite app_nil_r.
Qed.

Lemma split_nil_iff (s : str) : split s = [] <-> all_space s = true.
Proof.
  split.
  - intros H. pose proof (split_Tokenization s) as HT. rewrite H in HT.
    now inversion HT.
  - apply split_aux_all_space.
Qed.

End TrimFacts.

(** * Further properties of the handlers *)

Module HandlerFacts.
Import PyStr Json Pydantic App Spec MoreSpec PyStrFacts JsonFacts AppFacts
  TrimFacts PrefixFacts.

(** ** One call, one identifier *)

Lemma generate_rsvp_failure (world : World) (payload : RSVPIn.t)
  (tr : Trace) (e : HTTPException) :
  call_gemini world (rsvp_prompt payload) tr
  = (inl e, called (rsvp_prompt payload) tr) ->
  generate_rsvp world payload tr = (inl e, called (rsvp_prompt payload) tr).
Proof.
  intros H. unfold generate_rsvp, bind. fold (rsvp_prompt payload).
  now rewrite H.
Qed.

(** The ways [generate_rsvp] ends, by what the upstream call does. *)
Lemma generate_rsvp_cases (world : World) (payload : RSVPIn.t) (tr : Trace) :
  let reply :=
    generate_content world (length (calls tr)) (rsvp_prompt payload) in
  let res := generate_rsvp world payload tr in
  let sent := called (rsvp_prompt payload) tr in
  (no_content reply /\ res = (inl (error 502 NoContent), sent))
  \/ (exists e, (unreadable reply e \/ client_raises reply e)
                /\ res = (inl (error 500 (InternalServerError e)), sent))
  \/ (exists txt out,
        has_content reply txt /\ res = (inr out, drawn sent)
        /\ RSVPOut.id out = uuid4 world (minted tr)).
Proof.
  intros reply res sent.
  destruct (reply_cases reply) as [Hn|[(txt & Hc)|[(e & Hu)|(e & Hr)]]].
  - left. split; [exact Hn|]. apply generate_rsvp_failure.
    now apply call_gemini_no_content.
  - right. right. exists txt. unfold res, sent.
    rewrite (generate_rsvp_content _ _ _ _ Hc).
    eexists. split; [exact Hc|]. split; reflexivity.
  - right. left. exists e. split; [now left|].
    apply generate_rsvp_failure. now apply call_gemini_unreadable.
  - right. left. exists e. split; [now right|].
    apply generate_rsvp_failure. now apply call_gemini_client_raises.
Qed.

(** The ways [generate_quiz] ends, by what the upstream call does. *)
Lemma generate_quiz_cases (lax : Coercion) (world : World)
  (payload : QuizIn.t) (tr : Trace) :
  let reply :=
    generate_content world (length (calls tr)) (quiz_prompt payload) in
  let res := generate_quiz lax world payload tr in
  let sent := called (quiz_prompt payload) tr in
  (no_content reply /\ res = (inl (error 502 NoContent), sent))
  \/ (exists e, (unreadable reply e \/ client_raises reply e)
                /\ res = (inl (error 500 (InternalServerError e)), sent))
  \/ (exists txt e,
        has_content reply txt /\ safe_json_loads txt = inl e
        /\ res = (inl (error 502 (InvalidJSON e)), sent))
  \/ (exists txt data e,
        has_content reply txt /\ safe_json_loads txt = inr data
        /\ QuizPayload_new lax data = inl e
        /\ res = (inl (error 422 (InvalidStructure e)), sent))
  \/ (exists txt out,
        has_content reply txt /\ res = (inr out, drawn sent)
        /\ QuizOut.rsvp_session_id out = uuid4 world (minted tr)).
Proof.
  intros reply res sent.
  destruct (reply_cases reply) as [Hn|[(txt & Hc)|[(e & Hu)|(e & Hr)]]].
  - left. split; [exact Hn | now apply generate_quiz_no_content].
  - right. right. unfold res.
    rewrite (generate_quiz_content _ _ _ _ _ Hc), safe_json_loads_strip.
    destruct (safe_json_loads txt) as [e|data] eqn:Hj.
    { left. exists txt, e. auto. }
    destruct (QuizPayload_new lax data) as [e|quiz] eqn:Hq.
    { right. left. exists txt, data, e. auto. }
    right. right. exists txt. eexists. split; [exact Hc|].
    split; reflexivity.
  - right. left. exists e. split; [now left|].
    now apply generate_quiz_unreadable.
  - right. left. exists e. split; [now right|].
    now apply generate_quiz_client_raises.
Qed.

Lemma generate_rsvp_calls (world : World) (payload : RSVPIn.t) (tr : Trace) :
  calls (snd (generate_rsvp world payload tr))
  = calls tr ++ [rsvp_prompt payload].
Proof.
  destruct (generate_rsvp_cases world payload tr)
    as [(_ & ->)|[(e & _ & ->)|(txt & out & _ & -> & _)]]; reflexivity.
Qed.

Lemma generate_quiz_calls (lax : Coercion) (world : World)
  (payload : QuizIn.t) (tr : Trace) :
  calls (snd (generate_quiz lax world payload tr))
  = calls tr ++ [quiz_prompt payload].
Proof.
  destruct (generate_quiz_cases lax world payload tr)
    as [(_ & ->)|[(e & _ & ->)|[(txt & e & _ & _ & ->)
       |[(txt & data & e & _ & _ & _ & ->)|(txt & out & _ & -> & _)]]]];
    reflexivity.
Qed.

(** X1: [generate_rsvp] sends exactly one prompt upstream, whatever the
    upstream call does.  It fails with 502 when there is no response or no
    candidate, and with the exception itself, which nothing catches and the
    framework answers with 500, when the client raises or the text of the
    reply cannot be read; a failure draws no identifier.  Otherwise it
    draws exactly one identifier and returns it as [id]. *)
Theorem generate_rsvp_one_call (world : World) (payload : RSVPIn.t)
  (tr : Trace) :
  let reply :=
    generate_content world (length (calls tr)) (rsvp_prompt payload) in
  let res := generate_rsvp world payload tr in
  one_call (rsvp_prompt payload) tr res
  /\ ((no_content reply /\ fst res = inl (error 502 NoContent))
      \/ (exists e, (unreadable reply e \/ client_raises reply e)
                    /\ fst res = inl (error 500 (InternalServerError e)))
      \/ exists txt out,
           has_content reply txt /\ fst res = inr out
           /\ RSVPOut.id out = uuid4 world (minted tr)).
Proof.
  intros reply res. unfold one_call.
  destruct (generate_rsvp_cases world payload tr)
    as [(Hn & E)|[(e & He & E)|(txt & out & Hc & E & Hid)]];
    fold res in E; rewrite E; simpl.
  - split; [auto|]. left. auto.
  - split; [auto|]. right. left. exists e. auto.
  - split; [auto|]. right. right. exists txt, out. auto.
Qed.

(** X2: [generate_quiz] sends exactly one prompt upstream, whatever the
    upstream call does.  It fails with 502 when there is no response or no
    candidate, and with the exception itself, which nothing catches and the
    framework answers with 500, when the client raises or the text of the
    reply cannot be read.  For a reply whose text is read, it fails with
    502 (not JSON) or 422 (wrong structure), or returns a result.  A
    failure draws no identifier; a result carries the one identifier
    drawn. *)
Theorem generate_quiz_one_call (lax : Coercion) (world : World)
  (payload : QuizIn.t) (tr : Trace) :
  let reply :=
    generate_content world (length (calls tr)) (quiz_prompt payload) in
  let res := generate_quiz lax world payload tr in
  one_call (quiz_prompt payload) tr res
  /\ ((no_content reply /\ fst res = inl (error 502 NoContent))
      \/ (exists e, (unreadable reply e \/ client_raises reply e)
                    /\ fst res = inl (error 500 (InternalServerError e)))
      \/ (exists txt,
            has_content reply txt
            /\ ((exists e, fst res = inl (error 502 (InvalidJSON e)))
                \/ (exists e, fst res = inl (error 422 (InvalidStructure e)))
                \/ exists out,
                     fst res = inr out
                     /\ QuizOut.rsvp_session_id out
                        = uuid4 world (minted tr)))).
Proof.
  intros reply res. unfold one_call.
  destruct (generate_quiz_cases lax world payload tr)
    as [(Hn & E)|[(e & He & E)|[(txt & e & Hc & Hj & E)
       |[(txt & data & e & Hc & Hj & Hq & E)|(txt & out & Hc & E & Hid)]]]];
    fold res in E; rewrite E; simpl.
  - split; [auto|]. left. auto.
  - split; [auto|]. right. left. exists e. auto.
  - split; [auto|]. right. right. exists txt. split; [exact Hc|].
    left. now exists e.
  - split; [auto|]. right. right. exists txt. split; [exact Hc|].
    right. left. now exists e.
  - split; [auto|]. right. right. exists txt. split; [exact Hc|].
    right. right. exists out. auto.
Qed.

(** A candidate without readable text: one prompt sent, no identifier
    drawn, and the exception of [resp.text] as the outcome. *)
Example blocked_reply_500 :
  generate_rsvp (blocked Examples.ids) Examples.rsvp_payload start
  = (inl (error 500 (InternalServerError ValueError)),
     called (rsvp_prompt Examples.rsvp_payload) start).
Proof. reflexivity. Qed.

Lemma generate_content_example (txt : str) (prompt : Prompt) (tr : Trace) :
  has_content
    (generate_content (replying txt Examples.ids) (length (calls tr)) prompt)
    txt.
Proof. apply replying_content. Qed.

(** ** The passage and the reply it comes from *)

(** X3: The text [generate_rsvp] returns is the model's reply with whitespace
    taken off both ends and nothing else: the reply is the text between two
    runs of whitespace, and the text neither starts nor ends with a
    whitespace character. *)
Theorem rsvp_text_is_trimmed_reply (world : World) (payload : RSVPIn.t)
  (tr tr' : Trace) (txt : str) (out : RSVPOut.t) :
  has_content
    (generate_content world (length (calls tr)) (rsvp_prompt payload)) txt ->
  generate_rsvp world payload tr = (inr out, tr') ->
  (exists lead trail,
      txt = lead ++ RSVPOut.texto out ++ trail
      /\ all_space lead = true /\ all_space trail = true)
  /\ starts_in_word (RSVPOut.texto out)
  /\ ends_in_word (RSVPOut.texto out).
Proof.
  intros Hc H. rewrite (generate_rsvp_content _ _ _ _ Hc) in H.
  injection H as <- _. simpl.
  split; [apply (strip_by_split isspace) |].
  split; [apply strip_starts_in_word | apply strip_ends_in_word].
Qed.

Lemma rsvp_text_is_trimmed_reply_witness :
  exists lead trail,
    lit "  hola mundo " = lead ++ lit "hola mundo" ++ trail
    /\ all_space lead = true /\ all_space trail = true.
Proof.
  exact (proj1 (rsvp_text_is_trimmed_reply
                  (replying (lit "  hola mundo ") Examples.ids)
                  Examples.rsvp_payload start _ _
                  {| RSVPOut.id := Examples.ids 0;
                     RSVPOut.texto := lit "hola mundo";
                     RSVPOut.palabras := [lit "hola"; lit "mundo"] |}
                  (generate_content_example _ _ _) eq_refl)).
Defined.

(** X4: The words [generate_rsvp] returns are the words of the reply as the
    model sent it: trimming the reply first changes none of them. *)
Theorem rsvp_words_of_reply (world : World) (payload : RSVPIn.t)
  (tr tr' : Trace) (txt : str) (out : RSVPOut.t) :
  has_content
    (generate_content world (length (calls tr)) (rsvp_prompt payload)) txt ->
  generate_rsvp world payload tr = (inr out, tr') ->
  RSVPOut.palabras out = split txt.
Proof.
  intros Hc H. rewrite (generate_rsvp_content _ _ _ _ Hc) in H.
  injection H as <- _. simpl. apply split_strip.
Qed.

Lemma rsvp_words_of_reply_witness :
  [lit "hola"; lit "mundo"] = split (lit "  hola mundo ").
Proof.
  exact (rsvp_words_of_reply
           (replying (lit "  hola mundo ") Examples.ids)
           Examples.rsvp_payload start _ _
           {| RSVPOut.id := Examples.ids 0;
              RSVPOut.texto := lit "hola mundo";
              RSVPOut.palabras := [lit "hola"; lit "mundo"] |}
           (generate_content_example _ _ _) eq_refl).
Defined.

(** X5: No character is lost or moved between the reply and the words: the
    words put end to end are the characters of the reply that are not
    whitespace, in order (and those of the returned text as well). *)
Theorem rsvp_words_keep_characters (world : World) (payload : RSVPIn.t)
  (tr tr' : Trace) (txt : str) (out : RSVPOut.t) :
  has_content
    (generate_content world (length (calls tr)) (rsvp_prompt payload)) txt ->
  generate_rsvp world payload tr = (inr out, tr') ->
  concat (RSVPOut.palabras out) = without_space txt
  /\ concat (RSVPOut.palabras out) = without_space (RSVPOut.texto out).
Proof.
  intros Hc H. rewrite (generate_rsvp_content _ _ _ _ Hc) in H.
  injection H as <- _. simpl. rewrite concat_split.
  split; [apply without_space_strip | reflexivity].
Qed.

Lemma rsvp_words_keep_characters_witness :
  concat [lit "hola"; lit "mundo"] = without_space (lit "  hola mundo ").
Proof.
  exact (proj1 (rsvp_words_keep_characters
                  (replying (lit "  hola mundo ") Examples.ids)
                  Examples.rsvp_payload start _ _
                  {| RSVPOut.id := Examples.ids 0;
                     RSVPOut.texto := lit "hola mundo";
                     RSVPOut.palabras := [lit "hola"; lit "mundo"] |}
                  (generate_content_example _ _ _) eq_refl)).
Defined.

(** X6: A reply of whitespace only is not an error: [generate_rsvp] returns an
    empty text and no words for it.  The list of words is empty exactly
    when the text is, and the text is empty exactly when the reply holds
    nothing but whitespace. *)
Theorem rsvp_blank_reply (world : World) (payload : RSVPIn.t)
  (tr : Trace) (txt : str) :
  has_content
    (generate_content world (length (calls tr)) (rsvp_prompt payload)) txt ->
  exists out tr',
    generate_rsvp world payload tr = (inr out, tr')
    /\ (RSVPOut.palabras out = [] <-> RSVPOut.texto out = [])
    /\ (RSVPOut.texto out = [] <-> all_space txt = true).
Proof.
  intros Hc. rewrite (generate_rsvp_content _ _ _ _ Hc).
  eexists. eexists. split; [reflexivity|]. simpl. split.
  - rewrite split_nil_iff. unfold strip, all_space.
    rewrite <- (strip_by_nil_iff isspace (strip_by isspace txt)).
    now rewrite strip_by_idem.
  - apply strip_by_nil_iff.
Qed.

Lemma rsvp_blank_reply_witness :
  exists out tr',
    generate_rsvp (replying [32; 10; 9] Examples.ids) Examples.rsvp_payload
      start = (inr out, tr')
    /\ (RSVPOut.palabras out = [] <-> RSVPOut.texto out = [])
    /\ (RSVPOut.texto out = [] <-> all_space [32; 10; 9] = true).
Proof.
  exact (rsvp_blank_reply (replying [32; 10; 9] Examples.ids)
           Examples.rsvp_payload start _ (generate_content_example _ _ _)).
Defined.

(** ** The reply and the quiz *)

Lemma validate_each_Forall2 {A} (f : JSON -> option A) (l : list JSON)
  (r : list A) :
  validate_each f l = Some r -> Forall2 (fun v a => f v = Some a) l r.
Proof.
  revert r. induction l as [|v l IH]; intros r H; simpl in H.
  - injection H as <-. constructor.
  - destruct (f v) as [a|] eqn:Hv; [|discriminate].
    destruct (validate_each f l) as [r'|]; [|discriminate].
    injection H as <-. constructor; auto.
Qed.

Lemma validate_each_invalid {A} (f : JSON -> option A) (l : list JSON)
  (v : JSON) :
  In v l -> f v = None -> validate_each f l = None.
Proof.
  intros Hin Hv. destruct (validate_each f l) as [r|] eqn:E; [|reflexivity].
  destruct (validate_each_In _ _ _ _ E Hin) as [a Ha]. congruence.
Qed.

(** X7: A reply that parses to an object without a [texto] key or without a
    [preguntas] key is answered with 422, whatever else it holds. *)
Theorem quiz_missing_key (lax : Coercion) (world : World)
  (payload : QuizIn.t) (tr : Trace) (txt : str)
  (m : list (str * JSON)) :
  has_content
    (generate_content world (length (calls tr)) (quiz_prompt payload)) txt ->
  safe_json_loads txt = inr (JObject m) ->
  dict_get (lit "texto") m = None \/ dict_get (lit "preguntas") m = None ->
  generate_quiz lax world payload tr
  = (inl (error 422 (InvalidStructure ValidationError)),
     called (quiz_prompt payload) tr).
Proof.
  intros Hc Hj Hk. rewrite (generate_quiz_content _ _ _ _ _ Hc).
  rewrite safe_json_loads_strip, Hj. simpl.
  unfold QuizPayload.validate_fields, required.
  destruct Hk as [Hk|Hk]; rewrite Hk; [reflexivity|].
  now destruct (dict_get (lit "texto") m) as [v|]; [destruct (validate_str lax v)|].
Qed.

Lemma quiz_missing_key_witness :
  generate_quiz strict (replying only_summary Examples.ids)
    Examples.quiz_payload start
  = (inl (error 422 (InvalidStructure ValidationError)),
     called (quiz_prompt Examples.quiz_payload) start).
Proof.
  apply (quiz_missing_key strict (replying only_summary Examples.ids)
           Examples.quiz_payload start _ only_summary_object
           (generate_content_example _ _ _) eq_refl).
  right. reflexivity.
Defined.

(** X8: No partial quiz: when one element of the reply's [preguntas] is not a
    valid question, the whole reply is answered with 422, however many
    valid questions stand beside it. *)
Theorem quiz_one_invalid_question (lax : Coercion) (world : World)
  (payload : QuizIn.t) (tr : Trace) (txt : str)
  (m : list (str * JSON)) (qs : list JSON) (v : JSON) :
  has_content
    (generate_content world (length (calls tr)) (quiz_prompt payload)) txt ->
  safe_json_loads txt = inr (JObject m) ->
  dict_get (lit "preguntas") m = Some (JArray qs) ->
  In v qs -> QuizItem.validate lax v = None ->
  generate_quiz lax world payload tr
  = (inl (error 422 (InvalidStructure ValidationError)),
     called (quiz_prompt payload) tr).
Proof.
  intros Hc Hj Hk Hin Hv. rewrite (generate_quiz_content _ _ _ _ _ Hc).
  rewrite safe_json_loads_strip, Hj. simpl.
  unfold QuizPayload.validate_fields.
  destruct (required (validate_str lax) (lit "texto") m); [|reflexivity].
  unfold required. rewrite Hk. simpl.
  now rewrite (validate_each_invalid _ _ _ Hin Hv).
Qed.

Lemma quiz_one_invalid_question_witness :
  generate_quiz strict (replying one_bad_question Examples.ids)
    Examples.quiz_payload start
  = (inl (error 422 (InvalidStructure ValidationError)),
     called (quiz_prompt Examples.quiz_payload) start).
Proof.
  apply (quiz_one_invalid_question strict
           (replying one_bad_question Examples.ids)
           Examples.quiz_payload start _ one_bad_question_object
           [JObject good_question; JObject bad_question]
           (JObject bad_question)
           (generate_content_example _ _ _) eq_refl eq_refl).
  - right. left. reflexivity.
  - reflexivity.
Defined.

(** X9: A quiz that is returned holds every element of the reply's
    [preguntas], validated, in the order of the reply: as many items as the
    model sent, whatever number was asked for. *)
Theorem quiz_items_follow_reply (lax : Coercion) (world : World)
  (payload : QuizIn.t) (tr tr' : Trace) (txt : str) (out : QuizOut.t) :
  has_content
    (generate_content world (length (calls tr)) (quiz_prompt payload)) txt ->
  generate_quiz lax world payload tr = (inr out, tr') ->
  exists m qs,
    safe_json_loads txt = inr (JObject m)
    /\ dict_get (lit "preguntas") m = Some (JArray qs)
    /\ Forall2 (fun v q => QuizItem.validate lax v = Some q)
         qs (QuizOut.preguntas out)
    /\ length (QuizOut.preguntas out) = length qs.
Proof.
  intros Hc H. rewrite (generate_quiz_content _ _ _ _ _ Hc) in H.
  rewrite safe_json_loads_strip in H.
  destruct (safe_json_loads txt) as [e|data]; [discriminate|].
  destruct data; try discriminate. simpl in H.
  unfold QuizPayload.validate_fields in H.
  destruct (required (validate_str lax) (lit "texto") members);
    [|discriminate].
  unfold required in H.
  destruct (dict_get (lit "preguntas") members) as [v|] eqn:Hk;
    [|discriminate].
  destruct v; try discriminate. simpl in H.
  destruct (validate_each (QuizItem.validate lax) items) as [qs|] eqn:E;
    [|discriminate].
  injection H as <- _. simpl. exists members, items.
  repeat split; auto.
  - now apply validate_each_Forall2.
  - now apply validate_each_length in E.
Qed.

Lemma quiz_items_follow_reply_witness :
  exists m qs,
    safe_json_loads Examples.three_questions = inr (JObject m)
    /\ dict_get (lit "preguntas") m = Some (JArray qs)
    /\ Forall2 (fun v q => QuizItem.validate strict v = Some q)
         qs Examples.three_items
    /\ length Examples.three_items = length qs.
Proof.
  exact (quiz_items_follow_reply strict
           (replying Examples.three_questions Examples.ids)
           Examples.quiz_payload start _ _
           {| QuizOut.rsvp_session_id := Examples.ids 0;
              QuizOut.preguntas := Examples.three_items |}
           (generate_content_example _ _ _) eq_refl).
Defined.

(** ** Keys the schemas do not know *)

Lemma dict_get_other (key k : str) (v : JSON) (m1 m2 : list (str * JSON)) :
  str_eqb k key = false ->
  dict_get key (m1 ++ (k, v) :: m2) = dict_get key (m1 ++ m2).
Proof.
  intros Hk. induction m1 as [|[k1 v1] m1 IH]; simpl.
  - rewrite Hk. now destruct (dict_get key m2).
  - now rewrite IH.
Qed.

(** X10: A key the schema does not declare is ignored, wherever it stands in the
    object: a reply and a question validate the same with and without
    it. *)
Theorem unknown_keys_ignored (lax : Coercion) (k : str) (v : JSON)
  (m1 m2 : list (str * JSON)) :
  (payload_key k = false ->
   QuizPayload_new lax (JObject (m1 ++ (k, v) :: m2))
   = QuizPayload_new lax (JObject (m1 ++ m2)))
  /\ (item_key k = false ->
      QuizItem.validate lax (JObject (m1 ++ (k, v) :: m2))
      = QuizItem.validate lax (JObject (m1 ++ m2))).
Proof.
  split; intros H.
  - unfold payload_key in H. apply orb_false_iff in H as [H1 H2].
    simpl. unfold QuizPayload.validate_fields, required.
    now rewrite !dict_get_other by assumption.
  - unfold item_key in H.
    repeat (apply orb_false_iff in H as [H ?]).
    simpl. unfold QuizItem.validate_fields, required.
    now rewrite !dict_get_other by assumption.
Qed.

Lemma unknown_keys_ignored_witness :
  QuizItem.validate strict
    (JObject ([] ++ difficulty :: good_question))
  = QuizItem.validate strict (JObject ([] ++ good_question)).
Proof.
  exact (proj2 (unknown_keys_ignored strict (lit "dificultad") (JInt 3)
                  [] good_question) eq_refl).
Defined.

(** ** What the routes send upstream *)

Lemma QuizIn_validate_bounds (lax : Coercion) (body : JSON) (p : QuizIn.t) :
  QuizIn.validate lax body = Some p ->
  (3 <= QuizIn.num_preguntas p <= 12)%Z.
Proof.
  unfold QuizIn.validate. destruct body; try discriminate.
  destruct (required _ _ _); [|discriminate].
  unfold with_default, bounded_int.
  destruct (dict_get (lit "num_preguntas") members) as [v|].
  - destruct (validate_int lax v) as [z|]; [|discriminate].
    destruct ((3 <=? z)%Z && (z <=? 12)%Z) eqn:Hb; [|discriminate].
    intros H. injection H as <-. simpl.
    apply andb_true_iff in Hb as [H1 H2].
    apply Z.leb_le in H1, H2. lia.
  - intros H. injection H as <-. simpl. lia.
Qed.

(** X11: Whatever the body, a route either answers 422 itself and leaves the
    trace alone, or sends exactly one prompt, and the number in that prompt
    is within the declared bounds: a word count in [80, 800] for
    [/api/rsvp], a question count in [3, 12] for [/api/quiz]. *)
Theorem routes_send_bounded_prompts (lax : Coercion) (world : World)
  (body : JSON) (tr : Trace) :
  (post_api_rsvp lax world body tr
   = (inl (error 422 RequestValidation), tr)
   \/ exists topic n,
        calls (snd (post_api_rsvp lax world body tr))
        = calls tr ++ [PROMPT_TEXTO topic n]
        /\ (80 <= n <= 800)%Z)
  /\ (post_api_quiz lax world body tr
      = (inl (error 422 RequestValidation), tr)
      \/ exists texto n,
           calls (snd (post_api_quiz lax world body tr))
           = calls tr ++ [PROMPT_QUIZ texto n]
           /\ (3 <= n <= 12)%Z).
Proof.
  split.
  - unfold post_api_rsvp, route.
    destruct (RSVPIn.validate lax body) as [p|] eqn:E; [|now left].
    right. exists (RSVPIn.topic p), (RSVPIn.palabras_objetivo p).
    split; [|now apply RSVPIn_validate_bounds in E].
    apply generate_rsvp_calls.
  - unfold post_api_quiz, route.
    destruct (QuizIn.validate lax body) as [p|] eqn:E; [|now left].
    right. exists (QuizIn.texto p), (QuizIn.num_preguntas p).
    split; [|now apply QuizIn_validate_bounds in E].
    apply generate_quiz_calls.
Qed.

(** X12: A body that leaves out [palabras_objetivo] or [num_preguntas] gets the
    declared default, 250 or 5; a body that gives one gets the integer its
    value converts to. *)
Theorem request_defaults (lax : Coercion) (m : list (str * JSON)) :
  (forall p, RSVPIn.validate lax (JObject m) = Some p ->
     match dict_get (lit "palabras_objetivo") m with
     | None => RSVPIn.palabras_objetivo p = 250%Z
     | Some v => validate_int lax v = Some (RSVPIn.palabras_objetivo p)
     end
     /\ match dict_get (lit "num_preguntas") m with
        | None => RSVPIn.num_preguntas p = 5%Z
        | Some v => validate_int lax v = Some (RSVPIn.num_preguntas p)
        end)
  /\ (forall p, QuizIn.validate lax (JObject m) = Some p ->
       match dict_get (lit "num_preguntas") m with
       | None => QuizIn.num_preguntas p = 5%Z
       | Some v => validate_int lax v = Some (QuizIn.num_preguntas p)
       end).
Proof.
  assert (Hb : forall lo hi v z,
             bounded_int lax lo hi v = Some z -> validate_int lax v = Some z).
  { unfold bounded_int. intros lo hi v z.
    destruct (validate_int lax v) as [z'|]; [|discriminate].
    destruct ((lo <=? z')%Z && (z' <=? hi)%Z); congruence. }
  split; intros p.
  - unfold RSVPIn.validate. destruct (required _ _ m); [|discriminate].
    unfold with_default.
    destruct (dict_get (lit "palabras_objetivo") m) as [v1|];
      destruct (dict_get (lit "num_preguntas") m) as [v2|];
      repeat match goal with
      | |- context [bounded_int lax ?lo ?hi ?v] =>
          destruct (bounded_int lax lo hi v) eqn:?; try discriminate
      end;
      intros H; injection H as <-; simpl; eauto.
  - unfold QuizIn.validate. destruct (required _ _ m); [|discriminate].
    unfold with_default.
    destruct (dict_get (lit "num_preguntas") m) as [v|].
    + destruct (bounded_int lax 3 12 v) eqn:E; [|discriminate].
      intros H; injection H as <-; simpl; eauto.
    + intros H; injection H as <-. reflexivity.
Qed.

Lemma request_defaults_witness :
  RSVPIn.validate strict (JObject only_topic)
  = Some {| RSVPIn.topic := lit "el mar"; RSVPIn.palabras_objetivo := 250;
            RSVPIn.num_preguntas := 5 |}
  /\ (250 = 250 /\ 5 = 5)%Z.
Proof.
  split; [reflexivity|].
  exact (proj1 (request_defaults strict only_topic) _ eq_refl).
Defined.

Example only_topic_defaults :
  post_api_rsvp strict (replying (lit "hola") Examples.ids)
    (JObject only_topic) start
  = (inr {| RSVPOut.id := Examples.ids 0; RSVPOut.texto := lit "hola";
            RSVPOut.palabras := [lit "hola"] |},
     {| calls := [PROMPT_TEXTO (lit "el mar") 250]; minted := 1 |}).
Proof. reflexivity. Qed.

(** ** Whitespace around the reply *)

Lemma strip_around (lead s trail : str) :
  all_space lead = true -> all_space trail = true ->
  strip (lead ++ s ++ trail) = strip s.
Proof. apply strip_by_around. Qed.

(** X13: Whitespace before and after the reply, of any kind [str.strip] knows,
    never changes what the normalizer returns, nor the answer of
    [generate_quiz]. *)
Theorem normalizer_ignores_outer_whitespace (lead s trail : str) :
  all_space lead = true -> all_space trail = true ->
  safe_json_loads (lead ++ s ++ trail) = safe_json_loads s
  /\ forall lax ids payload tr,
       generate_quiz lax (replying (lead ++ s ++ trail) ids) payload tr
       = generate_quiz lax (replying s ids) payload tr.
Proof.
  intros H1 H2.
  assert (E : safe_json_loads (lead ++ s ++ trail) = safe_json_loads s)
    by (apply safe_json_loads_same_strip; now apply strip_around).
  split; [exact E|]. intros lax ids payload tr.
  rewrite (generate_quiz_content lax (replying (lead ++ s ++ trail) ids)
             payload tr (lead ++ s ++ trail)) by apply replying_content.
  rewrite (generate_quiz_content lax (replying s ids) payload tr s)
    by apply replying_content.
  now rewrite !safe_json_loads_strip, E.
Qed.

(** A no-break space in front and an ideographic space behind. *)
Lemma normalizer_ignores_outer_whitespace_witness :
  safe_json_loads ([160] ++ Examples.small_text ++ [12288])
  = safe_json_loads Examples.small_text
  /\ loads ([160] ++ Examples.small_text ++ [12288]) = inl ExpectingValue.
Proof.
  split; [|reflexivity].
  exact (proj1 (normalizer_ignores_outer_whitespace [160]
                  Examples.small_text [12288] eq_refl eq_refl)).
Defined.

(** ** Fenced replies without an object *)

Lemma rfind_none (c : char) (s : str) : ~ In c s -> rfind c s = None.
Proof.
  intros H. unfold rfind. rewrite find_none; [reflexivity|].
  now rewrite <- in_rev.
Qed.

Lemma opens_no_value_spec (c : char) :
  opens_no_value c = true ->
  isspace c = false /\ (c =? BACKTICK) = false /\ (c =? BOM) = false
  /\ (c =? QUOTE) = false /\ (c =? LBRACE) = false
  /\ (c =? LBRACKET) = false /\ (c =? MINUS) = false
  /\ is_digit c = false
  /\ (c =? 110) = false /\ (c =? 116) = false /\ (c =? 102) = false
  /\ (c =? 78) = false /\ (c =? 73) = false.
Proof.
  unfold opens_no_value. intros H.
  repeat (apply andb_true_iff in H as [H ?]).
  repeat split; now apply negb_true_iff.
Qed.

Lemma startswith_head (a c : char) (p t : str) :
  (c =? a) = false -> startswith (a :: p) (c :: t) = false.
Proof. intros H. simpl. now rewrite N.eqb_sym, H. Qed.

Lemma opens_no_value_loads (c : char) (t : str) :
  opens_no_value c = true -> loads (c :: t) = inl ExpectingValue.
Proof.
  intros H. apply opens_no_value_spec in H
    as (Hsp & Hbt & Hbom & Hq & Hb & Hk & Hm & Hd & Hn & Ht & Hf & HN & HI).
  assert (Hw : is_ws c = false).
  { destruct (is_ws c) eqn:E; [|reflexivity].
    apply is_ws_isspace in E. congruence. }
  assert (Hs : scan_scalar (c :: t) = inl ExpectingValue).
  { unfold scan_scalar.
    change (lit "null") with (110 :: lit "ull").
    change (lit "true") with (116 :: lit "rue").
    change (lit "false") with (102 :: lit "alse").
    change (lit "NaN") with (78 :: lit "aN").
    change (lit "Infinity") with (73 :: lit "nfinity").
    change (lit "-Infinity") with (MINUS :: lit "Infinity").
    rewrite !startswith_head by assumption.
    unfold match_number, scan_sign. rewrite Hm. unfold scan_int.
    replace (c =? ZERO) with false; [now rewrite Hd|].
    symmetry. apply N.eqb_neq. intros ->. discriminate. }
  unfold loads. rewrite (startswith_head BOM c [] t Hbom).
  unfold skip_ws. simpl dropwhile. rewrite Hw.
  cbn [scan_once Nat.mul Nat.add length]. rewrite Hq, Hb, Hk, Hs.
  reflexivity.
Qed.

(** X14: A fenced reply in which no pair of braces is found keeps its label: the
    backticks are taken off and the rest goes to the parser as it is.  When
    the label starts with a character no JSON value starts with, as json
    does, the reply fails to parse, also when the block holds valid JSON
    such as an array. *)
Theorem fenced_without_braces (c : char) (rest : str) :
  opens_no_value c = true ->
  ~ In LBRACE rest \/ ~ In RBRACE (c :: rest) ->
  safe_json_loads (lit "```" ++ c :: rest) = inl ExpectingValue.
Proof.
  intros Hc Hb.
  pose proof (opens_no_value_spec c Hc)
    as (Hsp & Hbt & _ & _ & Hlb & _).
  unfold safe_json_loads.
  assert (E1 : strip (lit "```" ++ c :: rest)
               = lit "```" ++ c :: rstrip_by isspace rest).
  { unfold strip, strip_by, lstrip_by.
    change (dropwhile isspace (lit "```" ++ c :: rest))
      with (lit "```" ++ c :: rest).
    now apply rstrip_by_app_stop. }
  rewrite E1.
  change (startswith (lit "```")
            (lit "```" ++ c :: rstrip_by isspace rest)) with true.
  cbv iota.
  set (p := fun x : char => existsb (N.eqb x) (lit "`")).
  assert (Hp : p c = false)
    by (apply backtick_strip_keeps; now apply N.eqb_neq).
  assert (E2 : strip_chars (lit "`")
                 (lit "```" ++ c :: rstrip_by isspace rest)
               = c :: rstrip_by p (rstrip_by isspace rest)).
  { unfold strip_chars, strip_by, lstrip_by. fold p.
    change (dropwhile p (lit "```" ++ c :: rstrip_by isspace rest))
      with (if p c then dropwhile p (rstrip_by isspace rest)
            else c :: rstrip_by isspace rest).
    rewrite Hp.
    apply (rstrip_by_app_stop p [] (rstrip_by isspace rest) c Hp). }
  rewrite E2.
  set (R := rstrip_by p (rstrip_by isspace rest)).
  assert (HR : forall x, In x R -> In x rest).
  { intros x Hx. unfold R in Hx.
    now apply rstrip_by_In, rstrip_by_In in Hx. }
  assert (Hcase : find LBRACE (c :: R) = None \/ rfind RBRACE (c :: R) = None).
  { destruct Hb as [Hb|Hb].
    - left. apply find_none. intros [->|Hx]; [discriminate | auto].
    - right. apply rfind_none. intros [Hx|Hx]; apply Hb;
        [now left | right; auto]. }
  assert (E3 : match find LBRACE (c :: R), rfind RBRACE (c :: R) with
               | Some i, Some j => slice i (j + 1) (c :: R)
               | _, _ => c :: R
               end = c :: R).
  { destruct Hcase as [E|E]; rewrite E; [reflexivity|].
    now destruct (find LBRACE (c :: R)). }
  rewrite E3. now apply opens_no_value_loads.
Qed.

Lemma fenced_without_braces_witness :
  safe_json_loads fenced_array = inl ExpectingValue
  /\ loads (lit "[1, 2]") = inr (JArray [JInt 1; JInt 2]).
Proof.
  split; [|reflexivity].
  apply (fenced_without_braces 106
           (lit "son" ++ [10] ++ lit "[1, 2]" ++ [10] ++ lit "```") eq_refl).
  left. simpl. intuition discriminate.
Defined.

(** X15: A fenced reply whose last closing brace comes before its first opening
    brace is cut down to nothing, and fails to parse as the empty text. *)
Theorem fenced_inverted_braces (A B C : str) :
  ~ In LBRACE A -> ~ In LBRACE B -> ~ In RBRACE B -> ~ In RBRACE C ->
  safe_json_loads
    (lit "```" ++ A ++ RBRACE :: B ++ LBRACE :: C ++ lit "```")
  = inl ExpectingValue.
Proof.
  intros HA HBl HBr HC. unfold safe_json_loads, strip.
  pose (X1 := lit "```" ++ A). pose (Y1 := C ++ lit "```").
  assert (E0 : lit "```" ++ A ++ RBRACE :: B ++ LBRACE :: C ++ lit "```"
               = X1 ++ RBRACE :: B ++ LBRACE :: Y1)
    by (unfold X1, Y1; now rewrite <- app_assoc).
  rewrite E0. clear E0.
  rewrite strip_by_core by reflexivity.
  assert (E1 : dropwhile isspace X1 = X1) by reflexivity.
  assert (E2 : rstrip_by isspace Y1 = Y1).
  { unfold Y1. change (lit "```") with ([BACKTICK; BACKTICK] ++ [BACKTICK]).
    rewrite app_assoc.
    rewrite (rstrip_by_app_stop isspace _ [] BACKTICK) by reflexivity.
    reflexivity. }
  rewrite E1, E2.
  assert (Hsw : startswith (lit "```") (X1 ++ RBRACE :: B ++ LBRACE :: Y1)
                = true) by reflexivity.
  rewrite Hsw. unfold strip_chars.
  rewrite strip_by_core by reflexivity.
  set (p := fun c : char => existsb (N.eqb c) (lit "`")).
  set (X2 := dropwhile p X1). set (Y2 := rstrip_by p Y1).
  assert (HX2 : ~ In LBRACE X2).
  { intros H. apply dropwhile_In in H. unfold X1 in H.
    apply in_app_or in H as [H|H]; [|auto]. simpl in H. intuition discriminate. }
  assert (HY2 : ~ In RBRACE Y2).
  { intros H. apply rstrip_by_In in H. unfold Y1 in H.
    apply in_app_or in H as [H|H]; [auto|]. simpl in H. intuition discriminate. }
  assert (F : find LBRACE (X2 ++ RBRACE :: B ++ LBRACE :: Y2)
              = Some (length (X2 ++ RBRACE :: B))).
  { change (X2 ++ RBRACE :: B ++ LBRACE :: Y2)
      with (X2 ++ (RBRACE :: B) ++ LBRACE :: Y2).
    rewrite app_assoc. apply find_app_first.
    intros H. apply in_app_or in H as [H|[H|H]]; auto. discriminate. }
  assert (G : rfind RBRACE (X2 ++ RBRACE :: B ++ LBRACE :: Y2)
              = Some (length X2)).
  { apply rfind_app_last.
    intros H. apply in_app_or in H as [H|[H|H]]; auto. discriminate. }
  rewrite F, G. unfold slice.
  replace (length X2 + 1 - length (X2 ++ RBRACE :: B))%nat with O
    by (rewrite length_app; simpl; lia).
  reflexivity.
Qed.

Lemma fenced_inverted_braces_witness :
  safe_json_loads (lit "```}{```") = inl ExpectingValue.
Proof.
  apply (fenced_inverted_braces [] [] []); simpl; tauto.
Defined.

(** ** Valid JSON goes through the normalizer unharmed *)

(** A text [json.loads] accepts is, once trimmed, still accepted with the
    same value, and does not look like a fenced block. *)
Lemma loads_strip (J : str) (v : JSON) :
  loads J = inr v ->
  loads (strip J) = inr v /\ startswith (lit "```") (strip J) = false.
Proof.
  intros H. apply loads_ok in H as (r & Hscan & Hr).
  destruct (dropwhile_split is_ws J) as (ws1 & EJ & Hws1).
  fold (skip_ws J) in EJ.
  destruct (scan_once_ends _ _ _ _ Hscan) as (pre & c & E & Hc).
  assert (HC : exists c0 C', pre ++ [c] = c0 :: C'
                            /\ skip_ws J = (c0 :: C') ++ r).
  { rewrite E. destruct pre as [|c0 pre']; simpl.
    - now exists c, [].
    - exists c0, (pre' ++ [c]). now rewrite <- app_assoc. }
  destruct HC as (c0 & C' & EC & EC').
  rewrite EC' in Hscan.
  pose proof (scan_once_first _ _ _ _ Hscan) as (Hsp0 & Hbt0 & Hbom0).
  assert (Hr' : all_space r = true)
    by (now apply all_ws_all_space, dropwhile_nil).
  assert (Es : strip J = c0 :: C').
  { unfold strip, strip_by, lstrip_by. rewrite EJ.
    rewrite dropwhile_app_all by (now apply all_ws_all_space).
    rewrite EC'. simpl dropwhile. rewrite Hsp0.
    change (c0 :: C' ++ r) with ((c0 :: C') ++ r). rewrite <- EC.
    rewrite <- app_assoc. simpl.
    rewrite rstrip_by_app_stop by exact Hc.
    now rewrite rstrip_by_all by exact Hr'. }
  rewrite Es. split.
  - change r with ([] ++ r) in Hscan at 2.
    apply (proj1 (scanner_prefix _)) in Hscan.
    assert (Hlen : (length (c0 :: C') <= length J)%nat).
    { rewrite EJ, EC', !length_app. lia. }
    assert (Hf : scan_once (S (2 * length (c0 :: C'))) (c0 :: C')
                 <> OutOfFuel)
      by (apply (fuel_enough (S (2 * length (c0 :: C')))); lia).
    rewrite (fuel_more (S (2 * length (c0 :: C'))) (S (2 * length J)))
      in Hscan by (exact Hf || lia).
    unfold loads. rewrite (startswith_head BOM c0 [] C' Hbom0).
    assert (Hw : skip_ws (c0 :: C') = c0 :: C').
    { unfold skip_ws. simpl. destruct (is_ws c0) eqn:Ew; [|reflexivity].
      apply is_ws_isspace in Ew. congruence. }
    rewrite Hw, Hscan. reflexivity.
  - change (startswith (lit "```") (c0 :: C'))
      with ((BACKTICK =? c0) && startswith (lit "``") C').
    now rewrite N.eqb_sym, Hbt0.
Qed.

Lemma safe_json_loads_valid (J : str) (v : JSON) :
  loads J = inr v -> safe_json_loads J = inr v.
Proof.
  intros HJ. apply loads_strip in HJ as [Hv Hf].
  unfold safe_json_loads. now rewrite Hf.
Qed.

(** X16: Whatever [json.loads] accepts, the normalizer accepts with the same
    value: trimming does no harm to valid JSON, and whitespace of any kind
    around it is tolerated. *)
Theorem normalizer_keeps_valid_json (lead J trail : str) (v : JSON) :
  loads J = inr v ->
  all_space lead = true -> all_space trail = true ->
  safe_json_loads (lead ++ J ++ trail) = inr v.
Proof.
  intros HJ H1 H2.
  rewrite (safe_json_loads_same_strip _ J) by (now apply strip_around).
  now apply safe_json_loads_valid.
Qed.

Lemma normalizer_keeps_valid_json_witness :
  safe_json_loads ([160] ++ Examples.small_text ++ [10])
  = inr (JObject Examples.small_object).
Proof.
  exact (normalizer_keeps_valid_json [160] Examples.small_text [10]
           (JObject Examples.small_object) eq_refl eq_refl eq_refl).
Defined.

Lemma fenced_as_bare (lead label J tail trail : str)
  (o : list (str * JSON)) :
  loads J = inr (JObject o) ->
  ~ In LBRACE label -> ~ In RBRACE tail ->
  all_space lead = true -> all_space trail = true ->
  safe_json_loads (lead ++ fenced label J tail ++ trail)
  = safe_json_loads J.
Proof.
  intros HJ Hl Ht Hlead Htrail.
  rewrite (safe_json_loads_same_strip _ (fenced label J tail))
    by (now apply strip_around_fenced).
  apply loads_object_shape in HJ as (ws1 & body & ws2 & -> & H1 & H2).
  rewrite safe_json_loads_object_text by assumption.
  unfold fenced.
  replace (lit "```" ++ label
           ++ (ws1 ++ LBRACE :: body ++ RBRACE :: ws2) ++ tail ++ lit "```")
    with (lit "```" ++ (label ++ ws1)
          ++ LBRACE :: body ++ RBRACE :: (ws2 ++ tail) ++ lit "```").
  - apply safe_json_loads_fenced.
    + intros H. apply in_app_or in H as [H|H]; [auto|].
      now apply (proj1 (all_ws_braceless ws1 H1)).
    + intros H. apply in_app_or in H as [H|H]; [|auto].
      now apply (proj2 (all_ws_braceless ws2 H2)).
  - rewrite <- !app_assoc. simpl. rewrite <- !app_assoc. reflexivity.
Qed.

(** X17: A JSON object sent inside a fenced block is recovered exactly: the
    normalizer returns the object [json.loads] reads from the bare text,
    whatever the label in front (without an opening brace) and the text
    behind (without a closing brace). *)
Theorem fenced_object_recovered (lead label J tail trail : str)
  (o : list (str * JSON)) :
  loads J = inr (JObject o) ->
  ~ In LBRACE label -> ~ In RBRACE tail ->
  all_space lead = true -> all_space trail = true ->
  safe_json_loads (lead ++ fenced label J tail ++ trail) = inr (JObject o).
Proof.
  intros HJ Hl Ht Hlead Htrail.
  rewrite (fenced_as_bare _ _ _ _ _ o) by assumption.
  now apply safe_json_loads_valid.
Qed.

Lemma fenced_object_recovered_witness :
  safe_json_loads
    (fenced (lit "json" ++ [10]) Examples.small_text (lit " Listo!") ++ [10])
  = inr (JObject Examples.small_object).
Proof.
  refine (fenced_object_recovered [] (lit "json" ++ [10])
            Examples.small_text (lit " Listo!") [10] Examples.small_object
            eq_refl _ _ eq_refl eq_refl);
    simpl; intuition discriminate.
Defined.

End HandlerFacts.
